(** * The transient accumulation block of mitransient

    A shallow embedding of [src/mitransient/transientBlock.py]
    (class [TransientBlock]) and the properties of its configuration,
    accumulation ([put], [put_]) and normalisation ([develop]) steps.

    Conventions of the embedding.

    - Floating-point numbers are exact rationals ([Q]): rounding is not
      modelled.  The only place where the source can leave the finite
      numbers on finite input, the division of [develop] and the
      reciprocal of the normalisation pass, is modelled explicitly
      ([xfloat], [NonFinite]).
    - [UInt32] values are integers in [Z] with the wrap-around written
      out ([wrap32]).
    - A Dr.Jit array holds one entry per lane (one per sample of the
      batch); it is a list.  A batch is a list of samples, one per lane.
    - Methods that can raise return a [result]; [configure_filter], whose
      claim is about the state at the moment of the failure, returns the
      state together with the exception raised, if any. *)

From Stdlib Require Import ZArith QArith Qround Qabs List Lia Bool Permutation.
Import ListNotations.
Local Open Scope Z_scope.

(** ** Exceptions and results *)

Inductive exn : Type :=
| NameError      (* raised by configure_filter *)
| TypeError      (* len() of an int, iteration over a 0-d array *)
| IndexError     (* Python list index out of range *)
| OutOfBounds    (* Dr.Jit gather/scatter outside the array: undefined *)
| NonFinite      (* the value leaves the finite numbers (rcp of 0) *)
| Diverged.      (* the loop did not finish within its fuel *)

Inductive result (A : Type) : Type :=
| Ok (a : A)
| Raise (e : exn).
Arguments Ok {A} a.
Arguments Raise {A} e.

Definition bind {A B} (r : result A) (k : A -> result B) : result B :=
  match r with
  | Ok a => k a
  | Raise e => Raise e
  end.

Notation "x <- r ;; k" := (bind r (fun x => k))
  (at level 61, r at next level, right associativity).

Fixpoint mapM {A B} (f : A -> result B) (l : list A) : result (list B) :=
  match l with
  | [] => Ok []
  | a :: l' => y <- f a ;; ys <- mapM f l' ;; Ok (y :: ys)
  end.

(** ** Integers, lists and NumPy arrays *)

Definition wrap32 (x : Z) : Z := x mod 2 ^ 32.

Definition zprod (l : list Z) : Z := fold_right Z.mul 1 l.
Definition zsum (l : list Z) : Z := fold_right Z.add 0 l.
Definition qsum (l : list Q) : Q := fold_right Qplus (0#1)%Q l.

Fixpoint map2 {A B C} (f : A -> B -> C) (l1 : list A) (l2 : list B) : list C :=
  match l1, l2 with
  | a :: l1', b :: l2' => f a b :: map2 f l1' l2'
  | _, _ => []
  end.

(** [dr.arange(UInt32, n)]. *)
Definition arange (n : Z) : list Z := map Z.of_nat (seq 0 (Z.to_nat n)).

Definition Qltb (x y : Q) : bool := negb (Qle_bool y x).

(** A NumPy integer array as the block stores it: [np.array(0)] is a 0-d
    array, [np.array([...])] a 1-d array.  All 1-d arrays of a block have
    one entry per dimension (the length check of [configure_filter]
    enforces it), so only 0-d arrays are ever broadcast. *)
Inductive ndarray : Type :=
| NdScalar (z : Z)
| NdArr (l : list Z).

Definition nd_bcast (D : nat) (a : ndarray) : list Z :=
  match a with
  | NdScalar z => repeat z D
  | NdArr l => l
  end.

(** Element-wise binary operation with broadcasting of 0-d operands. *)
Definition nd_zip (f : Z -> Z -> Z) (a b : ndarray) : ndarray :=
  match a, b with
  | NdScalar x, NdScalar y => NdScalar (f x y)
  | NdScalar x, NdArr l => NdArr (map (f x) l)
  | NdArr l, NdScalar y => NdArr (map (fun x => f x y) l)
  | NdArr l1, NdArr l2 => NdArr (map2 f l1 l2)
  end.

Definition nd_map (f : Z -> Z) (a : ndarray) : ndarray :=
  match a with
  | NdScalar z => NdScalar (f z)
  | NdArr l => NdArr (map f l)
  end.

(** [dr.any(a != b)]. *)
Definition nd_any_ne (a b : ndarray) : bool :=
  match nd_zip (fun x y => if x =? y then 0 else 1) a b with
  | NdScalar z => negb (z =? 0)
  | NdArr l => existsb (fun z => negb (z =? 0)) l
  end.

(** ** Tensors *)

Record Tensor (A : Type) : Type := mkTensor {
  shape : list Z;
  array : list A
}.
Arguments mkTensor {A} shape array.
Arguments shape {A} t.
Arguments array {A} t.

(** [dr.gather(Float, source, index)] for one lane. *)
Definition gather {A} (source : list A) (index : Z) : result A :=
  if index <? 0 then Raise OutOfBounds
  else match nth_error source (Z.to_nat index) with
       | Some a => Ok a
       | None => Raise OutOfBounds
       end.

(** Row-major position of a multi-index. *)
Fixpoint flat_index_from (acc : Z) (shp idx : list Z) : Z :=
  match shp, idx with
  | d :: shp', i :: idx' => flat_index_from (acc * d + i) shp' idx'
  | _, _ => acc
  end.
Definition flat_index (shp idx : list Z) : Z := flat_index_from 0 shp idx.

(** All multi-indices of a shape, in row-major order. *)
Fixpoint enumerate (shp : list Z) : list (list Z) :=
  match shp with
  | [] => [[]]
  | d :: shp' =>
      flat_map (fun i => map (cons i) (enumerate shp')) (arange d)
  end.

Definition in_shape (shp idx : list Z) : Prop :=
  Forall2 (fun d i => 0 <= i < d) shp idx.

(** Entry of a tensor at a multi-index. *)
Definition tensor_get {A} (t : Tensor A) (idx : list Z) : option A :=
  nth_error (array t) (Z.to_nat (flat_index (shape t) idx)).

(** A Python slice with step 1; [SliceAll] is [np.s_[:]]. *)
Inductive pyslice : Type :=
| SliceAll
| SliceRange (start stop : Z).

(** Python's normalisation of a slice bound against a length. *)
Definition slice_bound (d i : Z) : Z :=
  if i <? 0 then Z.max (i + d) 0 else Z.min i d.

(** First index and length selected by a slice on an axis of length [d]. *)
Definition slice_start (d : Z) (s : pyslice) : Z :=
  match s with
  | SliceAll => 0
  | SliceRange a _ => slice_bound d a
  end.
Definition slice_len (d : Z) (s : pyslice) : Z :=
  match s with
  | SliceAll => d
  | SliceRange a b => Z.max 0 (slice_bound d b - slice_bound d a)
  end.

(** Slices of the leading axes; the remaining axes are kept whole. *)
Fixpoint slice_starts (shp : list Z) (sl : list pyslice) : list Z :=
  match shp, sl with
  | d :: shp', s :: sl' => slice_start d s :: slice_starts shp' sl'
  | _, _ => map (fun _ => 0) shp
  end.
Fixpoint slice_shape (shp : list Z) (sl : list pyslice) : list Z :=
  match shp, sl with
  | d :: shp', s :: sl' => slice_len d s :: slice_shape shp' sl'
  | _, _ => shp
  end.

(** [t[slices]]: the selected entries are gathered in row-major order. *)
Definition tensor_getitem {A} (t : Tensor A) (sl : list pyslice)
  : result (Tensor A) :=
  if (length (shape t) <? length sl)%nat then Raise IndexError
  else
    let out_shape := slice_shape (shape t) sl in
    let starts := slice_starts (shape t) sl in
    vals <- mapM (fun idx =>
                    gather (array t)
                           (flat_index (shape t) (map2 Z.add idx starts)))
                 (enumerate out_shape) ;;
    Ok (mkTensor out_shape vals).

(** ** Extended values of [develop] *)

Inductive xfloat : Type :=
| XNum (q : Q)
| XPInf
| XNInf
| XNaN.

(** Floating-point division of two finite numbers. *)
Definition xdiv (v w : Q) : xfloat :=
  if Qeq_bool w 0 then
    if Qeq_bool v 0 then XNaN
    else if Qltb 0 v then XPInf else XNInf
  else XNum (v / w).

(** [x & mask] on a float: all bits cleared where the mask is false. *)
Definition xmask (x : xfloat) (m : bool) : xfloat :=
  if m then x else XNum 0.

(** ** Reconstruction filters (Mitsuba objects) *)

Record Filter : Type := mkFilter {
  f_radius : Q;                    (* radius() *)
  f_border_size : Z;               (* border_size() *)
  f_eval : Q -> bool -> Q          (* eval(x, active) *)
}.

(** The [filter] argument: [None], one filter object, or a list/tuple. *)
Inductive filter_arg : Type :=
| FilterNone
| FilterOne (f : Filter)
| FilterSeq (l : list Filter).

(** ** The block *)

Record Block : Type := mkBlock {
  m_offset : list Z;
  m_size : list Z;
  m_channel_count : Z;
  m_warn_negative : bool;
  m_warn_invalid : bool;
  m_normalize : bool;
  m_filter : option (list Filter);
  m_border_size : ndarray;
  m_original_border_size : ndarray;
  m_border_offset : ndarray;
  filter_radius : list Q;
  m_weights : list (list Q);
  m_data : Tensor Q
}.

Definition set_m_data (b : Block) (d : Tensor Q) : Block :=
  mkBlock (m_offset b) (m_size b) (m_channel_count b) (m_warn_negative b)
          (m_warn_invalid b) (m_normalize b) (m_filter b) (m_border_size b)
          (m_original_border_size b) (m_border_offset b) (filter_radius b)
          (m_weights b) d.

Definition set_m_weights (b : Block) (w : list (list Q)) : Block :=
  mkBlock (m_offset b) (m_size b) (m_channel_count b) (m_warn_negative b)
          (m_warn_invalid b) (m_normalize b) (m_filter b) (m_border_size b)
          (m_original_border_size b) (m_border_offset b) (filter_radius b)
          w (m_data b).

Definition set_borders (b : Block) (bs obs bo : ndarray) : Block :=
  mkBlock (m_offset b) (m_size b) (m_channel_count b) (m_warn_negative b)
          (m_warn_invalid b) (m_normalize b) (m_filter b) bs obs bo
          (filter_radius b) (m_weights b) (m_data b).

Definition set_filter (b : Block) (fl : list Filter) (rad : list Q)
           (w : list (list Q)) : Block :=
  mkBlock (m_offset b) (m_size b) (m_channel_count b) (m_warn_negative b)
          (m_warn_invalid b) (m_normalize b) (Some fl) (m_border_size b)
          (m_original_border_size b) (m_border_offset b) rad w (m_data b).

(** ** What the block takes from Mitsuba, Dr.Jit and NumPy *)

Record Backend : Type := mkBackend {
  (* mitsuba.math.RayEpsilon *)
  RayEpsilon : Q;
  (* Conversion of a float to UInt32 by Dr.Jit: UInt32(x), ArrayXu(x) *)
  dr_u32 : Q -> Z;
  (* Conversion of a float to uint32 by NumPy: astype(np.uint32) *)
  np_u32 : Q -> Z;
  (* mitsuba.math.linear_to_srgb *)
  linear_to_srgb : xfloat -> xfloat;
  (* The colour conversion at the head of put: the three entries rgb[0],
     rgb[1], rgb[2] obtained from (value, wavelengths, active) *)
  to_rgb : list Q -> list Q -> bool -> Q * Q * Q
}.

(** Truncation toward zero. *)
Definition Qtrunc (q : Q) : Z := Z.quot (Qnum q) (Z.pos (Qden q)).

(** Both conversions truncate toward zero when the truncated value fits
    in 32 bits; elsewhere the result is the platform's. *)
Definition cast_exact (cast : Q -> Z) : Prop :=
  forall q, (inject_Z (-1) < q)%Q -> (q < inject_Z (2 ^ 32))%Q ->
            cast q = Qtrunc q.
Definition cast_range (cast : Q -> Z) : Prop :=
  forall q, 0 <= cast q < 2 ^ 32.

Section TransientBlock.

Variable bk : Backend.

(** Number of taps of an axis:
    [np.ceil((radius - 2.0 * RayEpsilon) * 2.0).astype(np.uint32)]. *)
Definition tap_count (radius : Q) : Z :=
  np_u32 bk
    (inject_Z (Qceiling ((radius - (2#1) * RayEpsilon bk) * (2#1))%Q)).

(** *** [clear] *)

Definition clear (force : bool) (b : Block) : Block :=
  let border := if force then m_border_size b else m_original_border_size b in
  let sizeData :=
    map2 Z.add (m_size b)
         (map (Z.mul 2) (nd_bcast (length (m_size b)) border)) in
  let width := m_channel_count b * zprod sizeData in
  let shp := sizeData ++ [m_channel_count b] in
  set_m_data b (mkTensor shp (repeat (0#1)%Q (Z.to_nat width))).

(** *** [configure_filter]

    Returns the state at the end of the call, or at the moment an
    exception is raised, and the exception. *)

Definition configure_filter (filter : filter_arg) (border : bool) (b : Block)
  : Block * option exn :=
  match filter with
  | FilterNone => (b, Some NameError)
  | _ =>
    let fl := match filter with
              | FilterSeq l => l
              | FilterOne f => repeat f (length (m_size b))
              | FilterNone => []
              end in
    if negb (length (m_size b) =? length fl)%nat then (b, Some NameError)
    else
      let border_size :=
        if border then NdArr (map f_border_size fl) else NdScalar 0 in
      let b1 :=
        match m_filter b with
        | None =>
            set_borders b border_size border_size
                        (NdArr (repeat 0 (length (m_size b))))
        | Some _ =>
            let bo :=
              if nd_any_ne border_size (m_original_border_size b)
              then nd_map wrap32
                     (nd_zip Z.sub (m_original_border_size b) border_size)
              else m_border_offset b in
            set_borders b border_size (m_original_border_size b) bo
        end in
      let radius := map f_radius fl in
      let filter_size := map tap_count radius in
      let width := wrap32 (zsum filter_size) in
      (set_filter b1 fl radius (repeat [(0#1)%Q] (Z.to_nat width)), None)
  end.

(** *** [__init__]

    [set_size] leaves [m_size] at the integer 0 when every entry of
    [size] is 0 ([np.all(0 == size)]); [configure_filter] then fails on
    [len(self.m_size)] unless it has already failed on the missing
    filter. *)

Definition init (size : list Z) (channel_count : Z) (filter : filter_arg)
           (warn_negative warn_invalid border normalize : bool)
  : result Block :=
  if forallb (Z.eqb 0) size then
    match filter with
    | FilterNone => Raise NameError
    | _ => Raise TypeError
    end
  else
    let b0 := mkBlock (repeat 0 (length size)) size channel_count
                      warn_negative warn_invalid normalize None
                      (NdScalar 0) (NdScalar 0) (NdScalar 0) [] []
                      (mkTensor [] []) in
    match configure_filter filter border b0 with
    | (_, Some e) => Raise e
    | (b1, None) => Ok (clear false b1)
    end.

(** *** [develop] *)

Definition crop_slice (bi : Z) : pyslice :=
  if bi =? 0 then SliceAll else SliceRange bi (- bi).

Definition develop_values (res : Tensor Q) (gamma : bool)
  : result (list xfloat) :=
  let pixel_count := zprod (removelast (shape res)) in
  let ch := last (shape res) 0 in
  let target_ch := ch - 2 in
  mapM (fun i =>
          let i_channel := i mod target_ch in
          let weight_idx := wrap32 (wrap32 ((i / target_ch) * ch) + 4) in
          let values_idx :=
            wrap32 (wrap32 ((i / target_ch) * ch) + i_channel) in
          weight <- gather (array res) weight_idx ;;
          value <- gather (array res) values_idx ;;
          let v := xmask (xdiv value weight) (Qltb 0 weight) in
          Ok (if gamma then linear_to_srgb bk v else v))
       (arange (pixel_count * target_ch)).

Definition develop (gamma integer raw : bool) (b : Block)
  : result (Tensor xfloat) :=
  let res := m_data b in
  if raw then Ok (mkTensor (shape res) (map XNum (array res)))
  else
    values <- develop_values res gamma ;;
    let res' := mkTensor (removelast (shape res) ++ [last (shape res) 0 - 2])
                         values in
    match m_original_border_size b with
    | NdScalar _ => Raise TypeError
    | NdArr obs => tensor_getitem res' (map crop_slice obs)
    end.

(** *** [put_]: per-lane geometry

    One lane of the batch: a sample position (one coordinate per axis),
    the list [value] (one entry per channel) and the [active] flag. *)

Record Sample : Type := mkSample {
  s_pos : list Q;
  s_value : list Q;
  s_active : bool
}.

(** One lane of a call [dr.scatter_reduce(dr.ReduceOp.Add, target, value,
    index, mask)]. *)
Record scatter : Type := mkScatter {
  sc_index : Z;
  sc_value : Q;
  sc_mask : bool
}.

Fixpoint list_update {A} (l : list A) (i : nat) (x : A) : list A :=
  match l, i with
  | [], _ => []
  | _ :: l', O => x :: l'
  | a :: l', S i' => a :: list_update l' i' x
  end.

(** One lane of a scatter-add; a write outside the target is undefined. *)
Definition scatter_add (target : list Q) (s : scatter) : result (list Q) :=
  if sc_mask s then
    if sc_index s <? 0 then Raise OutOfBounds
    else match nth_error target (Z.to_nat (sc_index s)) with
         | Some old =>
             Ok (list_update target (Z.to_nat (sc_index s))
                             (old + sc_value s)%Q)
         | None => Raise OutOfBounds
         end
  else Ok target.

Fixpoint scatter_reduce_add (target : list Q) (lanes : list scatter)
  : result (list Q) :=
  match lanes with
  | [] => Ok target
  | s :: lanes' =>
      t <- scatter_add target s ;; scatter_reduce_add t lanes'
  end.

Section Lane.

Variable b : Block.

Definition dims : nat := length (m_size b).

(** [ArrayXf(self.m_border_size.tolist())] and friends, entry [j]. *)
Definition border_size_at (j : nat) : Z :=
  nth j (nd_bcast dims (m_border_size b)) 0.
Definition border_offset_at (j : nat) : Z :=
  nth j (nd_bcast dims (m_border_offset b)) 0.
Definition offset_at (j : nat) : Z := nth j (m_offset b) 0.
Definition radius_at (j : nat) : Q := nth j (filter_radius b) (0#1)%Q.

(** [size = ArrayXu(self.m_size.tolist())
           + 2 * ArrayXu(self.m_original_border_size.tolist())]. *)
Definition size_at (j : nat) : Z :=
  wrap32 (wrap32 (nth j (m_size b) 0)
          + wrap32 (2 * wrap32 (nth j (nd_bcast dims
                                         (m_original_border_size b)) 0))).

(** [UInt32(dr.prod(size[j+1:]))]. *)
Definition stride_at (j : nat) : Z :=
  fold_left (fun acc i => wrap32 (acc * size_at i))
            (seq (S j) (dims - S j)) 1.

(** [np.any(self.filter_radius > (0.5 + RayEpsilon))]. *)
Definition general_path : bool :=
  existsb (fun r => Qltb ((1#2) + RayEpsilon bk) r) (filter_radius b).

(** [n]. *)
Definition taps : list Z := map tap_count (filter_radius b).

Variable s : Sample.

(** [pos = pos_ - (offset - (border_size + border_offset) + 0.5)]. *)
Definition pos_at (j : nat) : Q :=
  (nth j (s_pos s) (0#1)
   - (inject_Z (offset_at j)
      - (inject_Z (border_size_at j) + inject_Z (border_offset_at j))
      + (1#2)))%Q.

(** General path: [lo], [hi] before and after the conversion to
    [ArrayXu], and [base = lo - pos]. *)
Definition lo_float (j : nat) : Z :=
  Z.max (Qceiling (pos_at j - radius_at j)) 0.
Definition hi_float (j : nat) : Z :=
  Z.min (Qfloor (pos_at j + radius_at j))
        (size_at j - (1 + border_offset_at j)).
Definition lo_at (j : nat) : Z := dr_u32 bk (inject_Z (lo_float j)).
Definition hi_at (j : nat) : Z := dr_u32 bk (inject_Z (hi_float j)).
Definition base_at (j : nat) : Q := (inject_Z (lo_at j) - pos_at j)%Q.

(** General path, inside the tap loop: flat offset and mask of the lane
    for the tap [idxs].
    [for j in range(len(self.m_filter)-1, -1, -1):
       offset += UInt32((idxs[j] + lo[j]) * UInt32(dr.prod(size[j+1:])))
       enabled &= (idxs[j] + lo[j]) <= hi[j]
     offset *= UInt32(self.m_channel_count)]. *)
Definition tap_cell (idxs : list Z) (j : nat) : Z :=
  wrap32 (nth j idxs 0 + lo_at j).

Definition tap_offset (idxs : list Z) : Z :=
  wrap32 (fold_left
            (fun acc j => wrap32 (acc + wrap32 (tap_cell idxs j * stride_at j)))
            (rev (seq 0 dims)) 0
          * wrap32 (m_channel_count b)).

Definition tap_enabled (idxs : list Z) : bool :=
  fold_left (fun acc j => acc && (tap_cell idxs j <=? hi_at j))
            (rev (seq 0 dims)) (s_active s).

(** Fast path: [lo = dr.ceil(pos - 0.5)], the flat offset and the mask. *)
Definition fast_lo (j : nat) : Z := Qceiling (pos_at j - (1#2)).

Definition fast_offset : Z :=
  wrap32 (fold_left
            (fun acc j =>
               wrap32 (acc + wrap32 (dr_u32 bk (inject_Z (fast_lo j))
                                     * stride_at j)))
            (rev (seq 0 dims)) 0
          * wrap32 (m_channel_count b)).

Definition fast_enabled : bool :=
  s_active s
  && forallb (fun j => (0 <=? fast_lo j) && (fast_lo j <? size_at j))
             (seq 0 dims).

End Lane.

(** *** [put_]: the weight table *)

(** Python list read and write at a non-negative index. *)
Definition list_get {A} (l : list A) (i : Z) : result A :=
  match nth_error l (Z.to_nat i) with
  | Some a => Ok a
  | None => Raise IndexError
  end.

Definition list_set {A} (l : list A) (i : Z) (x : A) : result (list A) :=
  if (Z.to_nat i <? length l)%nat then Ok (list_update l (Z.to_nat i) x)
  else Raise IndexError.

(** Lane-wise operation; an array of one lane (a literal such as
    [Float(1.0)]) is broadcast. *)
Definition lane_op (f : Q -> Q -> Q) (a c : list Q) : list Q :=
  match a, c with
  | [x], _ => map (f x) c
  | _, [y] => map (fun x => f x y) a
  | _, _ => map2 f a c
  end.

(** [Int32(x)[0]] of a [np.uint32]. *)
Definition to_int32 (x : Z) : Z :=
  if wrap32 x <? 2 ^ 31 then wrap32 x else wrap32 x - 2 ^ 32.

(** [for i in range(n[j]):
       p = UInt32(base[j]) + i
       index = np.uint32(base_index + i)
       self.m_weights[index] = self.m_filter[j].eval(p, active)]. *)
Definition fill_axis (b : Block) (batch : list Sample) (j : nat) (f : Filter)
           (nj base_index : Z) (W : list (list Q)) : result (list (list Q)) :=
  fold_left
    (fun acc i =>
       W' <- acc ;;
       list_set W' (wrap32 (base_index + i))
                (map (fun s =>
                        f_eval f
                               (inject_Z
                                  (wrap32 (dr_u32 bk (base_at b s j) + i)))
                               (s_active s))
                     batch))
    (arange nj) (Ok W).

Fixpoint fill_weights (b : Block) (batch : list Sample) (j : nat)
         (fl : list Filter) (n : list Z) (base_index : Z)
         (W : list (list Q)) : result (list (list Q)) :=
  match fl, n with
  | f :: fl', nj :: n' =>
      W' <- fill_axis b batch j f nj base_index W ;;
      fill_weights b batch (S j) fl' n' (base_index + nj) W'
  | _, _ => Ok W
  end.

(** [dr.hsum] of a Python list of arrays: their lane-wise sum. *)
Definition hsum (l : list (list Q)) : list Q :=
  match l with
  | [] => [(0#1)%Q]
  | a :: l' => fold_left (lane_op Qplus) l' a
  end.

(** [for j in range(len(self.m_filter)):
       index = UInt32(n[j])[0]
       factor *= dr.hsum(self.m_weights[base_index[0]:base_index[0]+index])
       base_index += UInt32(n[j])]. *)
Fixpoint norm_factor (W : list (list Q)) (n : list Z) (base_index : Z)
         (factor : list Q) : list Q :=
  match n with
  | [] => factor
  | nj :: n' =>
      norm_factor W n' (wrap32 (base_index + wrap32 nj))
        (lane_op Qmult factor
           (hsum (firstn (Z.to_nat (wrap32 nj))
                         (skipn (Z.to_nat base_index) W))))
  end.

(** [factor = dr.rcp(factor)
     for i in range(Int32(n[0])[0]):
       self.m_weights[i] *= factor[0]]. *)
Definition normalize_weights (W : list (list Q)) (n : list Z)
  : result (list (list Q)) :=
  match norm_factor W n 0 [(1#1)%Q], n with
  | f0 :: _, n0 :: _ =>
      if Qeq_bool f0 0 then Raise NonFinite
      else
        fold_left
          (fun acc i =>
             W' <- acc ;;
             w <- list_get W' i ;;
             list_set W' i (map (fun x => x * / f0)%Q w))
          (arange (to_int32 n0)) (Ok W)
  | _, _ => Raise IndexError
  end.

(** *** [put_]: the tap loop *)

(** [weigth = Float(1.0)
     for j in range(len(self.m_filter)):
       weigth *= self.m_weights[base_index+idxs[j]]
       base_index += n[j]]. *)
Fixpoint gather_weight (W : list (list Q)) (n idxs : list Z)
         (base_index : Z) (weigth : list Q) : result (list Q) :=
  match n, idxs with
  | nj :: n', ij :: idxs' =>
      w <- list_get W (base_index + ij) ;;
      gather_weight W n' idxs' (base_index + nj) (lane_op Qmult weigth w)
  | _, _ => Ok weigth
  end.

(** The scatter-adds of one tap, channel by channel and, within a call,
    lane by lane. *)
Definition tap_scatters (b : Block) (batch : list Sample) (weigth : list Q)
           (idxs : list Z) : result (list scatter) :=
  calls <- mapM
    (fun k =>
       value_k <- mapM (fun s => list_get (s_value s) k) batch ;;
       Ok (map2 (fun s x =>
                   mkScatter (wrap32 (tap_offset b s idxs + wrap32 k)) x
                             (tap_enabled b s idxs))
                batch (lane_op Qmult value_k weigth)))
    (arange (m_channel_count b)) ;;
  Ok (concat calls).

(** The update of [idxs] at the end of the loop body; the flag tells
    whether [j == len(n)] holds afterwards. *)
Fixpoint advance (n idxs : list Z) : list Z * bool :=
  match n, idxs with
  | nj :: n', ij :: idxs' =>
      if wrap32 (ij + 1) <? to_int32 nj then (wrap32 (ij + 1) :: idxs', false)
      else let (r, fin) := advance n' idxs' in (0 :: r, fin)
  | _, _ => (idxs, true)
  end.

(** [while (True): ...], with the scatter-adds collected in order. *)
Fixpoint tap_loop (fuel : nat) (b : Block) (batch : list Sample)
         (W : list (list Q)) (n idxs : list Z) (acc : list scatter)
  : result (list scatter) :=
  match fuel with
  | O => Raise Diverged
  | S fuel' =>
      weigth <- gather_weight W n idxs 0 [(1#1)%Q] ;;
      ops <- tap_scatters b batch weigth idxs ;;
      let (idxs', fin) := advance n idxs in
      if fin then Ok (acc ++ ops)
      else tap_loop fuel' b batch W n idxs' (acc ++ ops)
  end.

(** Number of iterations of the loop: one per tap combination. *)
Definition tap_total (n : list Z) : Z :=
  zprod (map (fun nj => Z.max 1 (to_int32 nj)) n).

(** Fast path: the scatter-adds, channel by channel, lane by lane. *)
Definition fast_scatters (b : Block) (batch : list Sample)
  : result (list scatter) :=
  calls <- mapM
    (fun k =>
       value_k <- mapM (fun s => list_get (s_value s) k) batch ;;
       Ok (map2 (fun s x =>
                   mkScatter (wrap32 (fast_offset b s + wrap32 k)) x
                             (fast_enabled b s))
                batch value_k))
    (arange (m_channel_count b)) ;;
  Ok (concat calls).

(** The weight table and the scatter-adds of a call of [put_], in the
    order of the source. *)
Definition put_scatters (b : Block) (batch : list Sample)
  : result (list (list Q) * list scatter) :=
  if general_path b then
    match m_filter b with
    | None => Raise TypeError
    | Some fl =>
        let n := taps b in
        W1 <- fill_weights b batch 0 fl n 0 (m_weights b) ;;
        W2 <- (if m_normalize b then normalize_weights W1 n else Ok W1) ;;
        ops <- tap_loop (Z.to_nat (tap_total n)) b batch W2 n
                        (repeat 0 (length fl)) [] ;;
        Ok (W2, ops)
    end
  else
    ops <- fast_scatters b batch ;;
    Ok (m_weights b, ops).

(** [put_]: the block after the call (the call returns [active]). *)
Definition put_ (b : Block) (batch : list Sample) : result Block :=
  r <- put_scatters b batch ;;
  data <- scatter_reduce_add (array (m_data b)) (snd r) ;;
  Ok (set_m_weights (set_m_data b (mkTensor (shape (m_data b)) data))
                    (fst r)).

(** [put]: one lane of its arguments, and the call
    [self.put_(pos, [rgb[0], rgb[1], rgb[2], alpha, 1.0], active)]. *)
Record PutSample : Type := mkPutSample {
  p_pos : list Q;
  p_wavelengths : list Q;
  p_value : list Q;
  p_alpha : Q;
  p_active : bool
}.

Definition put_values (p : PutSample) : Sample :=
  let '(r, g, bl) := to_rgb bk (p_value p) (p_wavelengths p) (p_active p) in
  mkSample (p_pos p) [r; g; bl; p_alpha p; (1#1)%Q] (p_active p).

Definition put (b : Block) (batch : list PutSample) : result Block :=
  put_ b (map put_values batch).

End TransientBlock.


(** ** Concrete backends and filters *)

(** A conversion that saturates outside the 32-bit range (as a GPU does)
    and one that wraps around. *)
Definition cast_sat (q : Q) : Z := Z.min (Z.max (Qtrunc q) 0) (2 ^ 32 - 1).
Definition cast_wrap (q : Q) : Z := wrap32 (Qtrunc q).

(** The linear segment of the sRGB transfer curve. *)
Definition srgb_linear_segment (x : xfloat) : xfloat :=
  match x with
  | XNum q => XNum ((323 # 25) * q)%Q
  | _ => x
  end.

Definition rgb_of_list (v : list Q) (_ : list Q) (_ : bool) : Q * Q * Q :=
  (nth 0%nat v (0#1)%Q, nth 1%nat v (0#1)%Q, nth 2%nat v (0#1)%Q).

Definition backend_sat : Backend :=
  mkBackend (375 # 4194304) cast_sat cast_sat srgb_linear_segment rgb_of_list.
Definition backend_wrap : Backend :=
  mkBackend (375 # 4194304) cast_wrap cast_wrap srgb_linear_segment
            rgb_of_list.

(** Mitsuba's box filter (radius 0.5) and a tent filter of radius [r]
    with border [bs]. *)
Definition box_filter : Filter :=
  mkFilter (1#2) 0
           (fun x _ => if Qle_bool (Qabs x) (1#2) then (1#1)%Q else (0#1)%Q).
Definition tent_filter (r : Q) (bs : Z) : Filter :=
  mkFilter r bs
           (fun x _ => if Qle_bool (Qabs x) r then (1 - Qabs x / r)%Q
                       else (0#1)%Q).

(** ** The claims in the words of the specification

    Definitions that follow the specification's wording, to be compared
    with what the source computes. *)

(** "No filter supplied, or filter-list length neither 1 nor equal to
    dimension count". *)
Definition spec_configuration_error (filter : filter_arg) (b : Block) : Prop :=
  filter = FilterNone \/
  exists l, filter = FilterSeq l /\ length l <> 1%nat /\
            length l <> length (m_size b).

(** "Round to nearest integer cell ([floor(coord + 0.5)])". *)
Definition spec_fast_cell (coord : Q) : Z := Qfloor (coord + (1#2)).

(** "[hi[j] = floor(coord[j] + radius[j])], clamped to
    [[0, extent[j] - 1]]". *)
Definition spec_hi (coord radius : Q) (extent : Z) : Z :=
  Z.max 0 (Z.min (Qfloor (coord + radius)) (extent - 1)).

(** ** Predicates on blocks and samples *)

(** The conversions of the backend behave as a truncation where the
    truncated value fits. *)
Definition backend_ok (bk : Backend) : Prop :=
  cast_exact (dr_u32 bk) /\ cast_range (dr_u32 bk) /\
  cast_exact (np_u32 bk) /\ cast_range (np_u32 bk).

(** Padded extent of the axes: [dimensions + 2 * max_border_width]. *)
Definition padded (b : Block) : list Z :=
  map2 (fun d o => d + 2 * o) (m_size b)
       (nd_bcast (length (m_size b)) (m_original_border_size b)).

(** The buffer is the one [clear()] allocates for the block. *)
Definition allocated (b : Block) : Prop :=
  shape (m_data b) = padded b ++ [m_channel_count b] /\
  Z.of_nat (length (array (m_data b))) = m_channel_count b * zprod (padded b).

(** Positive dimensions, non-negative borders (one per axis) fixed at the
    first configuration, and a buffer that 32-bit indices can address. *)
Definition geometry_ok (b : Block) : Prop :=
  Forall (fun d => 0 < d) (m_size b) /\
  (exists obs, m_original_border_size b = NdArr obs /\
               length obs = length (m_size b) /\
               Forall (fun o => 0 <= o) obs) /\
  m_channel_count b * zprod (padded b) < 2 ^ 32.

(** Sum over all cells of channel [k] of a flat buffer with [ch]
    channels per cell. *)
Fixpoint channel_sum_from (ch k i : Z) (data : list Q) : Q :=
  match data with
  | [] => (0#1)%Q
  | x :: data' =>
      ((if i mod ch =? k then x else (0#1)) + channel_sum_from ch k (i + 1) data')%Q
  end.
Definition channel_sum (ch k : Z) (data : list Q) : Q :=
  channel_sum_from ch k 0 data.

(** [data] with [vals[k]] added at the flat positions [off + k]. *)
Fixpoint add_values (data : list Q) (off : nat) (vals : list Q) : list Q :=
  match vals with
  | [] => data
  | v :: vals' =>
      add_values (list_update data off (nth off data (0#1)%Q + v)%Q)
                 (S off) vals'
  end.

(** * Auxiliary definitions for the proofs *)

(** The state after a successful configuration. *)
Definition configured (bk : Backend) (fl : list Filter) (border : bool)
           (b : Block) : Block :=
  let border_size :=
    if border then NdArr (map f_border_size fl) else NdScalar 0 in
  let b1 :=
    match m_filter b with
    | None => set_borders b border_size border_size
                          (NdArr (repeat 0 (length (m_size b))))
    | Some _ =>
        set_borders b border_size (m_original_border_size b)
          (if nd_any_ne border_size (m_original_border_size b)
           then nd_map wrap32
                  (nd_zip Z.sub (m_original_border_size b) border_size)
           else m_border_offset b)
    end in
  set_filter b1 fl (map f_radius fl)
    (repeat [(0#1)%Q]
            (Z.to_nat (wrap32 (zsum (map (tap_count bk)
                                         (map f_radius fl)))))).

Definition fast_cell (b : Block) (s : Sample) : list Z :=
  map (fast_lo b s) (seq 0 (length (m_size b))).
Definition scatter_gain (ch k : Z) (sc : scatter) : Q :=
  if sc_mask sc && (sc_index sc mod ch =? k) then sc_value sc else (0#1)%Q.
Definition active_sum (k : Z) (batch : list Sample) : Q :=
  qsum (map (fun s => if s_active s
                      then nth (Z.to_nat k) (s_value s) (0#1)%Q
                      else (0#1)%Q) batch).

(** The scatter-adds of the fast path, when every lane brings a value
    for every channel. *)
Definition fast_ops (bk : Backend) (b : Block) (batch : list Sample)
  : list scatter :=
  concat
    (map (fun k =>
            map (fun s =>
                   mkScatter (wrap32 (fast_offset bk b s + wrap32 k))
                             (nth (Z.to_nat k) (s_value s) (0#1)%Q)
                             (fast_enabled b s))
                batch)
         (arange (m_channel_count b))).

(** Number of values the counter [idxs[j]] takes: the loop body runs once
    even for a tap count of zero. *)
Definition tap_radix (nj : Z) : Z := Z.max 1 (to_int32 nj).

(** The [v]-th tap visited by the loop: the digits of [v] in the mixed
    radix of the tap counts, axis 0 running fastest. *)
Fixpoint tap_digits (n : list Z) (v : Z) : list Z :=
  match n with
  | [] => []
  | nj :: n' => v mod tap_radix nj :: tap_digits n' (v / tap_radix nj)
  end.

(** The body of the tap loop: the scatter-adds of the tap [idxs]. *)
Definition tap_body (bk : Backend) (b : Block) (batch : list Sample)
           (W : list (list Q)) (n idxs : list Z) : result (list scatter) :=
  weigth <- gather_weight W n idxs 0 [(1#1)%Q] ;;
  tap_scatters bk b batch weigth idxs.

(** The block is configured: one filter per axis, with its radius. *)
Definition filters_ok (b : Block) : Prop :=
  exists fl, m_filter b = Some fl /\
             filter_radius b = map f_radius fl /\
             length fl = length (m_size b) /\
             Forall (fun r => (0 <= r)%Q) (filter_radius b).

(** The origin shift stays inside the padded buffer. *)
Definition offsets_ok (b : Block) : Prop :=
  forall j, (j < length (m_size b))%nat ->
            0 <= border_offset_at b j < size_at b j.

Definition converges {A} (r : result A) : Prop := r <> Raise Diverged.

(** The support of the sample reaches the buffer from below and its
    coordinates fit in 32 bits: [lo] and [hi] are converted exactly. *)
Definition sample_in_range (bk : Backend) (b : Block) (s : Sample) : Prop :=
  forall j, (j < length (m_size b))%nat ->
    0 <= Qfloor (pos_at b s j + radius_at b j) /\
    Qceiling (pos_at b s j - radius_at b j)
    + tap_radix (nth j (taps bk b) 0) <= 2 ^ 32.


Definition qprod (l : list Q) : Q := fold_right Qmult (1#1)%Q l.






(** ** Example blocks and samples *)

Definition blank_block : Block :=
  mkBlock [] [] 0 false false false None (NdScalar 0) (NdScalar 0)
          (NdScalar 0) [] [] (mkTensor [] []).

Definition block_of (r : result Block) : Block :=
  match r with
  | Ok b => b
  | Raise _ => blank_block
  end.

(** A 4x4x3 block (x, y, time bin) with box filters and the five
    channels R, G, B, alpha, weight. *)
Definition box_block : Block :=
  block_of (init backend_sat [4; 4; 3] 5 (FilterOne box_filter)
                 false false true false).

(** One cell, six channels. *)
Definition six_channel_block : Block :=
  block_of (init backend_sat [1] 6 (FilterOne box_filter)
                 false false true false).

(** One axis of four cells, allocated for a tent filter of radius 2.5
    (border 2), then reconfigured with a tent filter of radius 1.5
    (border 1). *)
Definition wide_block : Block :=
  block_of (init backend_sat [4] 5 (FilterOne (tent_filter (5#2) 2))
                 false false true false).
Definition shrunk_block : Block :=
  fst (configure_filter backend_sat (FilterOne (tent_filter (3#2) 1)) true
                        wide_block).

(** One and two axes with a tent filter of radius 1.5 and the
    normalisation of the weights switched on. *)
Definition normalized_block_1d : Block :=
  block_of (init backend_sat [4] 5 (FilterOne (tent_filter (3#2) 1))
                 false false true true).

Definition sample_at (pos : list Q) (value : list Q) : Sample :=
  mkSample pos value true.

Definition unit_values : list Q := [1#1; 1#1; 1#1; 1#1; 1#1]%Q.

Definition tensor_of {A} (r : result (Tensor A)) : Tensor A :=
  match r with
  | Ok t => t
  | Raise _ => mkTensor [] []
  end.

Definition scatters_of (r : result (list (list Q) * list scatter))
  : list (list Q) * list scatter :=
  match r with
  | Ok x => x
  | Raise _ => ([], [])
  end.

(** The sample of the end-to-end scenario: position (1.5, 2.5), time
    bin 1, value (2, 1, 0), alpha 1. *)
Definition centre_sample : Sample :=
  sample_at [3#2; 5#2; 3#2]%Q [2#1; 1#1; 0#1; 1#1; 1#1]%Q.
Definition centre_put_sample : PutSample :=
  mkPutSample [3#2; 5#2; 3#2]%Q [] [2#1; 1#1; 0#1]%Q (1#1)%Q true.
Definition corner_sample : Sample :=
  sample_at [7#2; 1#2; 5#2]%Q [1#1; 1#1; 1#1; 1#1; 1#1]%Q.
Definition box_block_after : Block :=
  block_of (put_ backend_sat box_block [centre_sample]).

(** A sample on the boundary between two cells of [box_block]. *)
Definition tie_sample : PutSample :=
  mkPutSample [1#1; 1#1; 1#1]%Q [] [1#1; 1#1; 1#1]%Q (1#1)%Q true.

(** A sample for [six_channel_block]: 2 in channel 4, 0 in the last
    channel. *)
Definition six_channel_sample : Sample :=
  sample_at [1#2]%Q [1#1; 0#1; 0#1; 0#1; 2#1; 0#1]%Q.

(** A sample near the upper edge of [shrunk_block]. *)
Definition edge_sample : Sample := sample_at [21#4]%Q unit_values.
Definition edge_scatters : list (list Q) * list scatter :=
  scatters_of (put_scatters backend_sat shrunk_block [edge_sample]).

(** Two samples for [normalized_block_1d], one inside the buffer and one
    whose support is cut by its lower edge, and one for
    [normalized_block_2d]. *)
Definition inner_sample : Sample := sample_at [13#4]%Q unit_values.
Definition outer_sample : Sample := sample_at [-7#4]%Q unit_values.

(** ** Definitions for the further properties *)

(** The list of filters a configuration works with: a single filter is
    repeated for every axis. *)
Definition filter_list (filter : filter_arg) (D : nat) : list Filter :=
  match filter with
  | FilterNone => []
  | FilterOne f => repeat f D
  | FilterSeq l => l
  end.

(** The value [develop] stores for a cell: the transfer curve is applied
    when [gamma] is set. *)
Definition developed (bk : Backend) (gamma : bool) (x : xfloat) : xfloat :=
  if gamma then linear_to_srgb bk x else x.

(** What one lane of a scatter-add adds to the entry [i] of the target. *)
Definition cell_gain (i : nat) (sc : scatter) : Q :=
  if sc_mask sc && (sc_index sc =? Z.of_nat i) then sc_value sc else (0#1)%Q.

(** Scatter-adds issued lane by lane: for every call [c] of [cs], in
    order, one scatter-add [g c s] per sample [s] of the batch. *)
Definition lane_ops {C} (g : C -> Sample -> scatter) (cs : list C)
           (batch : list Sample) : list scatter :=
  concat (map (fun c => map (g c) batch) cs).

(** What the calls [cs] add to the entry [i] for the sample [s]. *)
Definition sample_gain {C} (g : C -> Sample -> scatter) (cs : list C)
           (i : nat) (s : Sample) : Q :=
  qsum (map (fun c => cell_gain i (g c s)) cs).

(** Two buffers hold the same numbers. *)
Definition same_values (l1 l2 : list Q) : Prop := Forall2 Qeq l1 l2.

(** Fast path: the scatter-add of channel [k] for the sample [s]. *)
Definition fast_op (bk : Backend) (b : Block) (k : Z) (s : Sample) : scatter :=
  mkScatter (wrap32 (fast_offset bk b s + wrap32 k))
            (nth (Z.to_nat k) (s_value s) (0#1)%Q)
            (fast_enabled b s).

(** Every sample of the batch brings a value for every channel. *)
Definition values_ok (ch : Z) (batch : list Sample) : Prop :=
  forall s k, In s batch -> 0 <= k < ch ->
              (Z.to_nat k < length (s_value s))%nat.

(** General path: the value [self.m_filter[j].eval(UInt32(base[j]) + t,
    active)] of the tap [t] of axis [j] for the sample [s]. *)
Definition tap_eval (bk : Backend) (b : Block) (s : Sample) (j : nat)
           (f : Filter) (t : Z) : Q :=
  f_eval f (inject_Z (wrap32 (dr_u32 bk (base_at bk b s j) + t))) (s_active s).

(** The weight of the tap [idxs] for one sample: the product, axis by
    axis, of the filter values, in the order of the loop of [put_]. *)
Fixpoint lane_weight (ev : nat -> Filter -> Z -> Q) (fl : list Filter)
         (idxs : list Z) (j : nat) (acc : Q) : Q :=
  match fl, idxs with
  | f :: fl', ij :: idxs' =>
      lane_weight ev fl' idxs' (S j) (acc * ev j f ij)%Q
  | _, _ => acc
  end.

(** General path: the scatter-add of the tap number [fst c] and the
    channel [snd c] for the sample [s]. *)
Definition tap_op (bk : Backend) (b : Block) (fl : list Filter) (n : list Z)
           (c : Z * Z) (s : Sample) : scatter :=
  mkScatter (wrap32 (tap_offset bk b s (tap_digits n (fst c)) + wrap32 (snd c)))
            (nth (Z.to_nat (snd c)) (s_value s) (0#1)
             * lane_weight (tap_eval bk b s) fl (tap_digits n (fst c)) 0
                           (1#1))%Q
            (tap_enabled bk b s (tap_digits n (fst c))).

(** The rows of the weight table from [base] on hold, axis after axis,
    the values [row j f t] of the taps [t] of the axis. *)
Fixpoint rows_ok (row : nat -> Filter -> Z -> list Q) (W : list (list Q))
         (fl : list Filter) (n : list Z) (j : nat) (base : Z) : Prop :=
  match fl, n with
  | f :: fl', nj :: n' =>
      (forall t, 0 <= t < nj ->
                 nth_error W (Z.to_nat (base + t)) = Some (row j f t)) /\
      rows_ok row W fl' n' (S j) (base + nj)
  | _, _ => True
  end.

(** [put_scatters] with the weight table the call starts from made
    explicit. *)
Definition put_scatters_from (bk : Backend) (b : Block) (W0 : list (list Q))
           (batch : list Sample) : result (list (list Q) * list scatter) :=
  if general_path bk b then
    match m_filter b with
    | None => Raise TypeError
    | Some fl =>
        let n := taps bk b in
        W1 <- fill_weights bk b batch 0 fl n 0 W0 ;;
        W2 <- (if m_normalize b then normalize_weights W1 n else Ok W1) ;;
        ops <- tap_loop bk (Z.to_nat (tap_total n)) b batch W2 n
                        (repeat 0 (length fl)) [] ;;
        Ok (W2, ops)
    end
  else
    ops <- fast_scatters bk b batch ;;
    Ok (W0, ops).

(** The static conditions under which the general path is lane-wise: a
    configured block without normalisation whose tap counts are positive
    and fit the table. *)
Definition lanewise_general (bk : Backend) (b : Block) : Prop :=
  filters_ok b /\ m_normalize b = false /\
  Forall (fun nj => 1 <= nj < 2 ^ 31) (taps bk b) /\
  zsum (taps bk b) <= 2 ^ 32.

(** The calls of the general path: the taps in the order of the loop,
    and for every tap the channels. *)
Definition tap_calls (bk : Backend) (b : Block) : list (Z * Z) :=
  list_prod (arange (tap_total (taps bk b))) (arange (m_channel_count b)).

Definition filters_of (b : Block) : list Filter :=
  match m_filter b with
  | Some fl => fl
  | None => []
  end.

(** The scatter-adds of a call of [put_], sample by sample. *)
Definition put_lane_ops (bk : Backend) (b : Block) (batch : list Sample)
  : list scatter :=
  if general_path bk b
  then lane_ops (tap_op bk b (filters_of b) (taps bk b)) (tap_calls bk b) batch
  else lane_ops (fast_op bk b) (arange (m_channel_count b)) batch.

(** What a call of [put_] adds to the entry [i] of the buffer for the
    sample [s]. *)
Definition put_gain (bk : Backend) (b : Block) (i : nat) (s : Sample) : Q :=
  if general_path bk b
  then sample_gain (tap_op bk b (filters_of b) (taps bk b)) (tap_calls bk b)
                   i s
  else sample_gain (fast_op bk b) (arange (m_channel_count b)) i s.

(** The samples of a batch are treated independently: the fast path, or
    the general path without normalisation. *)
Definition lanewise (bk : Backend) (b : Block) : Prop :=
  general_path bk b = true -> lanewise_general bk b.

Definition cells_eqb (p q : list Z) : bool :=
  if list_eq_dec Z.eq_dec p q then true else false.

(** General path: the cell the tap [idxs] addresses for the sample [s]. *)
Definition tap_cells (bk : Backend) (b : Block) (s : Sample) (idxs : list Z)
  : list Z :=
  map (tap_cell bk b s idxs) (seq 0 (length (m_size b))).

(** The weight with which the sample [s] enters the cell [X] of the
    padded buffer: in the fast path 1 for the cell the sample falls in; in
    the general path the sum of the weights of the enabled taps that
    address the cell. *)
Definition cell_weight (bk : Backend) (b : Block) (X : list Z) (s : Sample)
  : Q :=
  if general_path bk b then
    qsum (map (fun v =>
                 let idxs := tap_digits (taps bk b) v in
                 if tap_enabled bk b s idxs
                    && cells_eqb (tap_cells bk b s idxs) X
                 then lane_weight (tap_eval bk b s) (filters_of b) idxs 0
                                  (1#1)%Q
                 else (0#1)%Q)
              (arange (tap_total (taps bk b))))
  else if fast_enabled b s && cells_eqb (fast_cell b s) X then (1#1)%Q
       else (0#1)%Q.

(** The conditions under which [put_] accumulates weighted values: a
    configured block without normalisation whose tap counts are positive
    and do not exceed the table or the padded extents. *)
Definition accumulating (bk : Backend) (b : Block) : Prop :=
  backend_ok bk /\ geometry_ok b /\ allocated b /\ filters_ok b /\
  offsets_ok b /\ m_normalize b = false /\
  Forall (fun nj => 1 <= nj < 2 ^ 31) (taps bk b) /\
  zsum (taps bk b) <= 2 ^ 32 /\
  (forall j, (j < length (m_size b))%nat ->
             to_int32 (nth j (taps bk b) 0) <= size_at b j).

(** [set_size] on a block whose [m_size] is an array with as many
    entries as [size] ([np.all(self.m_size == size)] then compares entry
    by entry; the comparison of arrays of different lengths depends on the
    NumPy version and is left out: the theorems on [set_size] assume
    equal lengths). *)
Definition set_size (size : list Z) (b : Block) : Block :=
  if list_eq_dec Z.eq_dec (m_size b) size then b
  else mkBlock (repeat 0 (length size)) size (m_channel_count b)
               (m_warn_negative b) (m_warn_invalid b) (m_normalize b)
               (m_filter b) (m_border_size b) (m_original_border_size b)
               (m_border_offset b) (filter_radius b) (m_weights b)
               (m_data b).

(** A 4x4x3 block built with [border=False], a block with three
    channels, and samples for the examples of the further properties. *)
Definition flat_block : Block :=
  block_of (init backend_sat [4; 4; 3] 5 (FilterOne box_filter)
                 false false false false).
Definition three_channel_block : Block :=
  block_of (init backend_sat [2] 3 (FilterOne box_filter)
                 false false true false).
Definition inactive_sample : Sample :=
  mkSample [3#2; 5#2; 3#2]%Q unit_values false.
Definition low_sample : Sample := sample_at [5#4]%Q unit_values.
Definition shrunk_block_after : Block :=
  block_of (put_ backend_sat shrunk_block [edge_sample; low_sample]).

(** * Proofs *)

(** * Configuration *)

Lemma configure_filter_raises bk filter border b e :
  snd (configure_filter bk filter border b) = Some e ->
  e = NameError /\ fst (configure_filter bk filter border b) = b.
Proof.
  unfold configure_filter.
  destruct filter as [|f|l]; simpl.
  - intros H; injection H as <-; auto.
  - rewrite repeat_length, Nat.eqb_refl; simpl. discriminate.
  - destruct (length (m_size b) =? length l)%nat; simpl.
    + discriminate.
    + intros H; injection H as <-; auto.
Qed.

Lemma configure_filter_one_ok bk f border b :
  snd (configure_filter bk (FilterOne f) border b) = None /\
  m_filter (fst (configure_filter bk (FilterOne f) border b))
  = Some (repeat f (length (m_size b))).
Proof.
  unfold configure_filter.
  rewrite repeat_length, Nat.eqb_refl; simpl. auto.
Qed.

Lemma configure_filter_seq bk l border b :
  snd (configure_filter bk (FilterSeq l) border b) = None <->
  length l = length (m_size b).
Proof.
  unfold configure_filter.
  destruct (length (m_size b) =? length l)%nat eqn:E; simpl.
  - apply Nat.eqb_eq in E. split; auto.
  - apply Nat.eqb_neq in E. split; [discriminate | intros; congruence].
Qed.

(** C5, as amended.  [configure_filter] raises an error if and only if
    no filter is supplied, or a list (or tuple) of filters is supplied
    whose length differs from the number of dimensions: a list of length
    1 is not broadcast.  The error is a [NameError], raised before the
    block is touched: the state at the moment of the failure is the state
    before the call.  A single filter that is not a list is repeated for
    every axis. *)
Theorem configure_filter_error_iff bk filter border b :
  (snd (configure_filter bk filter border b) <> None <->
   (filter = FilterNone \/
    exists l, filter = FilterSeq l /\ length l <> length (m_size b)))
  /\ (forall e, snd (configure_filter bk filter border b) = Some e ->
                e = NameError /\
                fst (configure_filter bk filter border b) = b)
  /\ (forall f, filter = FilterOne f ->
                snd (configure_filter bk filter border b) = None /\
                m_filter (fst (configure_filter bk filter border b))
                = Some (repeat f (length (m_size b)))).
Proof.
  split; [|split].
  - destruct filter as [|f|l].
    + simpl. split; [auto | discriminate].
    + destruct (configure_filter_one_ok bk f border b) as [-> _].
      split; [congruence|].
      intros [H|[l [H _]]]; discriminate.
    + pose proof (configure_filter_seq bk l border b) as Hs.
      split.
      * intros H. right. exists l. split; [reflexivity|].
        intros E. apply H, Hs, E.
      * intros [H|[l' [H Hl]]]; [discriminate|].
        injection H as <-. intros E. apply Hl. apply Hs, E.
  - intros e. apply configure_filter_raises.
  - intros f ->. apply configure_filter_one_ok.
Qed.

Lemma configure_filter_ok bk filter border b :
  snd (configure_filter bk filter border b) = None ->
  exists fl,
    length fl = length (m_size b) /\
    fst (configure_filter bk filter border b) = configured bk fl border b.
Proof.
  unfold configure_filter.
  destruct filter as [|f|l]; simpl.
  - discriminate.
  - rewrite repeat_length, Nat.eqb_refl; simpl. intros _.
    exists (repeat f (length (m_size b))).
    split; [apply repeat_length | reflexivity].
  - destruct (length (m_size b) =? length l)%nat eqn:E; simpl.
    + intros _. apply Nat.eqb_eq in E. exists l. split; [auto | reflexivity].
    + discriminate.
Qed.

Lemma map2_length {A B C} (f : A -> B -> C) l1 l2 :
  length l1 = length l2 -> length (map2 f l1 l2) = length l1.
Proof.
  revert l2; induction l1 as [|a l1 IH]; intros [|c l2]; simpl; intros H;
    try discriminate; auto.
Qed.

Lemma nth_map2 {A B C} (f : A -> B -> C) l1 l2 j da db dc :
  length l1 = length l2 -> (j < length l1)%nat ->
  nth j (map2 f l1 l2) dc = f (nth j l1 da) (nth j l2 db).
Proof.
  revert l2 j; induction l1 as [|a l1 IH]; intros [|c l2] j; simpl;
    intros H Hj; try discriminate; try lia.
  destruct j; auto. apply IH; lia.
Qed.

Lemma any_ne_lists (l1 l2 : list Z) :
  length l1 = length l2 -> l1 <> l2 ->
  existsb (fun z => negb (z =? 0))
          (map2 (fun x y => if x =? y then 0 else 1) l1 l2) = true.
Proof.
  revert l2; induction l1 as [|a l1 IH]; intros [|c l2]; simpl; intros H N;
    try discriminate; try congruence.
  destruct (Z.eqb_spec a c) as [->|Hac]; simpl; auto.
  apply IH; [lia | congruence].
Qed.

Lemma wrap32_small x : 0 <= x < 2 ^ 32 -> wrap32 x = x.
Proof. intros H. unfold wrap32. apply Z.mod_small. exact H. Qed.

Lemma shrink_offsets (fl : list Filter) (obs : list Z) :
  Forall2 (fun f o => 0 <= f_border_size f <= o /\ o < 2 ^ 32) fl obs ->
  map wrap32 (map2 Z.sub obs (map f_border_size fl))
  = map2 Z.sub obs (map f_border_size fl).
Proof.
  induction 1 as [|f o fl obs [H1 H2] _ IH]; simpl; auto.
  rewrite IH, wrap32_small by lia. reflexivity.
Qed.


Lemma padded_ext b b' :
  m_size b' = m_size b ->
  m_original_border_size b' = m_original_border_size b ->
  padded b' = padded b.
Proof. intros H1 H2. unfold padded. rewrite H1, H2. reflexivity. Qed.



(** * The result monad *)

Lemma mapM_Forall2 {A B} (f : A -> result B) l ys :
  mapM f l = Ok ys -> Forall2 (fun a y => f a = Ok y) l ys.
Proof.
  revert ys; induction l as [|a l IH]; simpl; intros ys H.
  - injection H as <-. constructor.
  - destruct (f a) as [y|e] eqn:Ef; simpl in H; [|discriminate].
    destruct (mapM f l) as [ys'|e] eqn:Em; simpl in H; [|discriminate].
    injection H as <-. constructor; auto.
Qed.

Lemma mapM_total {A B} (f : A -> result B) l :
  (forall a, In a l -> exists y, f a = Ok y) ->
  exists ys, mapM f l = Ok ys.
Proof.
  induction l as [|a l IH]; simpl; intros H.
  - eexists; reflexivity.
  - destruct (H a (or_introl eq_refl)) as [y ->].
    destruct IH as [ys ->]; [intros; apply H; auto|].
    simpl. eexists; reflexivity.
Qed.

Lemma mapM_length {A B} (f : A -> result B) l ys :
  mapM f l = Ok ys -> length ys = length l.
Proof.
  intros H. symmetry. eapply Forall2_length, mapM_Forall2, H.
Qed.

Lemma Forall2_nth_error {A B} (P : A -> B -> Prop) l1 l2 i a :
  Forall2 P l1 l2 -> nth_error l1 i = Some a ->
  exists y, nth_error l2 i = Some y /\ P a y.
Proof.
  intros H; revert i; induction H as [|x y l1 l2 Hxy _ IH]; intros [|i];
    simpl; try discriminate.
  - intros E; injection E as <-. eauto.
  - apply IH.
Qed.

Lemma mapM_nth_error {A B} (f : A -> result B) l ys i a :
  mapM f l = Ok ys -> nth_error l i = Some a ->
  exists y, nth_error ys i = Some y /\ f a = Ok y.
Proof.
  intros H. apply Forall2_nth_error with (P := fun a y => f a = Ok y).
  apply mapM_Forall2, H.
Qed.

Lemma gather_ok {A} (l : list A) i :
  0 <= i < Z.of_nat (length l) -> exists a, gather l i = Ok a.
Proof.
  intros Hi. unfold gather.
  destruct (Z.ltb_spec i 0); [lia|].
  destruct (nth_error l (Z.to_nat i)) eqn:E; [eauto|].
  apply nth_error_None in E. lia.
Qed.

Lemma gather_nth_error {A} (l : list A) i a :
  gather l i = Ok a -> 0 <= i /\ nth_error l (Z.to_nat i) = Some a.
Proof.
  unfold gather. destruct (Z.ltb_spec i 0); [discriminate|].
  destruct (nth_error l (Z.to_nat i)); [|discriminate].
  intros E; injection E as <-. auto.
Qed.

(** * Shapes, multi-indices and their enumeration *)

Lemma arange_length n : length (arange n) = Z.to_nat n.
Proof. unfold arange. rewrite length_map, length_seq. reflexivity. Qed.

Lemma arange_nth_error n i :
  (i < Z.to_nat n)%nat -> nth_error (arange n) i = Some (Z.of_nat i).
Proof.
  intros H. unfold arange. rewrite nth_error_map, nth_error_seq.
  destruct (Nat.ltb_spec i (Z.to_nat n)); [reflexivity | lia].
Qed.

Lemma In_arange n i : In i (arange n) <-> 0 <= i < n.
Proof.
  unfold arange. rewrite in_map_iff. split.
  - intros [k [<- Hk]]. apply in_seq in Hk. lia.
  - intros H. exists (Z.to_nat i). split; [lia|]. apply in_seq. lia.
Qed.

Lemma zprod_nonneg l : Forall (fun d => 0 <= d) l -> 0 <= zprod l.
Proof. induction 1; simpl; [lia | apply Z.mul_nonneg_nonneg; auto]. Qed.

Lemma zprod_pos l : Forall (fun d => 0 < d) l -> 0 < zprod l.
Proof. induction 1; simpl; [lia | apply Z.mul_pos_pos; auto]. Qed.

Lemma zprod_app l1 l2 : zprod (l1 ++ l2) = zprod l1 * zprod l2.
Proof.
  induction l1 as [|a l1 IH]; simpl.
  - destruct (zprod l2); reflexivity.
  - rewrite IH. ring.
Qed.

Lemma flat_index_from_acc shp idx acc :
  length shp = length idx ->
  flat_index_from acc shp idx = acc * zprod shp + flat_index shp idx.
Proof.
  unfold flat_index.
  revert idx acc; induction shp as [|d shp IH]; intros [|i idx] acc; simpl;
    intros H; try discriminate; try lia.
  rewrite (IH idx (acc * d + i)), (IH idx i) by lia. ring.
Qed.

Lemma flat_index_cons d shp i idx :
  length shp = length idx ->
  flat_index (d :: shp) (i :: idx) = i * zprod shp + flat_index shp idx.
Proof.
  intros H. unfold flat_index at 1. simpl.
  apply flat_index_from_acc, H.
Qed.

Lemma in_shape_length shp idx : in_shape shp idx -> length shp = length idx.
Proof. apply Forall2_length. Qed.

Lemma flat_index_bounds shp idx :
  in_shape shp idx -> 0 <= flat_index shp idx < zprod shp.
Proof.
  induction 1 as [|d i shp idx Hi Hs IH].
  - unfold flat_index; simpl; lia.
  - rewrite flat_index_cons by (eapply Forall2_length; eauto).
    simpl. nia.
Qed.

Lemma flat_index_snoc shp idx t c :
  length shp = length idx ->
  flat_index (shp ++ [t]) (idx ++ [c]) = flat_index shp idx * t + c.
Proof.
  revert idx; induction shp as [|d shp IH]; intros [|i idx] H;
    simpl in H; try discriminate.
  - reflexivity.
  - simpl app. rewrite !flat_index_cons, IH, zprod_app by
      (rewrite ?length_app; simpl; lia).
    simpl. ring.
Qed.

Lemma in_shape_app shp1 idx1 shp2 idx2 :
  in_shape shp1 idx1 -> in_shape shp2 idx2 ->
  in_shape (shp1 ++ shp2) (idx1 ++ idx2).
Proof. apply Forall2_app. Qed.

Lemma enumerate_length shp :
  Forall (fun d => 0 <= d) shp ->
  length (enumerate shp) = Z.to_nat (zprod shp).
Proof.
  induction 1 as [|d shp Hd Hs IH]; simpl; auto.
  pose proof (zprod_nonneg shp Hs) as Hp.
  rewrite Z2Nat.inj_mul by lia.
  unfold arange.
  generalize (Z.to_nat d) as n. intros n.
  generalize 0%nat as s.
  induction n as [|n IHn]; intros s; simpl; auto.
  rewrite length_app, length_map, IHn, IH. reflexivity.
Qed.

Lemma enumerate_in_shape shp idx :
  In idx (enumerate shp) -> in_shape shp idx.
Proof.
  revert idx; induction shp as [|d shp IH]; simpl; intros idx H.
  - destruct H as [<-|[]]. constructor.
  - apply in_flat_map in H. destruct H as [i [Hi H]].
    apply in_map_iff in H. destruct H as [idx' [<- H]].
    apply In_arange in Hi. constructor; [exact Hi | apply IH, H].
Qed.

Lemma nth_error_flat_map_uniform {A B} (f : A -> list B) (l : list A)
      (L i r : nat) a :
  (forall x, In x l -> length (f x) = L) ->
  nth_error l i = Some a -> (r < L)%nat ->
  nth_error (flat_map f l) (i * L + r) = nth_error (f a) r.
Proof.
  revert i; induction l as [|x l IH]; intros [|i] HL Hi Hr; simpl in *;
    try discriminate.
  - injection Hi as ->. apply nth_error_app1. rewrite HL; auto.
  - rewrite nth_error_app2 by (rewrite HL; auto; lia).
    rewrite HL by auto.
    replace (L + i * L + r - L)%nat with (i * L + r)%nat by lia.
    apply IH; auto.
Qed.

Lemma enumerate_nth_error shp idx :
  in_shape shp idx ->
  nth_error (enumerate shp) (Z.to_nat (flat_index shp idx)) = Some idx.
Proof.
  induction 1 as [|d i shp idx Hi Hs IH].
  - reflexivity.
  - assert (Hnn : Forall (fun d => 0 <= d) shp).
    { clear -Hs. induction Hs; constructor; auto; lia. }
    pose proof (flat_index_bounds shp idx Hs) as Hb.
    rewrite flat_index_cons by (eapply Forall2_length; eauto).
    simpl enumerate.
    replace (Z.to_nat (i * zprod shp + flat_index shp idx))
      with (Z.to_nat i * Z.to_nat (zprod shp)
            + Z.to_nat (flat_index shp idx))%nat by nia.
    rewrite nth_error_flat_map_uniform with (a := i).
    + rewrite nth_error_map, IH. reflexivity.
    + intros x _. rewrite length_map. apply enumerate_length, Hnn.
    + rewrite arange_nth_error by lia. f_equal. lia.
    + lia.
Qed.

Local Arguments Z.mul : simpl never.
Local Arguments Z.add : simpl never.
Local Arguments Z.sub : simpl never.
Local Arguments Z.pow : simpl never.

(** * Develop *)

Lemma removelast_snoc {A} (l : list A) x : removelast (l ++ [x]) = l.
Proof. apply removelast_last. Qed.

Lemma last_snoc {A} (l : list A) x d : last (l ++ [x]) d = x.
Proof. apply last_last. Qed.

Lemma padded_arr b obs :
  m_original_border_size b = NdArr obs ->
  padded b = map2 (fun d o => d + 2 * o) (m_size b) obs.
Proof. intros H. unfold padded. rewrite H. reflexivity. Qed.

Lemma padded_pos sz obs :
  Forall (fun d => 0 < d) sz -> Forall (fun o => 0 <= o) obs ->
  Forall (fun d => 0 < d) (map2 (fun d o => d + 2 * o) sz obs).
Proof.
  intros Hs; revert obs; induction Hs as [|d sz Hd _ IH]; intros obs Ho.
  - constructor.
  - destruct Ho as [|o obs Ho Hos]; cbn [map2]; constructor; auto. lia.
Qed.

Lemma Forall_pos_nonneg l :
  Forall (fun d => 0 < d) l -> Forall (fun d => 0 <= d) l.
Proof. apply Forall_impl. intros; lia. Qed.

Lemma slice_len_crop d o :
  0 <= d -> 0 <= o -> slice_len (d + 2 * o) (crop_slice o) = d.
Proof.
  intros Hd Ho. unfold crop_slice.
  destruct (Z.eqb_spec o 0) as [->|Hne]; unfold slice_len; [lia|].
  unfold slice_bound.
  destruct (Z.ltb_spec (- o) 0); destruct (Z.ltb_spec o 0); lia.
Qed.

Lemma slice_start_crop d o :
  0 <= d -> 0 <= o -> slice_start (d + 2 * o) (crop_slice o) = o.
Proof.
  intros Hd Ho. unfold crop_slice.
  destruct (Z.eqb_spec o 0) as [->|Hne]; unfold slice_start; [lia|].
  unfold slice_bound. destruct (Z.ltb_spec o 0); lia.
Qed.

Lemma slice_shape_crop sz obs rest :
  Forall (fun d => 0 <= d) sz -> Forall (fun o => 0 <= o) obs ->
  length obs = length sz ->
  slice_shape (map2 (fun d o => d + 2 * o) sz obs ++ rest)
              (map crop_slice obs) = sz ++ rest.
Proof.
  intros Hs; revert obs; induction Hs as [|d sz Hd _ IH]; intros obs Ho Hl.
  - destruct obs; [|discriminate]. simpl. destruct rest; reflexivity.
  - destruct Ho as [|o obs Ho Hos]; [discriminate|].
    cbn [map2 app map slice_shape].
    rewrite slice_len_crop, IH by (auto; simpl in Hl; lia).
    reflexivity.
Qed.

Lemma slice_starts_crop sz obs rest :
  Forall (fun d => 0 <= d) sz -> Forall (fun o => 0 <= o) obs ->
  length obs = length sz ->
  slice_starts (map2 (fun d o => d + 2 * o) sz obs ++ rest)
               (map crop_slice obs) = obs ++ map (fun _ => 0) rest.
Proof.
  intros Hs; revert obs; induction Hs as [|d sz Hd _ IH]; intros obs Ho Hl.
  - destruct obs; [|discriminate]. simpl. destruct rest; reflexivity.
  - destruct Ho as [|o obs Ho Hos]; [discriminate|].
    cbn [map2 app map slice_starts].
    rewrite slice_start_crop, IH by (auto; simpl in Hl; lia).
    reflexivity.
Qed.

Lemma map2_app {A B C} (f : A -> B -> C) l1 l2 r1 r2 :
  length l1 = length l2 ->
  map2 f (l1 ++ r1) (l2 ++ r2) = map2 f l1 l2 ++ map2 f r1 r2.
Proof.
  revert l2; induction l1 as [|a l1 IH]; intros [|c l2] H; simpl in *;
    try discriminate; auto.
  rewrite IH by lia. reflexivity.
Qed.

Lemma in_shape_shift sz obs x :
  in_shape sz x -> Forall (fun o => 0 <= o) obs -> length obs = length sz ->
  in_shape (map2 (fun d o => d + 2 * o) sz obs) (map2 Z.add x obs).
Proof.
  intros Hx; revert obs; induction Hx as [|d i sz x Hi _ IH]; intros obs Ho Hl.
  - constructor.
  - destruct Ho as [|o obs Ho Hos]; [discriminate|].
    cbn [map2]. constructor; [lia|]. apply IH; auto.
Qed.

(** The entries computed by [develop] before the crop. *)
Lemma develop_values_total bk arr shp ch gamma :
  Forall (fun d => 0 < d) shp ->
  5 <= ch ->
  Z.of_nat (length arr) = ch * zprod shp ->
  ch * zprod shp < 2 ^ 32 ->
  exists vals,
    develop_values bk (mkTensor (shp ++ [ch]) arr) gamma = Ok vals /\
    Z.of_nat (length vals) = zprod shp * (ch - 2).
Proof.
  intros Hs Hch Hlen Hsmall.
  pose proof (zprod_pos shp Hs) as HP.
  unfold develop_values. simpl shape. simpl array.
  rewrite removelast_snoc, last_snoc.
  destruct (mapM_total
    (fun i : Z =>
       weight <- gather arr
                   (wrap32 (wrap32 (i / (ch - 2) * ch) + 4)) ;;
       value <- gather arr
                  (wrap32 (wrap32 (i / (ch - 2) * ch) + i mod (ch - 2))) ;;
       Ok (if gamma
           then linear_to_srgb bk (xmask (xdiv value weight) (Qltb 0 weight))
           else xmask (xdiv value weight) (Qltb 0 weight)))
    (arange (zprod shp * (ch - 2)))) as [vals Hv].
  - intros i Hi. apply In_arange in Hi.
    assert (Hc : 0 <= i / (ch - 2) < zprod shp).
    { split; [apply Z.div_pos; lia|].
      apply Z.div_lt_upper_bound; lia. }
    pose proof (Z.mod_pos_bound i (ch - 2) ltac:(lia)) as Hr.
    rewrite (wrap32_small (i / (ch - 2) * ch)) by nia.
    rewrite !wrap32_small by nia.
    destruct (gather_ok arr (i / (ch - 2) * ch + 4)) as [w ->]; [nia|].
    destruct (gather_ok arr (i / (ch - 2) * ch + i mod (ch - 2)))
      as [v ->]; [nia|].
    simpl. eauto.
  - exists vals. split; [exact Hv|].
    rewrite (mapM_length _ _ _ Hv), arange_length. nia.
Qed.

Lemma tensor_getitem_crop {A} (vals : list A) sz obs t :
  Forall (fun d => 0 < d) sz -> Forall (fun o => 0 <= o) obs ->
  length obs = length sz -> 0 < t ->
  Z.of_nat (length vals)
  = zprod (map2 (fun d o => d + 2 * o) sz obs) * t ->
  exists out,
    tensor_getitem (mkTensor (map2 (fun d o => d + 2 * o) sz obs ++ [t]) vals)
                   (map crop_slice obs)
    = Ok (mkTensor (sz ++ [t]) out) /\
    Z.of_nat (length out) = zprod (sz ++ [t]) /\
    forall x c, in_shape sz x -> 0 <= c < t ->
      nth_error out (Z.to_nat (flat_index (sz ++ [t]) (x ++ [c])))
      = nth_error vals
          (Z.to_nat
             (flat_index (map2 (fun d o => d + 2 * o) sz obs)
                         (map2 Z.add x obs) * t + c)).
Proof.
  intros Hs Ho Hl Ht Hlen.
  pose proof (Forall_pos_nonneg _ Hs) as Hs0.
  unfold tensor_getitem. simpl shape. simpl array.
  rewrite length_app, length_map, map2_length by lia. simpl length.
  destruct (Nat.ltb_spec (length sz + 1) (length obs)); [lia|].
  rewrite slice_shape_crop, slice_starts_crop by auto. simpl map.
  set (big := map2 (fun d o => d + 2 * o) sz obs) in *.
  assert (Hin : forall idx, in_shape (sz ++ [t]) idx ->
            exists x c, idx = x ++ [c] /\ in_shape sz x /\ 0 <= c < t).
  { intros idx Hidx. apply Forall2_app_inv_l in Hidx.
    destruct Hidx as [x [cl [Hx [Hc ->]]]].
    inversion Hc as [|? c ? ? Hc1 Hc2]; subst. inversion Hc2; subst.
    exists x, c. auto. }
  assert (Hflat : forall x c, in_shape sz x -> 0 <= c < t ->
            flat_index (big ++ [t]) (map2 Z.add (x ++ [c]) (obs ++ [0]))
            = flat_index big (map2 Z.add x obs) * t + c
            /\ 0 <= flat_index big (map2 Z.add x obs) < zprod big).
  { intros x c Hx Hc.
    pose proof (in_shape_length _ _ Hx) as Hxl.
    rewrite map2_app by lia. simpl map2.
    pose proof (in_shape_shift sz obs x Hx Ho Hl) as Hsh. fold big in Hsh.
    rewrite flat_index_snoc by (apply in_shape_length, Hsh).
    split; [f_equal; lia | apply flat_index_bounds, Hsh]. }
  destruct (mapM_total
    (fun idx : list Z =>
       gather vals (flat_index (big ++ [t]) (map2 Z.add idx (obs ++ [0]))))
    (enumerate (sz ++ [t]))) as [out Hout].
  - intros idx Hidx. apply enumerate_in_shape in Hidx.
    destruct (Hin idx Hidx) as [x [c [-> [Hx Hc]]]].
    destruct (Hflat x c Hx Hc) as [-> Hb].
    apply gather_ok. nia.
  - rewrite Hout. simpl. exists out. split; [reflexivity|]. split.
    + rewrite (mapM_length _ _ _ Hout), enumerate_length.
      * rewrite Z2Nat.id; [reflexivity|]. apply zprod_nonneg.
        apply Forall_app; split; auto. constructor; [lia|constructor].
      * apply Forall_app; split; auto. constructor; [lia|constructor].
    + intros x c Hx Hc.
      assert (Hidx : in_shape (sz ++ [t]) (x ++ [c])).
      { apply in_shape_app; auto. constructor; auto. }
      destruct (mapM_nth_error _ _ _ _ _ Hout
                  (enumerate_nth_error _ _ Hidx)) as [y [Hy Hg]].
      rewrite Hy.
      destruct (Hflat x c Hx Hc) as [Hf Hb]. rewrite Hf in Hg.
      apply gather_nth_error in Hg. symmetry. apply Hg.
Qed.

Lemma geometry_padded b :
  geometry_ok b ->
  exists obs,
    m_original_border_size b = NdArr obs /\
    length obs = length (m_size b) /\
    Forall (fun o => 0 <= o) obs /\
    padded b = map2 (fun d o => d + 2 * o) (m_size b) obs /\
    Forall (fun d => 0 < d) (padded b).
Proof.
  intros [Hs [[obs [Ho [Hl Hobs]]] _]].
  exists obs. rewrite (padded_arr b obs Ho).
  repeat split; auto. apply padded_pos; auto.
Qed.


Lemma Qltb_zero w : (w == 0)%Q -> Qltb 0 w = false.
Proof.
  intros H. unfold Qltb.
  assert (E : Qle_bool w 0 = true).
  { apply Qle_bool_iff. rewrite H. apply Qle_refl. }
  rewrite E. reflexivity.
Qed.

(** C2, as amended.  In the tensor that [develop] with [raw=False]
    returns, every output channel of a cell of the logical window whose
    channel 4 in the buffer (the weight channel of the five-channel
    layout of [put]: the last channel when [channel_count] is 5) equals
    0 is exactly 0, not the NaN or infinity of the raw division; with
    [gamma] set this assumes that the transfer curve maps 0 to 0. *)
Theorem develop_zero_weight bk b gamma integer t obs x c w :
  geometry_ok b -> allocated b ->
  m_original_border_size b = NdArr obs ->
  (gamma = true -> linear_to_srgb bk (XNum 0) = XNum 0) ->
  develop bk gamma integer false b = Ok t ->
  in_shape (m_size b) x -> 0 <= c < m_channel_count b - 2 ->
  tensor_get (m_data b) (map2 Z.add x obs ++ [4]) = Some w ->
  (w == 0)%Q ->
  tensor_get t (x ++ [c]) = Some (XNum 0).
Proof.
  intros Hg [Hshape Hlen] Ho Hgam Hdev Hx Hc Hw Hw0.
  destruct (geometry_padded b Hg) as [obs' [Ho' [Hl [Hobs [Hp Hpos]]]]].
  rewrite Ho in Ho'. injection Ho' as <-.
  destruct Hg as [Hs [_ Hsmall]].
  unfold develop in Hdev. rewrite Ho in Hdev.
  unfold tensor_get in Hw.
  destruct (m_data b) as [shp arr]. simpl in Hshape, Hlen, Hw, Hdev.
  subst shp.
  destruct (develop_values bk (mkTensor (padded b ++ [m_channel_count b]) arr)
                           gamma) as [vals|e] eqn:Hv; [|discriminate].
  cbn [bind] in Hdev. rewrite removelast_snoc, last_snoc in Hdev.
  unfold develop_values in Hv. simpl shape in Hv. simpl array in Hv.
  rewrite removelast_snoc, last_snoc in Hv.
  set (ch := m_channel_count b) in *. set (tc := ch - 2) in *.
  pose proof (zprod_pos _ Hpos) as HP.
  assert (Hvl : Z.of_nat (length vals) = zprod (padded b) * tc).
  { rewrite (mapM_length _ _ _ Hv), arange_length. nia. }
  rewrite Hp in *.
  set (big := map2 (fun d o => d + 2 * o) (m_size b) obs) in *.
  destruct (tensor_getitem_crop vals (m_size b) obs tc)
    as [out [Hout [_ Hnth]]]; auto; try lia.
  fold big in Hout, Hnth.
  rewrite Hout in Hdev. injection Hdev as <-.
  unfold tensor_get. simpl shape. simpl array.
  rewrite (Hnth x c Hx Hc).
  pose proof (in_shape_shift _ obs x Hx Hobs Hl) as Hsh. fold big in Hsh.
  pose proof (flat_index_bounds _ _ Hsh) as Hcell.
  set (cell := flat_index big (map2 Z.add x obs)) in *.
  rewrite flat_index_snoc in Hw by (apply in_shape_length, Hsh).
  fold cell in Hw.
  assert (Hwlt : cell * ch + 4 < ch * zprod big).
  { assert (Hsome : nth_error arr (Z.to_nat (cell * ch + 4)) <> None)
      by congruence.
    apply nth_error_Some in Hsome. nia. }
  destruct (mapM_nth_error _ _ _ (Z.to_nat (cell * tc + c)) (cell * tc + c)
              Hv) as [y [Hy Hbody]].
  { rewrite arange_nth_error by nia. f_equal. nia. }
  rewrite Hy. f_equal.
  assert (Hdiv : (cell * tc + c) / tc = cell).
  { rewrite Z.add_comm, Z.div_add by lia. rewrite Z.div_small by lia. lia. }
  assert (Hmod : (cell * tc + c) mod tc = c).
  { rewrite Z.add_comm, Z.mod_add by lia. apply Z.mod_small; lia. }
  rewrite Hdiv, Hmod in Hbody.
  rewrite (wrap32_small (cell * ch)) in Hbody by nia.
  rewrite (wrap32_small (cell * ch + 4)) in Hbody by nia.
  unfold gather at 1 in Hbody.
  destruct (Z.ltb_spec (cell * ch + 4) 0); [nia|].
  rewrite Hw in Hbody. cbn [bind] in Hbody.
  destruct (gather arr (wrap32 (cell * ch + c))) as [v|e]; [|discriminate].
  cbn [bind] in Hbody. rewrite (Qltb_zero w Hw0) in Hbody.
  unfold xmask in Hbody.
  destruct gamma; injection Hbody as <-; auto.
Qed.

(** * Geometry of the padded buffer *)

Lemma zprod_firstn_skipn l k :
  zprod l = zprod (firstn k l) * zprod (skipn k l).
Proof. rewrite <- zprod_app, firstn_skipn. reflexivity. Qed.

Lemma Forall_firstn {A} (P : A -> Prop) l k :
  Forall P l -> Forall P (firstn k l).
Proof.
  intros H; revert k; induction H; intros [|k]; simpl; constructor; auto.
Qed.

Lemma Forall_skipn {A} (P : A -> Prop) l k :
  Forall P l -> Forall P (skipn k l).
Proof.
  intros H; revert k; induction H; intros [|k]; simpl; auto.
Qed.

Lemma zprod_skipn_le l k :
  Forall (fun d => 0 < d) l -> 0 < zprod (skipn k l) <= zprod l.
Proof.
  intros H.
  pose proof (zprod_pos _ (Forall_firstn _ l k H)).
  pose proof (zprod_pos _ (Forall_skipn _ l k H)).
  rewrite (zprod_firstn_skipn l k). nia.
Qed.

Lemma skipn_nth_cons {A} (l : list A) k d :
  (k < length l)%nat -> skipn k l = nth k l d :: skipn (S k) l.
Proof.
  revert k; induction l as [|a l IH]; intros [|k] H; simpl in *; try lia.
  - reflexivity.
  - apply IH. lia.
Qed.

Lemma zprod_entry_le l j :
  Forall (fun d => 0 < d) l -> (j < length l)%nat ->
  0 < nth j l 0 <= zprod l.
Proof.
  intros H Hj.
  pose proof (zprod_skipn_le l j H) as H1.
  pose proof (zprod_skipn_le l (S j) H) as H2.
  rewrite (skipn_nth_cons l j 0 Hj) in H1.
  assert (0 < nth j l 0).
  { apply (proj1 (Forall_forall _ l) H). apply nth_In, Hj. }
  unfold zprod in *. cbn [fold_right] in H1. nia.
Qed.

Section Geometry.

Variable bk : Backend.
Variable b : Block.
Hypothesis Hgeo : geometry_ok b.
Hypothesis Hch : 1 <= m_channel_count b.

Lemma padded_length : length (padded b) = length (m_size b).
Proof.
  destruct (geometry_padded b Hgeo) as [obs [_ [Hl [_ [-> _]]]]].
  apply map2_length. lia.
Qed.

Lemma padded_small : zprod (padded b) < 2 ^ 32.
Proof.
  destruct (geometry_padded b Hgeo) as [obs [_ [_ [_ [_ Hpos]]]]].
  destruct Hgeo as [_ [_ Hs]].
  pose proof (zprod_pos _ Hpos). nia.
Qed.

Lemma size_at_padded j :
  (j < length (m_size b))%nat -> size_at b j = nth j (padded b) 0.
Proof.
  intros Hj.
  destruct (geometry_padded b Hgeo) as [obs [Ho [Hl [Hobs [Hp Hpos]]]]].
  pose proof padded_small as Hsm.
  pose proof (zprod_entry_le (padded b) j Hpos) as He.
  rewrite padded_length in He. specialize (He Hj).
  unfold size_at, dims. rewrite Ho. simpl nd_bcast.
  rewrite Hp in *.
  rewrite (nth_map2 _ _ _ j 0 0 0) in * by lia.
  destruct Hgeo as [Hs _].
  assert (0 < nth j (m_size b) 0).
  { apply (proj1 (Forall_forall _ _) Hs). apply nth_In, Hj. }
  assert (0 <= nth j obs 0).
  { apply (proj1 (Forall_forall _ _) Hobs). apply nth_In. lia. }
  rewrite (wrap32_small (nth j obs 0)) by lia.
  rewrite (wrap32_small (2 * nth j obs 0)) by lia.
  rewrite (wrap32_small (nth j (m_size b) 0)) by lia.
  apply wrap32_small. lia.
Qed.

Lemma size_at_bounds j :
  (j < length (m_size b))%nat -> 0 < size_at b j < 2 ^ 32.
Proof.
  intros Hj. rewrite size_at_padded by auto.
  destruct (geometry_padded b Hgeo) as [obs [_ [_ [_ [_ Hpos]]]]].
  pose proof (zprod_entry_le (padded b) j Hpos) as He.
  rewrite padded_length in He. specialize (He Hj).
  pose proof padded_small. lia.
Qed.

Lemma map_nth_seq_skipn (l : list Z) k :
  (k <= length l)%nat ->
  map (fun i => nth i l 0) (seq k (length l - k)) = skipn k l.
Proof.
  revert k; induction l as [|a l IH]; intros k Hk.
  - simpl. destruct k; reflexivity.
  - destruct k as [|k].
    + simpl length. rewrite Nat.sub_0_r. simpl. f_equal.
      rewrite <- seq_shift, map_map. simpl.
      specialize (IH 0%nat ltac:(lia)). rewrite Nat.sub_0_r in IH.
      simpl in IH. exact IH.
    + simpl length. simpl skipn.
      replace (S (length l) - S k)%nat with (length l - k)%nat by lia.
      rewrite <- seq_shift, map_map. simpl. apply IH. simpl in Hk. lia.
Qed.

Lemma map_nth_seq_all (l : list Z) :
  map (fun i => nth i l 0) (seq 0 (length l)) = l.
Proof.
  pose proof (map_nth_seq_skipn l 0 ltac:(lia)) as H.
  rewrite Nat.sub_0_r in H. exact H.
Qed.

Lemma stride_fold (l : list nat) acc :
  0 < acc ->
  Forall (fun i => (i < length (m_size b))%nat) l ->
  acc * zprod (map (fun i => nth i (padded b) 0) l) < 2 ^ 32 ->
  fold_left (fun a i => wrap32 (a * size_at b i)) l acc
  = acc * zprod (map (fun i => nth i (padded b) 0) l).
Proof.
  revert acc; induction l as [|i l IH]; intros acc Hacc Hl Hsm; simpl.
  - simpl in Hsm. lia.
  - inversion Hl as [|? ? Hi Hl']; subst.
    pose proof (size_at_bounds i Hi) as Hb.
    rewrite size_at_padded in * by auto.
    cbn [map zprod fold_right] in Hsm.
    fold (zprod (map (fun i => nth i (padded b) 0) l)) in Hsm.
    cbn [map zprod fold_right].
    fold (zprod (map (fun i => nth i (padded b) 0) l)).
    assert (Hz : 0 < zprod (map (fun i => nth i (padded b) 0) l)).
    { apply zprod_pos. apply Forall_map.
      eapply Forall_impl; [|exact Hl']. intros a Ha. simpl.
      rewrite <- size_at_padded by auto. apply size_at_bounds, Ha. }
    rewrite wrap32_small by nia.
    rewrite IH; auto; nia.
Qed.

Lemma stride_at_padded j :
  (j < length (m_size b))%nat ->
  stride_at b j = zprod (skipn (S j) (padded b)).
Proof.
  intros Hj.
  destruct (geometry_padded b Hgeo) as [obs [_ [_ [_ [_ Hpos]]]]].
  pose proof (zprod_skipn_le (padded b) (S j) Hpos) as Hle.
  pose proof padded_small as Hsm.
  unfold stride_at, dims.
  rewrite stride_fold.
  - rewrite <- padded_length, map_nth_seq_skipn by (rewrite padded_length; lia).
    lia.
  - lia.
  - apply Forall_forall. intros i Hi. apply in_seq in Hi. lia.
  - rewrite <- padded_length, map_nth_seq_skipn by (rewrite padded_length; lia).
    lia.
Qed.

(** The flat offset of an in-bounds cell is computed without wrap-around. *)
Lemma offset_fold (c : nat -> Z) k m :
  (k + m = length (m_size b))%nat ->
  (forall j, (k <= j < length (m_size b))%nat ->
             0 <= c j < nth j (padded b) 0) ->
  fold_left (fun acc j => wrap32 (acc + wrap32 (c j * stride_at b j)))
            (rev (seq k m)) 0
  = flat_index (skipn k (padded b)) (map c (seq k m)).
Proof.
  destruct (geometry_padded b Hgeo) as [obs [_ [_ [_ [_ Hpos]]]]].
  pose proof padded_small as Hsm.
  revert k; induction m as [|m IH]; intros k Hk Hc.
  - simpl. rewrite skipn_all2 by (rewrite padded_length; lia). reflexivity.
  - simpl seq. simpl rev. rewrite fold_left_app. simpl fold_left.
    rewrite IH by (try lia; intros; apply Hc; lia).
    rewrite (skipn_nth_cons (padded b) k 0) by (rewrite padded_length; lia).
    simpl map.
    assert (Hin : in_shape (skipn (S k) (padded b)) (map c (seq (S k) m))).
    { unfold in_shape.
      rewrite <- (map_nth_seq_skipn (padded b) (S k))
        by (rewrite padded_length; lia).
      rewrite padded_length.
      replace (length (m_size b) - S k)%nat with m by lia.
      clear -Hc Hk. 
      assert (Hr : forall j, In j (seq (S k) m) ->
                 (k <= j < length (m_size b))%nat).
      { intros j Hj. apply in_seq in Hj. lia. }
      induction (seq (S k) m) as [|a l IHl]; simpl; constructor.
      - apply Hc, Hr. left; reflexivity.
      - apply IHl. intros j Hj. apply Hr. right; exact Hj. }
    pose proof (flat_index_bounds _ _ Hin) as Hb.
    rewrite flat_index_cons by (apply in_shape_length, Hin).
    rewrite stride_at_padded by lia.
    specialize (Hc k ltac:(lia)).
    pose proof (zprod_skipn_le (padded b) k Hpos) as Hle.
    rewrite (skipn_nth_cons (padded b) k 0) in Hle
      by (rewrite padded_length; lia).
    unfold zprod in *. cbn [fold_right] in *.
    rewrite (wrap32_small (c k * _)) by nia.
    rewrite wrap32_small by nia. lia.
Qed.

Lemma cell_offset (c : nat -> Z) :
  (forall j, (j < length (m_size b))%nat -> 0 <= c j < nth j (padded b) 0) ->
  let cell := map c (seq 0 (length (m_size b))) in
  in_shape (padded b) cell /\
  fold_left (fun acc j => wrap32 (acc + wrap32 (c j * stride_at b j)))
            (rev (seq 0 (length (m_size b)))) 0
  = flat_index (padded b) cell.
Proof.
  intros Hc cell. split.
  - unfold in_shape, cell.
    rewrite <- (map_nth_seq_all (padded b)) at 1.
    rewrite padded_length.
    assert (Hr : forall j, In j (seq 0 (length (m_size b))) ->
               (j < length (m_size b))%nat).
    { intros j Hj. apply in_seq in Hj. lia. }
    induction (seq 0 (length (m_size b))) as [|a l IHl]; simpl; constructor.
    + apply Hc, Hr. left; reflexivity.
    + apply IHl. intros j Hj. apply Hr. right; exact Hj.
  - rewrite offset_fold by (try lia; intros; apply Hc; lia).
    reflexivity.
Qed.

(** A channel of an in-bounds cell lies inside the buffer, and its flat
    index is computed without wrap-around. *)
Lemma channel_index cell k :
  in_shape (padded b) cell -> 0 <= k < m_channel_count b ->
  let off := flat_index (padded b) cell in
  wrap32 (wrap32 (off * wrap32 (m_channel_count b)) + wrap32 k)
  = off * m_channel_count b + k /\
  0 <= off * m_channel_count b + k < m_channel_count b * zprod (padded b).
Proof.
  intros Hin Hk off.
  pose proof (flat_index_bounds _ _ Hin) as Hb. fold off in Hb.
  destruct Hgeo as [_ [_ Hs]].
  assert (H2 : 0 <= off * m_channel_count b + k
               < m_channel_count b * zprod (padded b)) by nia.
  split; [|exact H2].
  rewrite (wrap32_small (m_channel_count b)) by nia.
  rewrite (wrap32_small k) by nia.
  rewrite (wrap32_small (off * _)) by nia.
  apply wrap32_small. nia.
Qed.

End Geometry.

(** * Conversions *)

Lemma Qtrunc_inject z : Qtrunc (inject_Z z) = z.
Proof. unfold Qtrunc, inject_Z. simpl. apply Z.quot_1_r. Qed.

Lemma cast_exact_int cast z :
  cast_exact cast -> 0 <= z < 2 ^ 32 -> cast (inject_Z z) = z.
Proof.
  intros H Hz. rewrite H, Qtrunc_inject; auto.
  - rewrite <- Zlt_Qlt. lia.
  - rewrite <- Zlt_Qlt. lia.
Qed.

(** * Scatter-adds *)

Lemma mapM_map {A B} (f : A -> result B) (g : A -> B) l :
  (forall a, In a l -> f a = Ok (g a)) -> mapM f l = Ok (map g l).
Proof.
  induction l as [|a l IH]; simpl; intros H; auto.
  rewrite H by auto. rewrite IH by auto. reflexivity.
Qed.

Lemma map2_map_r {A B C} (f : A -> B -> C) (g : A -> B) l :
  map2 f l (map g l) = map (fun a => f a (g a)) l.
Proof. induction l; simpl; congruence. Qed.

Lemma list_get_nth (l : list Q) k :
  0 <= k < Z.of_nat (length l) -> list_get l k = Ok (nth (Z.to_nat k) l (0#1)%Q).
Proof.
  intros H. unfold list_get.
  destruct (nth_error l (Z.to_nat k)) eqn:E.
  - rewrite (nth_error_nth _ _ _ E). reflexivity.
  - apply nth_error_None in E. lia.
Qed.

Lemma list_update_length {A} (l : list A) i x :
  length (list_update l i x) = length l.
Proof.
  revert i; induction l as [|a l IH]; intros [|i]; simpl; auto.
Qed.

Lemma scatter_add_length target sc t :
  scatter_add target sc = Ok t -> length t = length target.
Proof.
  unfold scatter_add. destruct (sc_mask sc).
  - destruct (sc_index sc <? 0); [discriminate|].
    destruct (nth_error target _); [|discriminate].
    intros H; injection H as <-. apply list_update_length.
  - intros H; injection H as <-. reflexivity.
Qed.

Lemma scatter_reduce_add_length ops : forall target t,
  scatter_reduce_add target ops = Ok t -> length t = length target.
Proof.
  induction ops as [|sc ops IH]; simpl; intros target t H.
  - injection H as <-. reflexivity.
  - destruct (scatter_add target sc) as [t1|e] eqn:E; [|discriminate].
    simpl in H. rewrite (IH _ _ H). eapply scatter_add_length; eauto.
Qed.

Lemma scatter_reduce_add_total ops : forall target,
  (forall sc, In sc ops -> sc_mask sc = true ->
              0 <= sc_index sc < Z.of_nat (length target)) ->
  exists t, scatter_reduce_add target ops = Ok t.
Proof.
  induction ops as [|sc ops IH]; simpl; intros target H.
  - eauto.
  - assert (E : exists t1, scatter_add target sc = Ok t1).
    { unfold scatter_add. destruct (sc_mask sc) eqn:Em; [|eauto].
      specialize (H sc (or_introl eq_refl) Em).
      destruct (Z.ltb_spec (sc_index sc) 0); [lia|].
      destruct (nth_error target (Z.to_nat (sc_index sc))) eqn:En; [eauto|].
      apply nth_error_None in En. lia. }
    destruct E as [t1 E]. rewrite E. simpl.
    apply IH. intros sc' Hin Hm.
    rewrite (scatter_add_length _ _ _ E). apply H; auto.
Qed.

(** * Channel sums *)

Lemma channel_sum_update ch k data : forall i base v,
  (i < length data)%nat ->
  (channel_sum_from ch k base
     (list_update data i (nth i data (0#1) + v))
   == channel_sum_from ch k base data
      + (if (base + Z.of_nat i) mod ch =? k then v else (0#1)))%Q.
Proof.
  induction data as [|x data IH]; intros [|i] base v Hi; simpl in Hi;
    try lia.
  - cbn [list_update nth channel_sum_from].
    replace (base + Z.of_nat 0) with base by lia.
    destruct (base mod ch =? k); ring.
  - cbn [list_update nth channel_sum_from].
    rewrite IH by lia.
    replace (base + 1 + Z.of_nat i) with (base + Z.of_nat (S i)) by lia.
    ring.
Qed.

Lemma scatter_add_sum ch k target sc t :
  scatter_add target sc = Ok t ->
  (channel_sum ch k t == channel_sum ch k target + scatter_gain ch k sc)%Q.
Proof.
  unfold scatter_add, scatter_gain.
  destruct (sc_mask sc); simpl.
  - destruct (Z.ltb_spec (sc_index sc) 0); [discriminate|].
    destruct (nth_error target (Z.to_nat (sc_index sc))) as [old|] eqn:E;
      [|discriminate].
    intros Ht; injection Ht as <-.
    assert (Hlt : (Z.to_nat (sc_index sc) < length target)%nat).
    { apply nth_error_Some. congruence. }
    rewrite <- (nth_error_nth _ _ (0#1)%Q E).
    unfold channel_sum. rewrite channel_sum_update by auto.
    rewrite Z.add_0_l, Z2Nat.id by lia. reflexivity.
  - intros Ht; injection Ht as <-. ring.
Qed.

Lemma scatter_reduce_add_sum ch k ops : forall target t,
  scatter_reduce_add target ops = Ok t ->
  (channel_sum ch k t
   == channel_sum ch k target + qsum (map (scatter_gain ch k) ops))%Q.
Proof.
  induction ops as [|sc ops IH]; simpl; intros target t H.
  - injection H as <-. ring.
  - destruct (scatter_add target sc) as [t1|e] eqn:E; [|discriminate].
    simpl in H. rewrite (IH _ _ H), (scatter_add_sum ch k _ _ _ E). ring.
Qed.

Lemma qsum_app l1 l2 : (qsum (l1 ++ l2) == qsum l1 + qsum l2)%Q.
Proof.
  induction l1 as [|x l1 IH]; simpl.
  - ring.
  - rewrite IH. ring.
Qed.

Lemma qsum_zero l : Forall (fun x => x = (0#1)%Q) l -> (qsum l == 0)%Q.
Proof.
  induction 1 as [|x l Hx _ IH]; simpl.
  - reflexivity.
  - rewrite Hx, IH. ring.
Qed.

(** * The fast path *)

Lemma general_path_false bk b :
  Forall (fun r => (r <= (1#2) + RayEpsilon bk)%Q) (filter_radius b) ->
  general_path bk b = false.
Proof.
  unfold general_path. induction 1 as [|r l Hr _ IH]; simpl; auto.
  rewrite IH, orb_false_r. unfold Qltb.
  apply Qle_bool_iff in Hr. rewrite Hr. reflexivity.
Qed.

Lemma fast_enabled_spec b s :
  fast_enabled b s = true <->
  s_active s = true /\
  forall j, (j < length (m_size b))%nat ->
            0 <= fast_lo b s j < size_at b j.
Proof.
  unfold fast_enabled, dims. rewrite andb_true_iff, forallb_forall.
  split; intros [Ha H]; split; auto.
  - intros j Hj. specialize (H j). rewrite in_seq in H.
    specialize (H ltac:(lia)). apply andb_true_iff in H. lia.
  - intros j Hj. apply in_seq in Hj. apply andb_true_iff.
    specialize (H j ltac:(lia)). lia.
Qed.

Section FastPath.

Variable bk : Backend.
Variable b : Block.
Hypothesis Hbk : backend_ok bk.
Hypothesis Hgeo : geometry_ok b.

Lemma fast_index s k :
  (forall j, (j < length (m_size b))%nat ->
             0 <= fast_lo b s j < size_at b j) ->
  0 <= k < m_channel_count b ->
  in_shape (padded b) (fast_cell b s) /\
  wrap32 (fast_offset bk b s + wrap32 k)
  = flat_index (padded b) (fast_cell b s) * m_channel_count b + k /\
  0 <= flat_index (padded b) (fast_cell b s) * m_channel_count b + k
    < m_channel_count b * zprod (padded b).
Proof.
  intros Hin Hk.
  destruct Hbk as [Hex _].
  assert (Hch : 1 <= m_channel_count b) by lia.
  assert (Hc : forall j, (j < length (m_size b))%nat ->
             dr_u32 bk (inject_Z (fast_lo b s j)) = fast_lo b s j).
  { intros j Hj. apply cast_exact_int; auto.
    pose proof (size_at_bounds b Hgeo Hch j Hj). specialize (Hin j Hj). lia. }
  destruct (cell_offset b Hgeo Hch
              (fun j => dr_u32 bk (inject_Z (fast_lo b s j))))
    as [Hshape Hfold].
  { intros j Hj. rewrite Hc by auto.
    rewrite <- size_at_padded by auto. apply Hin, Hj. }
  assert (Hcell : map (fun j => dr_u32 bk (inject_Z (fast_lo b s j)))
                      (seq 0 (length (m_size b))) = fast_cell b s).
  { unfold fast_cell. apply map_ext_in. intros j Hj. apply in_seq in Hj.
    apply Hc. lia. }
  rewrite Hcell in *.
  destruct (channel_index b Hgeo Hch (fast_cell b s) k Hshape Hk) as [Hw Hb].
  split; [exact Hshape|]. split; [|exact Hb].
  unfold fast_offset, dims. rewrite Hfold. exact Hw.
Qed.

Lemma fast_scatters_ops batch :
  (forall s, In s batch ->
             m_channel_count b <= Z.of_nat (length (s_value s))) ->
  fast_scatters bk b batch = Ok (fast_ops bk b batch).
Proof.
  intros Hv. unfold fast_scatters, fast_ops.
  rewrite (mapM_map _
    (fun k => map (fun s =>
                     mkScatter (wrap32 (fast_offset bk b s + wrap32 k))
                               (nth (Z.to_nat k) (s_value s) (0#1)%Q)
                               (fast_enabled b s)) batch)).
  - reflexivity.
  - intros k Hk. apply In_arange in Hk.
    rewrite (mapM_map _ (fun s => nth (Z.to_nat k) (s_value s) (0#1)%Q)).
    + simpl. rewrite map2_map_r. reflexivity.
    + intros s Hs. apply list_get_nth. specialize (Hv s Hs). lia.
Qed.

Lemma fast_ops_in_bounds batch sc :
  In sc (fast_ops bk b batch) -> sc_mask sc = true ->
  0 <= sc_index sc < m_channel_count b * zprod (padded b).
Proof.
  unfold fast_ops. rewrite in_concat.
  intros [l [Hl Hsc]] Hm.
  apply in_map_iff in Hl. destruct Hl as [k [<- Hk]].
  apply In_arange in Hk.
  apply in_map_iff in Hsc. destruct Hsc as [s [<- Hs]].
  simpl in Hm. apply fast_enabled_spec in Hm. destruct Hm as [_ Hin].
  destruct (fast_index s k Hin Hk) as [_ [-> Hb]]. exact Hb.
Qed.

End FastPath.

Lemma qsum_concat_map {A} (F : A -> list Q) (ks : list A) :
  (qsum (concat (map F ks)) == qsum (map (fun k => qsum (F k)) ks))%Q.
Proof.
  induction ks as [|k ks IH]; simpl.
  - reflexivity.
  - rewrite qsum_app, IH. reflexivity.
Qed.

Lemma qsum_indicator (k : Z) (X : Q) n : forall s,
  (qsum (map (fun i => if Z.of_nat i =? k then X else (0#1)%Q) (seq s n))
   == if (Z.of_nat s <=? k) && (k <? Z.of_nat (s + n)) then X else 0)%Q.
Proof.
  induction n as [|n IH]; intros s; simpl.
  - replace (s + 0)%nat with s by lia.
    destruct (Z.leb_spec (Z.of_nat s) k); destruct (Z.ltb_spec k (Z.of_nat s));
      simpl; try reflexivity; lia.
  - rewrite IH.
    destruct (Z.eqb_spec (Z.of_nat s) k);
      destruct (Z.leb_spec (Z.of_nat (S s)) k);
      destruct (Z.ltb_spec k (Z.of_nat (S s + n)));
      destruct (Z.leb_spec (Z.of_nat s) k);
      destruct (Z.ltb_spec k (Z.of_nat (s + S n)));
      simpl; try ring; lia.
Qed.

Lemma qsum_ext {A} (f g : A -> Q) l :
  (forall a, In a l -> (f a == g a)%Q) ->
  (qsum (map f l) == qsum (map g l))%Q.
Proof.
  induction l as [|a l IH]; simpl; intros H.
  - reflexivity.
  - rewrite (H a) by auto. rewrite IH by auto. reflexivity.
Qed.

Section Conservation.

Variable bk : Backend.
Variable b : Block.
Hypothesis Hbk : backend_ok bk.
Hypothesis Hgeo : geometry_ok b.

Lemma fast_ops_gain batch k :
  (forall s, In s batch ->
     forall j, (j < length (m_size b))%nat ->
               0 <= fast_lo b s j < size_at b j) ->
  0 <= k < m_channel_count b ->
  (qsum (map (scatter_gain (m_channel_count b) k) (fast_ops bk b batch))
   == active_sum k batch)%Q.
Proof.
  intros Hin Hk. unfold fast_ops.
  rewrite concat_map, map_map, qsum_concat_map.
  rewrite (qsum_ext _
    (fun k' => if k' =? k then active_sum k batch else (0#1)%Q)).
  - unfold arange. rewrite map_map.
    rewrite (qsum_indicator k (active_sum k batch)).
    assert (E : (Z.of_nat 0 <=? k)
                && (k <? Z.of_nat (0 + Z.to_nat (m_channel_count b))) = true).
    { apply andb_true_iff. split; [apply Z.leb_le | apply Z.ltb_lt]; lia. }
    rewrite E. reflexivity.
  - intros k' Hk'. apply In_arange in Hk'. rewrite map_map.
    unfold active_sum.
    destruct (Z.eqb_spec k' k) as [->|Hne].
    + apply qsum_ext. intros s Hs. unfold scatter_gain. simpl.
      destruct (fast_enabled b s) eqn:Een.
      * pose proof (proj1 (fast_enabled_spec b s) Een) as [Ha _].
        destruct (fast_index bk b Hbk Hgeo s k (Hin s Hs) Hk)
          as [_ [-> _]].
        rewrite Z.add_comm, Z.mod_add by lia.
        rewrite Z.mod_small, Z.eqb_refl, Ha by lia. reflexivity.
      * assert (Ha : s_active s = false).
        { destruct (s_active s) eqn:Ea; auto.
          rewrite (proj2 (fast_enabled_spec b s)) in Een; [discriminate|].
          split; auto. }
        rewrite Ha. reflexivity.
    + apply qsum_zero. apply Forall_map. apply Forall_forall. intros s Hs.
      unfold scatter_gain. simpl.
      destruct (fast_enabled b s) eqn:Een; [|reflexivity].
      pose proof (proj1 (fast_enabled_spec b s) Een) as [Ha _].
      destruct (fast_index bk b Hbk Hgeo s k' (Hin s Hs) Hk')
        as [_ [-> _]].
      rewrite Z.add_comm, Z.mod_add by lia.
      rewrite Z.mod_small by lia.
      destruct (Z.eqb_spec k' k); [contradiction | reflexivity].
Qed.

(** The fast path always completes on an allocated block. *)
Lemma put_fast_total batch :
  allocated b ->
  general_path bk b = false ->
  (forall s, In s batch ->
             m_channel_count b <= Z.of_nat (length (s_value s))) ->
  exists data,
    scatter_reduce_add (array (m_data b)) (fast_ops bk b batch) = Ok data /\
    put_ bk b batch
    = Ok (set_m_weights (set_m_data b (mkTensor (shape (m_data b)) data))
                        (m_weights b)).
Proof.
  intros [_ Hlen] Hfast Hv.
  destruct (scatter_reduce_add_total (fast_ops bk b batch)
              (array (m_data b))) as [data Hd].
  { intros sc Hsc Hm. rewrite Hlen.
    eapply fast_ops_in_bounds; eauto. }
  exists data. split; [exact Hd|].
  unfold put_, put_scatters. rewrite Hfast.
  rewrite (fast_scatters_ops bk b batch Hv). simpl. rewrite Hd.
  reflexivity.
Qed.

End Conservation.

(** C7.  With filters of radius at most [0.5 + RayEpsilon] (box
    filters), for every batch whose samples all land inside the buffer,
    [put_] returns and the sum over all cells of channel [k] grows by
    the sum of [value[k]] over the active samples. *)
Theorem put_conserves_energy bk b batch k :
  backend_ok bk -> geometry_ok b -> allocated b ->
  Forall (fun r => (r <= (1#2) + RayEpsilon bk)%Q) (filter_radius b) ->
  (forall s, In s batch ->
     m_channel_count b <= Z.of_nat (length (s_value s)) /\
     forall j, (j < length (m_size b))%nat ->
               0 <= fast_lo b s j < size_at b j) ->
  0 <= k < m_channel_count b ->
  exists b',
    put_ bk b batch = Ok b' /\
    (channel_sum (m_channel_count b) k (array (m_data b'))
     == channel_sum (m_channel_count b) k (array (m_data b))
        + active_sum k batch)%Q.
Proof.
  intros Hbk Hgeo Hal Hr Hs Hk.
  destruct (put_fast_total bk b Hbk Hgeo batch Hal
              (general_path_false bk b Hr)) as [data [Hd Hput]].
  { intros s Hin. apply Hs, Hin. }
  eexists. split; [exact Hput|].
  simpl. rewrite (scatter_reduce_add_sum _ k _ _ _ Hd).
  rewrite (fast_ops_gain bk b Hbk Hgeo batch k); [reflexivity| |exact Hk].
  intros s Hin. apply Hs, Hin.
Qed.

Lemma scatter_reduce_add_masked ops : forall target,
  Forall (fun sc => sc_mask sc = false) ops ->
  scatter_reduce_add target ops = Ok target.
Proof.
  induction ops as [|sc ops IH]; intros target H; simpl; auto.
  inversion H as [|? ? Hm Hr]; subst.
  unfold scatter_add. rewrite Hm. simpl. apply IH, Hr.
Qed.

Lemma scatter_reduce_add_run vals : forall arr off,
  (off + length vals <= length arr)%nat ->
  scatter_reduce_add arr
    (map (fun i => mkScatter (Z.of_nat (off + i)) (nth i vals (0#1)%Q) true)
         (seq 0 (length vals)))
  = Ok (add_values arr off vals).
Proof.
  induction vals as [|v vals IH]; intros arr off H; simpl in H.
  - reflexivity.
  - cbn [length seq map scatter_reduce_add nth add_values].
    unfold scatter_add. cbn [sc_mask sc_index sc_value].
    destruct (Z.ltb_spec (Z.of_nat (off + 0)) 0); [lia|].
    rewrite Nat2Z.id, Nat.add_0_r.
    destruct (nth_error arr off) as [old|] eqn:E.
    + rewrite (nth_error_nth _ _ (0#1)%Q E). cbn [bind].
      rewrite <- seq_shift, map_map.
      rewrite <- (IH _ (S off)) by (rewrite list_update_length; lia).
      f_equal. apply map_ext. intros i. f_equal. lia.
    + apply nth_error_None in E. lia.
Qed.

Lemma Forall2_nth {A B} (P : A -> B -> Prop) l1 l2 j d1 d2 :
  Forall2 P l1 l2 -> (j < length l1)%nat -> P (nth j l1 d1) (nth j l2 d2).
Proof.
  intros H; revert j; induction H as [|x y l1 l2 Hxy _ IH]; intros [|j] Hj;
    simpl in *; try lia; auto.
  apply IH. lia.
Qed.

Lemma nth_map_seq {A} (f : nat -> A) n j d :
  (j < n)%nat -> nth j (map f (seq 0 n)) d = f j.
Proof.
  intros H. rewrite (nth_indep _ d (f 0%nat)) by (rewrite length_map, length_seq; auto).
  rewrite map_nth, seq_nth by auto. reflexivity.
Qed.

Lemma fast_cell_nth b s j :
  (j < length (m_size b))%nat ->
  nth j (fast_cell b s) 0 = Qceiling (pos_at b s j - (1#2)).
Proof. intros H. unfold fast_cell. rewrite nth_map_seq by auto. reflexivity. Qed.

Lemma fast_enabled_in_shape b s :
  geometry_ok b -> 1 <= m_channel_count b ->
  (fast_enabled b s = true <->
   s_active s = true /\ in_shape (padded b) (fast_cell b s)).
Proof.
  intros Hgeo Hch. rewrite fast_enabled_spec.
  split; intros [Ha H]; split; auto.
  - unfold in_shape, fast_cell.
    rewrite <- (map_nth_seq_all (padded b)) at 1.
    rewrite (padded_length b Hgeo).
    assert (Hr : forall j, In j (seq 0 (length (m_size b))) ->
               (j < length (m_size b))%nat).
    { intros j Hj. apply in_seq in Hj. lia. }
    induction (seq 0 (length (m_size b))) as [|a l IHl]; simpl; constructor.
    + rewrite <- size_at_padded by (auto; apply Hr; left; reflexivity).
      apply H, Hr. left; reflexivity.
    + apply IHl. intros j Hj. apply Hr. right; exact Hj.
  - intros j Hj. rewrite size_at_padded by auto.
    rewrite <- (nth_map_seq (fast_lo b s) (length (m_size b)) j 0) by auto.
    apply (Forall2_nth (fun d i => 0 <= i < d) (padded b) (fast_cell b s)
                       j 0 0 H).
    rewrite (padded_length b Hgeo). exact Hj.
Qed.

Lemma put_values_fields bk p :
  s_pos (put_values bk p) = p_pos p /\
  s_active (put_values bk p) = p_active p /\
  exists r g bl,
    to_rgb bk (p_value p) (p_wavelengths p) (p_active p) = (r, g, bl) /\
    s_value (put_values bk p) = [r; g; bl; p_alpha p; (1#1)%Q].
Proof.
  unfold put_values.
  destruct (to_rgb bk (p_value p) (p_wavelengths p) (p_active p))
    as [[r g] bl].
  simpl. repeat split. exists r, g, bl. auto.
Qed.

(** C4, as amended.  When every filter has radius at most
    [0.5 + RayEpsilon], [put] takes the fast path: the cell of a sample
    is [ceil(coord - 0.5)] on every axis (the nearest cell, a tie going
    to the lower one), the sample is enabled if and only if it is active
    and that cell lies in [[0, extent)] on every axis, and an enabled
    sample adds its three colour values, its alpha and 1.0 to the five
    channels of that single cell, a disabled one nothing. *)
Theorem put_fast_path bk b p :
  backend_ok bk -> geometry_ok b -> allocated b ->
  m_channel_count b = 5 ->
  Forall (fun r => (r <= (1#2) + RayEpsilon bk)%Q) (filter_radius b) ->
  let s := put_values bk p in
  let cell := fast_cell b s in
  general_path bk b = false /\
  (forall j, (j < length (m_size b))%nat ->
             nth j cell 0 = Qceiling (pos_at b s j - (1#2))) /\
  (exists r g bl,
     to_rgb bk (p_value p) (p_wavelengths p) (p_active p) = (r, g, bl) /\
     s_value s = [r; g; bl; p_alpha p; (1#1)%Q]) /\
  (fast_enabled b s = true <->
   p_active p = true /\ in_shape (padded b) cell) /\
  exists b',
    put bk b [p] = Ok b' /\
    shape (m_data b') = shape (m_data b) /\
    array (m_data b')
    = if fast_enabled b s
      then add_values (array (m_data b))
                      (Z.to_nat (flat_index (padded b) cell * 5)) (s_value s)
      else array (m_data b).
Proof.
  intros Hbk Hgeo Hal Hch Hr s cell.
  pose proof (general_path_false bk b Hr) as Hfast.
  destruct (put_values_fields bk p) as [_ [Hact [r [g [bl [Hrgb Hval]]]]]].
  fold s in Hact, Hval.
  split; [exact Hfast|]. split; [apply fast_cell_nth|].
  split; [exists r, g, bl; auto|].
  split.
  { rewrite <- Hact. apply fast_enabled_in_shape; auto. lia. }
  destruct (put_fast_total bk b Hbk Hgeo [s] Hal Hfast) as [data [Hd Hput]].
  { intros s' [<-|[]]. rewrite Hval, Hch. simpl. lia. }
  eexists. split; [exact Hput|]. split; [reflexivity|].
  cbn [m_data set_m_weights set_m_data array].
  unfold fast_ops in Hd. rewrite Hch in Hd.
  assert (Hflat : concat
            (map (fun k => map (fun s0 =>
               mkScatter (wrap32 (fast_offset bk b s0 + wrap32 k))
                         (nth (Z.to_nat k) (s_value s0) (0#1)%Q)
                         (fast_enabled b s0)) [s]) (arange 5))
          = map (fun k => mkScatter (wrap32 (fast_offset bk b s + wrap32 k))
                                    (nth (Z.to_nat k) (s_value s) (0#1)%Q)
                                    (fast_enabled b s)) (arange 5)).
  { reflexivity. }
  rewrite Hflat in Hd. clear Hflat.
  destruct (fast_enabled b s) eqn:Een.
  - pose proof (proj1 (fast_enabled_spec b s) Een) as [_ Hin].
    destruct Hal as [_ Hlen].
    assert (Hops : map (fun k =>
                mkScatter (wrap32 (fast_offset bk b s + wrap32 k))
                          (nth (Z.to_nat k) (s_value s) (0#1)%Q) true)
              (arange 5)
            = map (fun i =>
                mkScatter
                  (Z.of_nat (Z.to_nat (flat_index (padded b) cell * 5) + i))
                  (nth i (s_value s) (0#1)%Q) true)
              (seq 0 (length (s_value s)))).
    { rewrite Hval. unfold arange. rewrite map_map.
      apply map_ext_in. intros i Hi. apply in_seq in Hi. simpl in Hi.
      assert (Hi5 : 0 <= Z.of_nat i < m_channel_count b).
      { clear - Hi Hch. lia. }
      destruct (fast_index bk b Hbk Hgeo s (Z.of_nat i) Hin Hi5)
        as [Hsh [E Hb]].
      pose proof (flat_index_bounds _ _ Hsh) as Hfb. fold cell in Hfb.
      rewrite E, Hch, Nat2Z.id. f_equal. fold cell. lia. }
    rewrite Hops in Hd.
    rewrite scatter_reduce_add_run in Hd.
    + injection Hd as <-. reflexivity.
    + destruct (fast_index bk b Hbk Hgeo s 4 Hin) as [Hsh [_ Hb]]; [lia|].
      pose proof (flat_index_bounds _ _ Hsh) as Hfb. fold cell in Hfb.
      fold cell in Hb. rewrite Hval. simpl length. lia.
  - rewrite scatter_reduce_add_masked in Hd.
    + injection Hd as <-. reflexivity.
    + apply Forall_map. apply Forall_forall. intros; reflexivity.
Qed.

(** * The tap counter *)

Lemma to_int32_bounds x : - 2 ^ 31 <= to_int32 x < 2 ^ 31.
Proof.
  unfold to_int32, wrap32.
  pose proof (Z.mod_pos_bound x (2 ^ 32) ltac:(lia)).
  destruct (Z.ltb_spec (x mod 2 ^ 32) (2 ^ 31)); lia.
Qed.

Lemma tap_radix_bounds nj : 1 <= tap_radix nj < 2 ^ 31.
Proof. unfold tap_radix. pose proof (to_int32_bounds nj). lia. Qed.

Lemma tap_total_cons nj n : tap_total (nj :: n) = tap_radix nj * tap_total n.
Proof. reflexivity. Qed.

Lemma tap_total_pos n : 0 < tap_total n.
Proof.
  induction n as [|nj n IH].
  - reflexivity.
  - rewrite tap_total_cons. pose proof (tap_radix_bounds nj). nia.
Qed.

Lemma tap_digits_zero n : tap_digits n 0 = repeat 0 (length n).
Proof.
  induction n as [|nj n IH]; simpl; auto.
  rewrite Z.mod_0_l, Z.div_0_l, IH by (pose proof (tap_radix_bounds nj); lia).
  reflexivity.
Qed.

Lemma tap_digits_length n v : length (tap_digits n v) = length n.
Proof. revert v; induction n; intros v; simpl; auto. Qed.

Lemma tap_digits_nth n : forall v j,
  0 <= v -> (j < length n)%nat ->
  0 <= nth j (tap_digits n v) 0 < tap_radix (nth j n 0).
Proof.
  induction n as [|nj n IH]; intros v [|j] Hv Hj; simpl in *; try lia.
  - apply Z.mod_pos_bound. pose proof (tap_radix_bounds nj). lia.
  - apply IH; [|lia]. apply Z.div_pos; auto.
    pose proof (tap_radix_bounds nj). lia.
Qed.

Lemma advance_digits n : forall v,
  0 <= v < tap_total n ->
  advance n (tap_digits n v)
  = if v + 1 <? tap_total n then (tap_digits n (v + 1), false)
    else (tap_digits n 0, true).
Proof.
  induction n as [|nj n IH]; intros v Hv.
  - simpl in *. change (tap_total []) with 1 in *.
    destruct (Z.ltb_spec (v + 1) 1); [lia | reflexivity].
  - rewrite tap_total_cons in *.
    pose proof (tap_radix_bounds nj) as Hm.
    pose proof (tap_total_pos n) as HT.
    set (m := tap_radix nj) in *.
    pose proof (Z.mod_pos_bound v m ltac:(lia)) as Hr.
    pose proof (Z.div_mod v m ltac:(lia)) as Hdm.
    assert (Hq : 0 <= v / m < tap_total n).
    { split; [apply Z.div_pos; lia|]. apply Z.div_lt_upper_bound; lia. }
    cbn [tap_digits advance]. fold m.
    rewrite wrap32_small by lia.
    destruct (Z.ltb_spec (v mod m + 1) (to_int32 nj)) as [Hlt|Hge].
    + assert (Hm' : v mod m + 1 < m) by (unfold m, tap_radix in *; lia).
      assert (E1 : (v + 1) mod m = v mod m + 1).
      { symmetry. apply (Z.mod_unique_pos (v + 1) m (v / m)); lia. }
      assert (E2 : (v + 1) / m = v / m).
      { symmetry. apply (Z.div_unique_pos (v + 1) m (v / m) (v mod m + 1));
          lia. }
      destruct (Z.ltb_spec (v + 1) (m * tap_total n)); [|nia].
      rewrite E1, E2. reflexivity.
    + assert (Hm' : v mod m = m - 1) by (unfold m, tap_radix in *; lia).
      assert (E1 : (v + 1) mod m = 0).
      { symmetry. apply (Z.mod_unique_pos (v + 1) m (v / m + 1)); lia. }
      assert (E2 : (v + 1) / m = v / m + 1).
      { symmetry. apply (Z.div_unique_pos (v + 1) m (v / m + 1) 0); lia. }
      rewrite (IH (v / m) Hq).
      destruct (Z.ltb_spec (v / m + 1) (tap_total n));
        destruct (Z.ltb_spec (v + 1) (m * tap_total n)); try nia.
      * rewrite E1, E2. reflexivity.
      * rewrite Z.mod_0_l, Z.div_0_l by lia. reflexivity.
Qed.

(** The loop runs its body on the taps [v, v+1, ...] up to the last one;
    it never runs out of fuel. *)
Lemma tap_loop_unroll bk b batch W n : forall fuel v acc,
  0 <= v -> v + Z.of_nat fuel = tap_total n -> (0 < fuel)%nat ->
  tap_loop bk fuel b batch W n (tap_digits n v) acc
  = (opss <- mapM (fun v' => tap_body bk b batch W n (tap_digits n v'))
                  (map Z.of_nat (seq (Z.to_nat v) fuel)) ;;
     Ok (acc ++ concat opss)).
Proof.
  induction fuel as [|fuel IH]; intros v acc Hv Hf Hpos; [lia|].
  cbn [tap_loop seq map mapM]. rewrite Z2Nat.id by lia.
  unfold tap_body at 1.
  destruct (gather_weight W n (tap_digits n v) 0 [(1#1)%Q]) as [w|e];
    [|reflexivity].
  cbn [bind].
  destruct (tap_scatters bk b batch w (tap_digits n v)) as [ops|e];
    [|reflexivity].
  cbn [bind].
  rewrite advance_digits by lia.
  destruct (Z.ltb_spec (v + 1) (tap_total n)) as [Hlt|Hge].
  - rewrite IH by lia.
    replace (Z.to_nat (v + 1)) with (S (Z.to_nat v)) by lia.
    destruct (mapM _ _) as [opss|e]; [|reflexivity].
    cbn [bind concat]. rewrite app_assoc. reflexivity.
  - assert (fuel = 0%nat) by lia. subst fuel.
    cbn [seq map mapM bind concat]. rewrite app_nil_r. reflexivity.
Qed.

Lemma tap_loop_all bk b batch W n :
  tap_loop bk (Z.to_nat (tap_total n)) b batch W n
           (repeat 0 (length n)) []
  = (opss <- mapM (fun v => tap_body bk b batch W n (tap_digits n v))
                  (arange (tap_total n)) ;;
     Ok (concat opss)).
Proof.
  pose proof (tap_total_pos n) as HT.
  rewrite <- tap_digits_zero.
  rewrite tap_loop_unroll by lia.
  reflexivity.
Qed.

(** * The scatter-adds of a call *)

Lemma In_map2 {A B C} (f : A -> B -> C) l1 l2 c :
  In c (map2 f l1 l2) -> exists a x, In a l1 /\ In x l2 /\ c = f a x.
Proof.
  revert l2; induction l1 as [|a l1 IH]; intros [|x l2]; simpl;
    try contradiction.
  intros [<-|H].
  - exists a, x. auto.
  - destruct (IH l2 H) as [a' [x' [Ha [Hx Hc]]]]. exists a', x'. auto.
Qed.

Lemma Forall2_In_r {A B} (P : A -> B -> Prop) l1 l2 y :
  Forall2 P l1 l2 -> In y l2 -> exists x, In x l1 /\ P x y.
Proof.
  induction 1 as [|a c l1 l2 Hac _ IH]; simpl; [contradiction|].
  intros [<-|H]; [eauto|].
  destruct (IH H) as [x [Hx Hp]]. eauto.
Qed.

Lemma scatter_calls_In (I : Sample -> Z -> Z) (M : Sample -> bool)
      (G : list Q -> list Q) ch batch calls sc :
  mapM (fun k =>
          value_k <- mapM (fun s => list_get (s_value s) k) batch ;;
          Ok (map2 (fun s x => mkScatter (I s k) x (M s)) batch (G value_k)))
       (arange ch) = Ok calls ->
  In sc (concat calls) ->
  exists s k, In s batch /\ 0 <= k < ch /\
              sc_index sc = I s k /\ sc_mask sc = M s.
Proof.
  intros Hm Hin. apply in_concat in Hin. destruct Hin as [call [Hc Hsc]].
  apply mapM_Forall2 in Hm.
  destruct (Forall2_In_r _ _ _ _ Hm Hc) as [k [Hk Hbody]].
  apply In_arange in Hk.
  destruct (mapM _ batch) as [value_k|e]; [|discriminate].
  simpl in Hbody. injection Hbody as <-.
  apply In_map2 in Hsc. destruct Hsc as [s [x [Hs [_ ->]]]].
  exists s, k. auto.
Qed.

Lemma tap_scatters_In bk b batch w idxs ops sc :
  tap_scatters bk b batch w idxs = Ok ops -> In sc ops ->
  exists s k, In s batch /\ 0 <= k < m_channel_count b /\
    sc_index sc = wrap32 (tap_offset bk b s idxs + wrap32 k) /\
    sc_mask sc = tap_enabled bk b s idxs.
Proof.
  unfold tap_scatters. intros H Hin.
  destruct (mapM _ (arange (m_channel_count b))) as [calls|e] eqn:Hm;
    [|discriminate].
  simpl in H. injection H as <-.
  exact (scatter_calls_In
           (fun s k => wrap32 (tap_offset bk b s idxs + wrap32 k))
           (fun s => tap_enabled bk b s idxs)
           (fun v => lane_op Qmult v w) _ _ _ _ Hm Hin).
Qed.

Lemma fast_scatters_In bk b batch ops sc :
  fast_scatters bk b batch = Ok ops -> In sc ops ->
  exists s k, In s batch /\ 0 <= k < m_channel_count b /\
    sc_index sc = wrap32 (fast_offset bk b s + wrap32 k) /\
    sc_mask sc = fast_enabled b s.
Proof.
  unfold fast_scatters. intros H Hin.
  destruct (mapM _ (arange (m_channel_count b))) as [calls|e] eqn:Hm;
    [|discriminate].
  simpl in H. injection H as <-.
  exact (scatter_calls_In
           (fun s k => wrap32 (fast_offset bk b s + wrap32 k))
           (fun s => fast_enabled b s)
           (fun v => v) _ _ _ _ Hm Hin).
Qed.

Lemma taps_length bk b : length (taps bk b) = length (filter_radius b).
Proof. apply length_map. Qed.

(** Every scatter-add of the general path belongs to a tap of the
    counter, a lane and a channel. *)
Lemma general_scatters_In bk b batch W ops sc :
  filters_ok b -> general_path bk b = true ->
  put_scatters bk b batch = Ok (W, ops) -> In sc ops ->
  exists v s k,
    0 <= v < tap_total (taps bk b) /\ In s batch /\
    0 <= k < m_channel_count b /\
    sc_index sc
    = wrap32 (tap_offset bk b s (tap_digits (taps bk b) v) + wrap32 k) /\
    sc_mask sc = tap_enabled bk b s (tap_digits (taps bk b) v).
Proof.
  intros [fl [Hfl [Hrad [Hlen _]]]] Hgen H Hin.
  unfold put_scatters in H. rewrite Hgen, Hfl in H.
  destruct (fill_weights _ _ _ _ _ _ _ _) as [W1|e]; [|discriminate].
  cbn [bind] in H.
  destruct (if m_normalize b then _ else _) as [W2|e]; [|discriminate].
  cbn [bind] in H.
  replace (length fl) with (length (taps bk b)) in H
    by (rewrite taps_length, Hrad, length_map; reflexivity).
  rewrite tap_loop_all in H.
  destruct (mapM _ (arange _)) as [opss|e] eqn:Hm; [|discriminate].
  cbn [bind] in H. injection H as <- <-.
  apply in_concat in Hin. destruct Hin as [tapops [Ht Hsc]].
  apply mapM_Forall2 in Hm.
  destruct (Forall2_In_r _ _ _ _ Hm Ht) as [v [Hv Hbody]].
  apply In_arange in Hv.
  unfold tap_body in Hbody.
  destruct (gather_weight _ _ _ _ _) as [w|e]; [|discriminate].
  cbn [bind] in Hbody.
  destruct (tap_scatters_In _ _ _ _ _ _ _ Hbody Hsc) as [s [k H']].
  exists v, s, k. tauto.
Qed.

(** * Termination: no call runs out of fuel *)

Lemma converges_bind {A B} (r : result A) (k : A -> result B) :
  converges r -> (forall a, r = Ok a -> converges (k a)) ->
  converges (bind r k).
Proof.
  intros Hr Hk. destruct r as [a|e]; simpl; [apply Hk; reflexivity|].
  intros E. apply Hr. injection E as ->. reflexivity.
Qed.

Lemma converges_mapM {A B} (f : A -> result B) l :
  (forall a, In a l -> converges (f a)) -> converges (mapM f l).
Proof.
  induction l as [|a l IH]; intros H; simpl.
  - discriminate.
  - apply converges_bind; [apply H; left; reflexivity|].
    intros y _. apply converges_bind; [apply IH; intros; apply H; right; auto|].
    intros ys _. discriminate.
Qed.

Lemma converges_list_get {A} (l : list A) i : converges (list_get l i).
Proof. unfold list_get. destruct (nth_error l _); discriminate. Qed.

Lemma converges_list_set {A} (l : list A) i x : converges (list_set l i x).
Proof. unfold list_set. destruct (_ <? _)%nat; discriminate. Qed.

Lemma converges_fold {A B} (f : list A -> B -> result (list A)) l :
  (forall W i, converges (f W i)) ->
  forall init, converges init ->
  converges (fold_left (fun acc i => W' <- acc ;; f W' i) l init).
Proof.
  intros Hf. induction l as [|i l IH]; intros init Hi; simpl; auto.
  apply IH. apply converges_bind; auto.
Qed.

Lemma converges_fill_weights bk b batch : forall fl j n base W,
  converges (fill_weights bk b batch j fl n base W).
Proof.
  induction fl as [|f fl IH]; intros j [|nj n] base W; simpl;
    try discriminate.
  apply converges_bind; [|intros; apply IH].
  unfold fill_axis.
  apply (converges_fold
           (fun W' i =>
              list_set W' (wrap32 (base + i))
                (map (fun s => f_eval f
                        (inject_Z (wrap32 (dr_u32 bk (base_at bk b s j) + i)))
                        (s_active s)) batch))).
  - intros; apply converges_list_set.
  - discriminate.
Qed.

Lemma converges_normalize W n : converges (normalize_weights W n).
Proof.
  unfold normalize_weights.
  destruct (norm_factor W n 0 [(1#1)%Q]) as [|f0 ?]; [discriminate|].
  destruct n as [|n0 n]; [discriminate|].
  destruct (Qeq_bool f0 0); [discriminate|].
  apply (converges_fold
           (fun W' i => w <- list_get W' i ;;
                        list_set W' i (map (fun x => (x * / f0)%Q) w))).
  - intros W' i. apply converges_bind; [apply converges_list_get|].
    intros; apply converges_list_set.
  - discriminate.
Qed.

Lemma converges_gather_weight W : forall n idxs base w,
  converges (gather_weight W n idxs base w).
Proof.
  induction n as [|nj n IH]; intros [|ij idxs] base w; simpl;
    try discriminate.
  apply converges_bind; [apply converges_list_get | intros; apply IH].
Qed.

Lemma converges_scatter_calls (I : Sample -> Z -> Z) (M : Sample -> bool)
      (G : list Q -> list Q) ch batch :
  converges
    (calls <- mapM (fun k =>
          value_k <- mapM (fun s => list_get (s_value s) k) batch ;;
          Ok (map2 (fun s x => mkScatter (I s k) x (M s)) batch (G value_k)))
       (arange ch) ;; Ok (concat calls)).
Proof.
  apply converges_bind; [|discriminate].
  apply converges_mapM. intros k _.
  apply converges_bind; [|discriminate].
  apply converges_mapM. intros s _. apply converges_list_get.
Qed.

(** The general path never runs out of fuel. *)
Lemma put_scatters_terminates bk b batch :
  filters_ok b -> converges (put_scatters bk b batch).
Proof.
  intros [fl [Hfl [Hrad [Hlen _]]]].
  unfold put_scatters.
  destruct (general_path bk b).
  - rewrite Hfl.
    apply converges_bind; [apply converges_fill_weights|]. intros W1 _.
    apply converges_bind.
    { destruct (m_normalize b); [apply converges_normalize | discriminate]. }
    intros W2 _.
    apply converges_bind; [|discriminate].
    replace (length fl) with (length (taps bk b))
      by (rewrite taps_length, Hrad, length_map; reflexivity).
    rewrite tap_loop_all.
    apply converges_bind; [|discriminate].
    apply converges_mapM. intros v _. unfold tap_body.
    apply converges_bind; [apply converges_gather_weight|]. intros w _.
    exact (converges_scatter_calls
             (fun s k => wrap32 (tap_offset bk b s (tap_digits (taps bk b) v)
                                 + wrap32 k))
             (fun s => tap_enabled bk b s (tap_digits (taps bk b) v))
             (fun x => lane_op Qmult x w) _ _).
  - apply converges_bind; [|discriminate].
    exact (converges_scatter_calls
             (fun s k => wrap32 (fast_offset bk b s + wrap32 k))
             (fun s => fast_enabled b s) (fun x => x) _ _).
Qed.

(** * The general path: cells and masks *)

Lemma fold_andb {A} (P : A -> bool) l : forall init,
  fold_left (fun acc j => acc && P j) l init = true <->
  init = true /\ forall j, In j l -> P j = true.
Proof.
  induction l as [|a l IH]; intros init; simpl.
  - split; [intros H; split; [auto | contradiction] | tauto].
  - rewrite IH, andb_true_iff. split.
    + intros [[Hi Ha] H]. split; auto. intros j [<-|Hj]; auto.
    + intros [Hi H]. repeat split; auto.
Qed.

Lemma tap_enabled_spec bk b s idxs :
  tap_enabled bk b s idxs = true <->
  s_active s = true /\
  forall j, (j < length (m_size b))%nat ->
            tap_cell bk b s idxs j <= hi_at bk b s j.
Proof.
  unfold tap_enabled, dims. rewrite fold_andb.
  split; intros [Ha H]; split; auto.
  - intros j Hj. apply Z.leb_le. apply H. rewrite <- in_rev. apply in_seq. lia.
  - intros j Hj. rewrite <- in_rev in Hj. apply in_seq in Hj.
    apply Z.leb_le. apply H. lia.
Qed.

Lemma Qfloor_neg x : Qfloor x < 0 -> (x < 0)%Q.
Proof.
  intros H. eapply Qlt_le_trans; [apply Qlt_floor|].
  change 0%Q with (inject_Z 0). rewrite <- Zle_Qle. lia.
Qed.

Lemma Qceiling_nonpos x : (x <= 0)%Q -> Qceiling x <= 0.
Proof.
  intros H.
  assert (Hlt : (inject_Z (Qceiling x - 1) < inject_Z 0)%Q).
  { eapply Qlt_le_trans; [apply Qceiling_lt | exact H]. }
  rewrite <- Zlt_Qlt in Hlt. lia.
Qed.

Lemma support_below b s j :
  (0 <= radius_at b j)%Q ->
  Qfloor (pos_at b s j + radius_at b j) < 0 ->
  lo_float b s j = 0.
Proof.
  intros Hr Hf. unfold lo_float.
  apply Qfloor_neg in Hf.
  assert (Hle : (pos_at b s j - radius_at b j <= 0)%Q).
  { apply Qlt_le_weak. eapply Qle_lt_trans; [|exact Hf].
    setoid_replace (pos_at b s j - radius_at b j)%Q
      with (pos_at b s j + radius_at b j + - ((2#1) * radius_at b j))%Q by ring.
    setoid_replace (pos_at b s j + radius_at b j)%Q
      with (pos_at b s j + radius_at b j + 0)%Q at 2 by ring.
    apply Qplus_le_r.
    setoid_replace 0%Q with (- 0)%Q by ring.
    apply Qopp_le_compat.
    apply Qmult_le_0_compat; [discriminate | exact Hr]. }
  apply Qceiling_nonpos in Hle. lia.
Qed.

Section GeneralPath.

Variable bk : Backend.
Variable b : Block.
Hypothesis Hbk : backend_ok bk.
Hypothesis Hgeo : geometry_ok b.
Hypothesis Hfil : filters_ok b.
Hypothesis Hoff : offsets_ok b.

Lemma radius_at_nonneg j : (0 <= radius_at b j)%Q.
Proof.
  destruct Hfil as [fl [_ [_ [_ Hr]]]]. unfold radius_at.
  destruct (Nat.ltb_spec j (length (filter_radius b))).
  - apply (proj1 (Forall_forall _ _) Hr). apply nth_In. auto.
  - rewrite nth_overflow by auto. apply Qle_refl.
Qed.

(** An enabled tap addresses a cell of the padded buffer, however far
    the sample lies from it. *)
Lemma enabled_cell_in_bounds s idxs j :
  1 <= m_channel_count b ->
  (j < length (m_size b))%nat ->
  0 <= nth j idxs 0 < tap_radix (nth j (taps bk b) 0) ->
  to_int32 (nth j (taps bk b) 0) <= size_at b j ->
  tap_cell bk b s idxs j <= hi_at bk b s j ->
  0 <= tap_cell bk b s idxs j < size_at b j.
Proof.
  intros Hch Hj Hidx Hn Hen.
  destruct Hbk as [Hex [Hrg _]].
  pose proof (size_at_bounds b Hgeo Hch j Hj) as Hsz.
  pose proof (Hoff j Hj) as Hbo.
  assert (H0 : 0 <= tap_cell bk b s idxs j).
  { unfold tap_cell, wrap32. apply Z.mod_pos_bound. lia. }
  split; [exact H0|].
  destruct (Z.lt_ge_cases (hi_float b s j) 0) as [Hneg|Hpos].
  - (* the support lies entirely below the buffer *)
    assert (Hf : Qfloor (pos_at b s j + radius_at b j) < 0).
    { unfold hi_float in Hneg. lia. }
    pose proof (support_below b s j (radius_at_nonneg j) Hf) as Hlo.
    unfold tap_cell, lo_at. rewrite Hlo.
    rewrite (cast_exact_int _ 0 Hex) by lia.
    rewrite wrap32_small by (unfold tap_radix in Hidx;
                             pose proof (to_int32_bounds (nth j (taps bk b) 0));
                             lia).
    unfold tap_radix in Hidx. lia.
  - assert (Hhi : hi_at bk b s j = hi_float b s j).
    { unfold hi_at. apply cast_exact_int; auto.
      unfold hi_float in *. lia. }
    rewrite Hhi in Hen. unfold hi_float in Hen. lia.
Qed.

End GeneralPath.


(** C3, as amended.  In the general path, for samples whose support
    reaches the buffer from below and whose coordinates fit in 32 bits,
    [lo[j]] is [ceil(coord[j] - radius[j])] clamped below by 0 and
    [hi[j]] is [floor(coord[j] + radius[j])] clamped above by
    [extent[j] - 1 - origin_shift[j]]; every scatter-add whose mask is
    set goes to channel [k] of a lattice point [p] of the padded buffer
    with [lo[j] <= p[j] <= hi[j]] on every axis. *)
Theorem general_path_support bk b batch W ops sc :
  backend_ok bk -> geometry_ok b -> filters_ok b -> offsets_ok b ->
  general_path bk b = true ->
  (forall s, In s batch -> sample_in_range bk b s) ->
  put_scatters bk b batch = Ok (W, ops) ->
  In sc ops -> sc_mask sc = true ->
  exists s v k,
    In s batch /\ s_active s = true /\
    0 <= v < tap_total (taps bk b) /\ 0 <= k < m_channel_count b /\
    let idxs := tap_digits (taps bk b) v in
    let p := map (fun j => nth j idxs 0 + lo_at bk b s j)
                 (seq 0 (length (m_size b))) in
    (forall j, (j < length (m_size b))%nat ->
       lo_at bk b s j
       = Z.max (Qceiling (pos_at b s j - radius_at b j)) 0 /\
       hi_at bk b s j
       = Z.min (Qfloor (pos_at b s j + radius_at b j))
               (nth j (padded b) 0 - 1 - border_offset_at b j) /\
       lo_at bk b s j <= nth j p 0 <= hi_at bk b s j) /\
    in_shape (padded b) p /\
    sc_index sc = flat_index (padded b) p * m_channel_count b + k.
Proof.
  intros Hbk Hgeo Hfil Hoff Hgen Hrange Hput Hin Hm.
  destruct (general_scatters_In bk b batch W ops sc Hfil Hgen Hput Hin)
    as [v [s [k [Hv [Hs [Hk [Hidx Hmask]]]]]]].
  rewrite Hmask in Hm. apply tap_enabled_spec in Hm. destruct Hm as [Hact Hen].
  assert (Hch : 1 <= m_channel_count b) by lia.
  exists s, v, k.
  split; [exact Hs|]. split; [exact Hact|]. split; [exact Hv|].
  split; [exact Hk|].
  intros idxs p.
  assert (Hlen : length (taps bk b) = length (m_size b)).
  { destruct Hfil as [fl [_ [Hr [Hl _]]]].
    rewrite taps_length, Hr, length_map. exact Hl. }
  destruct Hbk as [Hex [Hrg _]].
  assert (Hax : forall j, (j < length (m_size b))%nat ->
            lo_at bk b s j = lo_float b s j /\
            hi_at bk b s j = hi_float b s j /\
            tap_cell bk b s idxs j = nth j idxs 0 + lo_at bk b s j /\
            0 <= nth j idxs 0 /\
            0 <= tap_cell bk b s idxs j < size_at b j).
  { intros j Hj.
    destruct (Hrange s Hs j Hj) as [Hfl Hce].
    pose proof (size_at_bounds b Hgeo Hch j Hj) as Hsz.
    pose proof (Hoff j Hj) as Hbo.
    pose proof (tap_radix_bounds (nth j (taps bk b) 0)) as Hrad.
    assert (Hd : 0 <= nth j idxs 0 < tap_radix (nth j (taps bk b) 0)).
    { apply tap_digits_nth; [lia | rewrite Hlen; exact Hj]. }
    assert (Hlo : lo_at bk b s j = lo_float b s j).
    { unfold lo_at. apply cast_exact_int; auto. unfold lo_float. lia. }
    assert (Hhi : hi_at bk b s j = hi_float b s j).
    { unfold hi_at. apply cast_exact_int; auto. unfold hi_float. lia. }
    assert (Hcell : tap_cell bk b s idxs j = nth j idxs 0 + lo_at bk b s j).
    { unfold tap_cell. rewrite Hlo. apply wrap32_small.
      unfold lo_float. lia. }
    specialize (Hen j Hj). fold idxs in Hen.
    rewrite Hhi in Hen. rewrite Hcell, Hlo in *.
    unfold hi_float, lo_float in *.
    repeat split; try lia. }
  assert (Hp : map (tap_cell bk b s idxs) (seq 0 (length (m_size b))) = p).
  { unfold p. apply map_ext_in. intros j Hj. apply in_seq in Hj.
    apply Hax. lia. }
  destruct (cell_offset b Hgeo Hch (tap_cell bk b s idxs))
    as [Hshape Hfold].
  { intros j Hj. rewrite <- size_at_padded by auto. apply Hax, Hj. }
  rewrite Hp in Hshape, Hfold.
  destruct (channel_index b Hgeo Hch _ k Hshape Hk) as [Hw Hb].
  split; [|split; [exact Hshape|]].
  - intros j Hj. destruct (Hax j Hj) as [Hlo [Hhi [Hcell [Hd Hb']]]].
    specialize (Hen j Hj). fold idxs in Hen.
    unfold p. rewrite nth_map_seq by auto.
    rewrite <- size_at_padded by auto.
    split; [rewrite Hlo; reflexivity|].
    split; [rewrite Hhi; unfold hi_float; f_equal; lia|].
    rewrite Hcell in Hen. lia.
  - rewrite Hidx. fold idxs. unfold tap_offset, dims.
    rewrite Hfold, Hw. reflexivity.
Qed.

(** * Lanes *)




(** * The normalisation factor *)


(** * Updates of the weight table *)

Lemma nth_error_list_update {A} (l : list A) i x j :
  nth_error (list_update l i x) j
  = if (j =? i)%nat then option_map (fun _ => x) (nth_error l j)
    else nth_error l j.
Proof.
  revert i j; induction l as [|a l IH]; intros [|i] [|j]; simpl;
    try reflexivity.
  - destruct (j =? i)%nat; reflexivity.
  - apply IH.
Qed.

Lemma fold_bind_raise {A B} (f : list A -> B -> result (list A)) l e :
  fold_left (fun acc i => W' <- acc ;; f W' i) l (Raise e) = Raise e.
Proof. induction l; simpl; auto. Qed.

Lemma list_get_Ok {A} (l : list A) i a :
  list_get l i = Ok a -> nth_error l (Z.to_nat i) = Some a.
Proof.
  unfold list_get. destruct (nth_error l (Z.to_nat i)); [|discriminate].
  intros H; injection H as <-. reflexivity.
Qed.

Lemma list_set_Ok {A} (l : list A) i x l' :
  list_set l i x = Ok l' ->
  (Z.to_nat i < length l)%nat /\ l' = list_update l (Z.to_nat i) x.
Proof.
  unfold list_set. destruct (Nat.ltb_spec (Z.to_nat i) (length l));
    [|discriminate].
  intros E; injection E as <-. auto.
Qed.



(** * Weights of the taps *)




(** * Sums over the taps of the counter *)

Lemma qsum_map_app {A} (f : A -> Q) l1 l2 :
  (qsum (map f (l1 ++ l2)) == qsum (map f l1) + qsum (map f l2))%Q.
Proof. rewrite map_app. apply qsum_app. Qed.

Lemma qsum_scale {A} (f : A -> Q) c l :
  (qsum (map (fun a => f a * c) l) == qsum (map f l) * c)%Q.
Proof.
  induction l as [|a l IH]; simpl.
  - ring.
  - rewrite IH. ring.
Qed.






(** * Filling the weight table *)



Lemma zsum_nonneg n : Forall (fun nj => 0 <= nj) n -> 0 <= zsum n.
Proof. induction 1; simpl; lia. Qed.


(** * Axis sums *)


Lemma taps_nonneg n :
  Forall (fun nj => 1 <= nj < 2 ^ 31) n -> Forall (fun nj => 0 <= nj) n.
Proof. apply Forall_impl. intros a H. lia. Qed.





Lemma qprod_nonzero_head x l : ~ (x * qprod l == 0)%Q -> ~ (x == 0)%Q.
Proof. intros H E. apply H. rewrite E. ring. Qed.


(** * Blocks built by the constructor *)

Lemma map2_add_double l1 l2 :
  map2 Z.add l1 (map (Z.mul 2) l2) = map2 (fun d o => d + 2 * o) l1 l2.
Proof.
  revert l2; induction l1 as [|a l1 IH]; intros [|c l2]; simpl; auto.
  rewrite IH. reflexivity.
Qed.

Lemma clear_allocated b :
  0 <= m_channel_count b * zprod (padded b) -> allocated (clear false b).
Proof.
  intros H. unfold allocated, clear, padded. simpl.
  rewrite map2_add_double, repeat_length, Z2Nat.id by exact H. auto.
Qed.

Lemma clear_fields b force :
  m_size (clear force b) = m_size b /\
  m_channel_count (clear force b) = m_channel_count b /\
  m_filter (clear force b) = m_filter b /\
  filter_radius (clear force b) = filter_radius b /\
  m_border_size (clear force b) = m_border_size b /\
  m_original_border_size (clear force b) = m_original_border_size b /\
  m_border_offset (clear force b) = m_border_offset b /\
  m_offset (clear force b) = m_offset b.
Proof. repeat split. Qed.

(** A block built by the constructor with a border satisfies the
    hypotheses of the theorems below. *)
Lemma init_ok bk size ch filter wn wi normalize b :
  init bk size ch filter wn wi true normalize = Ok b ->
  Forall (fun d => 0 < d) size ->
  (forall fl, m_filter b = Some fl ->
     Forall (fun f => 0 <= f_border_size f /\ (0 <= f_radius f)%Q) fl) ->
  1 <= ch ->
  ch * zprod (padded b) < 2 ^ 32 ->
  m_size b = size /\ m_channel_count b = ch /\
  geometry_ok b /\ allocated b /\ filters_ok b /\ offsets_ok b.
Proof.
  unfold init. intros H Hs Hfl Hch Hsmall.
  destruct (forallb (Z.eqb 0) size); [destruct filter; discriminate|].
  set (b0 := mkBlock (repeat 0 (length size)) size ch wn wi normalize None
                     (NdScalar 0) (NdScalar 0) (NdScalar 0) [] []
                     (mkTensor [] [])) in *.
  destruct (configure_filter bk filter true b0) as [b1 [e|]] eqn:Ec;
    [discriminate|].
  injection H as <-.
  assert (Hok : snd (configure_filter bk filter true b0) = None)
    by (rewrite Ec; reflexivity).
  destruct (configure_filter_ok bk filter true b0 Hok) as [fl [Hlen Hb1]].
  rewrite Ec in Hb1. simpl in Hb1. subst b1.
  unfold configured in *. simpl m_filter in *. cbv iota in *.
  specialize (Hfl fl eq_refl).
  assert (Hbs : Forall (fun o => 0 <= o) (map f_border_size fl)).
  { apply Forall_map. eapply Forall_impl; [|exact Hfl]. intros f [H _]; exact H. }
  assert (Hrs : Forall (fun r => (0 <= r)%Q) (map f_radius fl)).
  { apply Forall_map. eapply Forall_impl; [|exact Hfl]. intros f [_ H]; exact H. }
  assert (Hpos : Forall (fun d => 0 < d)
                   (map2 (fun d o => d + 2 * o) size (map f_border_size fl))).
  { apply padded_pos; auto. }
  assert (Hgeo : geometry_ok
            (clear false
               (set_filter
                  (set_borders b0 (NdArr (map f_border_size fl))
                     (NdArr (map f_border_size fl))
                     (NdArr (repeat 0 (length (m_size b0)))))
                  fl (map f_radius fl)
                  (repeat [(0#1)%Q]
                     (Z.to_nat
                        (wrap32
                           (zsum (map (tap_count bk) (map f_radius fl))))))))).
  { split; [exact Hs|]. split; [|exact Hsmall].
    exists (map f_border_size fl). split; [reflexivity|].
    split; [rewrite length_map; exact Hlen | exact Hbs]. }
  split; [reflexivity|]. split; [reflexivity|].
  split; [exact Hgeo|]. split; [|split].
  - apply clear_allocated.
    pose proof (zprod_pos _ Hpos). unfold padded. simpl. nia.
  - exists fl. repeat split; auto.
  - intros j Hj.
    pose proof (size_at_bounds _ Hgeo ltac:(simpl; lia) j Hj) as Hb.
    unfold border_offset_at, dims. simpl.
    rewrite nth_repeat. simpl in Hb. lia.
Qed.

(** A call of [put_] changes the buffer contents and the weight table
    only. *)
Lemma put_preserves bk b batch b' :
  put_ bk b batch = Ok b' ->
  m_size b' = m_size b /\ m_channel_count b' = m_channel_count b /\
  m_filter b' = m_filter b /\ filter_radius b' = filter_radius b /\
  m_border_size b' = m_border_size b /\
  m_original_border_size b' = m_original_border_size b /\
  m_border_offset b' = m_border_offset b /\
  m_normalize b' = m_normalize b /\
  shape (m_data b') = shape (m_data b) /\
  length (array (m_data b')) = length (array (m_data b)).
Proof.
  unfold put_. intros H.
  destruct (put_scatters bk b batch) as [r|e]; [|discriminate].
  cbn [bind] in H.
  destruct (scatter_reduce_add (array (m_data b)) (snd r)) as [data|e] eqn:Ed;
    [|discriminate].
  cbn [bind] in H. injection H as <-.
  repeat split. simpl. eapply scatter_reduce_add_length; eauto.
Qed.

Lemma put_preserves_ok bk b batch b' :
  put_ bk b batch = Ok b' ->
  geometry_ok b -> allocated b -> filters_ok b -> offsets_ok b ->
  geometry_ok b' /\ allocated b' /\ filters_ok b' /\ offsets_ok b'.
Proof.
  intros H Hgeo Hal Hfil Hoff.
  destruct (put_preserves bk b batch b' H)
    as [Hs [Hc [Hf [Hr [Hbs [Ho [Hbo [_ [Hsh Hl]]]]]]]]].
  assert (Hp : padded b' = padded b) by (apply padded_ext; auto).
  split; [|split; [|split]].
  - unfold geometry_ok. rewrite Hs, Ho, Hc, Hp. exact Hgeo.
  - unfold allocated. rewrite Hsh, Hl, Hc, Hp. exact Hal.
  - unfold filters_ok. rewrite Hf, Hr, Hs. exact Hfil.
  - unfold offsets_ok, border_offset_at, size_at, dims.
    rewrite Hs, Ho, Hbo. exact Hoff.
Qed.

(** * The example backends and blocks *)

Lemma Qtrunc_bounds q :
  (inject_Z (-1) < q)%Q -> (q < inject_Z (2 ^ 32))%Q ->
  0 <= Qtrunc q < 2 ^ 32.
Proof.
  destruct q as [n d]. unfold Qlt, Qtrunc. simpl Qnum. simpl Qden.
  intros H1 H2.
  destruct (Z.lt_ge_cases n 0) as [Hn|Hn].
  - replace n with (- (- n)) by lia.
    rewrite Z.quot_opp_l by lia.
    rewrite Z.quot_small by lia. lia.
  - rewrite Z.quot_div_nonneg by lia.
    split; [apply Z.div_pos; lia|].
    apply Z.div_lt_upper_bound; lia.
Qed.

Lemma cast_sat_exact : cast_exact cast_sat.
Proof.
  intros q H1 H2. unfold cast_sat.
  pose proof (Qtrunc_bounds q H1 H2). lia.
Qed.

Lemma cast_sat_range : cast_range cast_sat.
Proof. intros q. unfold cast_sat. lia. Qed.

Lemma cast_wrap_exact : cast_exact cast_wrap.
Proof.
  intros q H1 H2. unfold cast_wrap.
  apply wrap32_small, Qtrunc_bounds; auto.
Qed.

Lemma cast_wrap_range : cast_range cast_wrap.
Proof. intros q. unfold cast_wrap, wrap32. apply Z.mod_pos_bound. lia. Qed.

Lemma backend_sat_ok : backend_ok backend_sat.
Proof.
  repeat split; try apply cast_sat_exact; apply cast_sat_range.
Qed.

Lemma backend_wrap_ok : backend_ok backend_wrap.
Proof.
  repeat split; try apply cast_wrap_exact; apply cast_wrap_range.
Qed.

Ltac concrete_geometry obs :=
  split;
  [ vm_compute; repeat constructor
  | split;
    [ exists obs; split; [reflexivity|]; split; [reflexivity|];
      repeat constructor; lia
    | vm_compute; reflexivity ] ].

Ltac concrete_allocated := split; vm_compute; reflexivity.

Lemma box_block_geometry : geometry_ok box_block.
Proof. concrete_geometry [0; 0; 0]. Qed.

Lemma box_block_allocated : allocated box_block.
Proof. concrete_allocated. Qed.

Ltac concrete_filters :=
  eexists; split; [reflexivity|]; split; [reflexivity|];
  split; [reflexivity|]; vm_compute; repeat constructor; discriminate.

Ltac concrete_axis j Hj :=
  repeat (destruct j as [|j]; [vm_compute; split; solve [discriminate | reflexivity]|]);
  vm_compute in Hj; lia.

Lemma box_block_after_geometry : geometry_ok box_block_after.
Proof. concrete_geometry [0; 0; 0]. Qed.

Lemma box_block_after_allocated : allocated box_block_after.
Proof. concrete_allocated. Qed.

Lemma shrunk_block_geometry : geometry_ok shrunk_block.
Proof. concrete_geometry [2]. Qed.

Lemma shrunk_block_filters : filters_ok shrunk_block.
Proof. concrete_filters. Qed.

Lemma shrunk_block_offsets : offsets_ok shrunk_block.
Proof. intros j Hj. concrete_axis j Hj. Qed.


(** ** C1 *)



(** ** C2 *)

Lemma develop_zero_weight_counterexample :
  exists b t q,
    put_ backend_sat six_channel_block [six_channel_sample] = Ok b /\
    tensor_get (m_data b) [0; m_channel_count b - 1] = Some (0#1)%Q /\
    develop backend_sat false false false b = Ok t /\
    tensor_get t [0; 0] = Some (XNum q) /\ ~ (q == 0)%Q.
Proof.
  exists (block_of (put_ backend_sat six_channel_block [six_channel_sample])).
  exists (tensor_of
            (develop backend_sat false false false
               (block_of (put_ backend_sat six_channel_block
                               [six_channel_sample])))).
  exists (1#2)%Q.
  split; [vm_compute; reflexivity|].
  split; [vm_compute; reflexivity|].
  split; [vm_compute; reflexivity|].
  split; [vm_compute; reflexivity | vm_compute; discriminate].
Qed.

Lemma develop_zero_weight_witness :
  tensor_get (m_data box_block_after) (map2 Z.add [0; 0; 0] [0; 0; 0] ++ [4])
  = Some (0#1)%Q /\
  tensor_get (tensor_of (develop backend_sat false false false box_block_after))
             ([0; 0; 0] ++ [0])
  = Some (XNum 0).
Proof.
  split; [vm_compute; reflexivity|].
  apply (develop_zero_weight backend_sat box_block_after false false
           (tensor_of (develop backend_sat false false false box_block_after))
           [0; 0; 0] [0; 0; 0] 0 (0#1)%Q).
  - exact box_block_after_geometry.
  - exact box_block_after_allocated.
  - reflexivity.
  - discriminate.
  - vm_compute; reflexivity.
  - vm_compute; repeat constructor; discriminate.
  - vm_compute; split; [discriminate | reflexivity].
  - vm_compute; reflexivity.
  - reflexivity.
Defined.

(** ** C3 *)

Lemma general_path_hi_counterexample :
  general_path backend_sat shrunk_block = true /\
  lo_at backend_sat shrunk_block edge_sample 0 = 6 /\
  hi_at backend_sat shrunk_block edge_sample 0 = 6 /\
  spec_hi (pos_at shrunk_block edge_sample 0) (radius_at shrunk_block 0)
          (nth 0%nat (padded shrunk_block) 0) = 7 /\
  exists b q,
    put_ backend_sat shrunk_block [edge_sample] = Ok b /\
    tensor_get (m_data b) [6; 4] = Some q /\ (q == 1)%Q /\
    tensor_get (m_data b) [7; 4] = Some (0#1)%Q.
Proof.
  split; [vm_compute; reflexivity|].
  split; [vm_compute; reflexivity|].
  split; [vm_compute; reflexivity|].
  split; [vm_compute; reflexivity|].
  exists (block_of (put_ backend_sat shrunk_block [edge_sample])).
  exists (3#3)%Q.
  split; [vm_compute; reflexivity|].
  split; [vm_compute; reflexivity|].
  split; vm_compute; reflexivity.
Qed.

Lemma edge_scatters_ok :
  put_scatters backend_sat shrunk_block [edge_sample] = Ok edge_scatters.
Proof. vm_compute; reflexivity. Qed.

Lemma edge_sample_in_range :
  forall s, In s [edge_sample] -> sample_in_range backend_sat shrunk_block s.
Proof. intros s [<-|[]] j Hj. concrete_axis j Hj. Qed.

Lemma general_path_support_witness :
  In (mkScatter 30 (1 * (3#3)) true) (snd edge_scatters) /\
  exists s v k,
    In s [edge_sample] /\ s_active s = true /\
    0 <= v < tap_total (taps backend_sat shrunk_block) /\
    0 <= k < m_channel_count shrunk_block /\
    let idxs := tap_digits (taps backend_sat shrunk_block) v in
    let p := map (fun j => nth j idxs 0 + lo_at backend_sat shrunk_block s j)
                 (seq 0 (length (m_size shrunk_block))) in
    (forall j, (j < length (m_size shrunk_block))%nat ->
       lo_at backend_sat shrunk_block s j
       = Z.max (Qceiling (pos_at shrunk_block s j - radius_at shrunk_block j))
               0 /\
       hi_at backend_sat shrunk_block s j
       = Z.min (Qfloor (pos_at shrunk_block s j + radius_at shrunk_block j))
               (nth j (padded shrunk_block) 0 - 1
                - border_offset_at shrunk_block j) /\
       lo_at backend_sat shrunk_block s j <= nth j p 0
       <= hi_at backend_sat shrunk_block s j) /\
    in_shape (padded shrunk_block) p /\
    30 = flat_index (padded shrunk_block) p * m_channel_count shrunk_block + k.
Proof.
  assert (Hin : In (mkScatter 30 (1 * (3#3)) true) (snd edge_scatters)).
  { vm_compute. left. reflexivity. }
  split; [exact Hin|].
  exact (general_path_support backend_sat shrunk_block [edge_sample]
           (fst edge_scatters) (snd edge_scatters)
           (mkScatter 30 (1 * (3#3)) true)
           backend_sat_ok shrunk_block_geometry shrunk_block_filters
           shrunk_block_offsets eq_refl edge_sample_in_range
           edge_scatters_ok Hin eq_refl).
Defined.

(** ** C4 *)

Lemma put_fast_path_counterexample :
  let s := put_values backend_sat tie_sample in
  Forall (fun r => (r <= (1#2) + RayEpsilon backend_sat)%Q)
         (filter_radius box_block) /\
  fast_cell box_block s = [0; 0; 0] /\
  map (fun j => spec_fast_cell (pos_at box_block s j)) [0; 1; 2]%nat
  = [1; 1; 1] /\
  exists b,
    put backend_sat box_block [tie_sample] = Ok b /\
    tensor_get (m_data b) [0; 0; 0; 4] = Some (1#1)%Q /\
    tensor_get (m_data b) [1; 1; 1; 4] = Some (0#1)%Q.
Proof.
  split; [vm_compute; repeat constructor; discriminate|].
  split; [vm_compute; reflexivity|].
  split; [vm_compute; reflexivity|].
  exists (block_of (put backend_sat box_block [tie_sample])).
  split; [vm_compute; reflexivity|].
  split; vm_compute; reflexivity.
Qed.

Lemma box_block_fast :
  Forall (fun r => (r <= (1#2) + RayEpsilon backend_sat)%Q)
         (filter_radius box_block).
Proof. vm_compute; repeat constructor; discriminate. Qed.

Lemma put_fast_path_witness :
  m_channel_count box_block = 5 /\
  exists b',
    put backend_sat box_block [centre_put_sample] = Ok b' /\
    array (m_data b')
    = add_values (array (m_data box_block)) 95
                 [2#1; 1#1; 0#1; 1#1; 1#1]%Q.
Proof.
  split; [reflexivity|].
  destruct (put_fast_path backend_sat box_block centre_put_sample
              backend_sat_ok box_block_geometry box_block_allocated
              eq_refl box_block_fast)
    as [_ [_ [_ [_ [b' [Hput [_ Harr]]]]]]].
  exists b'. split; [exact Hput|]. exact Harr.
Defined.

(** ** C5 *)

Lemma configuration_error_counterexample :
  length (m_size box_block) = 3%nat /\
  snd (configure_filter backend_sat (FilterSeq [box_filter]) true box_block)
  = Some NameError /\
  ~ spec_configuration_error (FilterSeq [box_filter]) box_block.
Proof.
  split; [reflexivity|]. split; [reflexivity|].
  intros [H|[l [H [H1 _]]]]; [discriminate|].
  injection H as <-. apply H1. reflexivity.
Qed.

(** ** C6 *)

(** C6.  The buffer that [put_] leaves is meant not to depend on the
    order of the samples nor on the split into batches; with the
    normalisation enabled the code rescales the weights of every lane by
    the factor of the first lane, [factor[0]], and the property fails.
    On a one-axis block of four cells with a tent filter of radius 3/2,
    the batch [inner; outer] leaves weight 3/4 in cell 3 where the batch
    [outer; inner] leaves 3, and it leaves 1/4 in cell 0 where the two
    samples put one after the other leave 1. *)
Theorem put_order_dependent_when_normalized :
  m_normalize normalized_block_1d = true /\
  exists b1 b2 b3 b4 q1 q2 q3 q4,
    put_ backend_sat normalized_block_1d [inner_sample; outer_sample] = Ok b1 /\
    put_ backend_sat normalized_block_1d [outer_sample; inner_sample] = Ok b2 /\
    put_ backend_sat normalized_block_1d [inner_sample] = Ok b3 /\
    put_ backend_sat b3 [outer_sample] = Ok b4 /\
    tensor_get (m_data b1) [3; 4] = Some q1 /\
    tensor_get (m_data b2) [3; 4] = Some q2 /\
    ~ (q1 == q2)%Q /\
    tensor_get (m_data b1) [0; 4] = Some q3 /\
    tensor_get (m_data b4) [0; 4] = Some q4 /\
    ~ (q3 == q4)%Q.
Proof.
  split; [reflexivity|].
  exists (block_of (put_ backend_sat normalized_block_1d
                         [inner_sample; outer_sample])).
  exists (block_of (put_ backend_sat normalized_block_1d
                         [outer_sample; inner_sample])).
  exists (block_of (put_ backend_sat normalized_block_1d [inner_sample])).
  exists (block_of
            (put_ backend_sat
               (block_of (put_ backend_sat normalized_block_1d [inner_sample]))
               [outer_sample])).
  eexists. eexists. eexists. eexists.
  split; [vm_compute; reflexivity|].
  split; [vm_compute; reflexivity|].
  split; [vm_compute; reflexivity|].
  split; [vm_compute; reflexivity|].
  split; [vm_compute; reflexivity|].
  split; [vm_compute; reflexivity|].
  split; [vm_compute; discriminate|].
  split; [vm_compute; reflexivity|].
  split; [vm_compute; reflexivity|].
  vm_compute; discriminate.
Qed.

(** ** C7 *)

Lemma box_batch_in_bounds :
  forall s, In s [centre_sample; corner_sample] ->
    m_channel_count box_block <= Z.of_nat (length (s_value s)) /\
    forall j, (j < length (m_size box_block))%nat ->
              0 <= fast_lo box_block s j < size_at box_block j.
Proof.
  intros s [<-|[<-|[]]]; (split; [vm_compute; discriminate|]);
    intros j Hj; concrete_axis j Hj.
Qed.

Lemma put_conserves_energy_witness :
  (active_sum 0 [centre_sample; corner_sample] == 3)%Q /\
  exists b',
    put_ backend_sat box_block [centre_sample; corner_sample] = Ok b' /\
    (channel_sum (m_channel_count box_block) 0 (array (m_data b'))
     == channel_sum (m_channel_count box_block) 0
                    (array (m_data box_block))
        + active_sum 0 [centre_sample; corner_sample])%Q.
Proof.
  split; [vm_compute; reflexivity|].
  apply (put_conserves_energy backend_sat box_block
           [centre_sample; corner_sample] 0
           backend_sat_ok box_block_geometry box_block_allocated
           box_block_fast box_batch_in_bounds).
  vm_compute; split; [discriminate | reflexivity].
Defined.

(** ** C8 *)


(** ** C9 *)




(** ** C10 *)


(** * Further properties *)

(** * Further properties of the constructor and the configuration *)


Lemma map2_map_border (size : list Z) (fl : list Filter) :
  map2 (fun d o => d + 2 * o) size (map f_border_size fl)
  = map2 (fun d f => d + 2 * f_border_size f) size fl.
Proof.
  revert fl; induction size as [|d size IH]; intros [|f fl]; simpl; auto.
  rewrite IH. reflexivity.
Qed.

Lemma filter_list_configured bk filter border b :
  snd (configure_filter bk filter border b) = None ->
  length (filter_list filter (length (m_size b))) = length (m_size b) /\
  fst (configure_filter bk filter border b)
  = configured bk (filter_list filter (length (m_size b))) border b.
Proof.
  unfold configure_filter, configured.
  destruct filter as [|f|l]; simpl; [discriminate| |].
  - rewrite repeat_length, Nat.eqb_refl. simpl. auto.
  - destruct (length (m_size b) =? length l)%nat eqn:E; simpl;
      [|discriminate].
    apply Nat.eqb_eq in E. auto.
Qed.

(** X2.  A block built by the constructor with [border=True], positive
    dimensions, filters with non-negative border and radius and a buffer
    that 32-bit indices can address holds a zero-filled buffer of
    [size + 2 * border] cells per axis with [channel_count] channels, a
    zero origin shift, and satisfies the invariants the theorems on [put_]
    and [develop] assume. *)
Theorem init_establishes bk size ch filter wn wi normalize b :
  let fl := filter_list filter (length size) in
  let ext := map2 (fun d f => d + 2 * f_border_size f) size fl in
  init bk size ch filter wn wi true normalize = Ok b ->
  Forall (fun d => 0 < d) size ->
  Forall (fun f => 0 <= f_border_size f /\ (0 <= f_radius f)%Q) fl ->
  1 <= ch ->
  ch * zprod ext < 2 ^ 32 ->
  m_size b = size /\ m_channel_count b = ch /\
  m_filter b = Some fl /\ length fl = length size /\
  m_data b = mkTensor (ext ++ [ch])
                      (repeat (0#1)%Q (Z.to_nat (ch * zprod ext))) /\
  m_original_border_size b = NdArr (map f_border_size fl) /\
  m_border_size b = NdArr (map f_border_size fl) /\
  m_border_offset b = NdArr (repeat 0 (length size)) /\
  geometry_ok b /\ allocated b /\ filters_ok b /\ offsets_ok b.
Proof.
  intros fl ext H Hs Hfl Hch Hsmall.
  assert (Hb : m_filter b = Some fl /\ length fl = length size /\
               m_data b = mkTensor (ext ++ [ch])
                            (repeat (0#1)%Q (Z.to_nat (ch * zprod ext))) /\
               m_original_border_size b = NdArr (map f_border_size fl) /\
               m_border_size b = NdArr (map f_border_size fl) /\
               m_border_offset b = NdArr (repeat 0 (length size)) /\
               padded b = ext).
  { unfold init in H.
    destruct (forallb (Z.eqb 0) size); [destruct filter; discriminate|].
    set (b0 := mkBlock (repeat 0 (length size)) size ch wn wi normalize None
                       (NdScalar 0) (NdScalar 0) (NdScalar 0) [] []
                       (mkTensor [] [])) in *.
    pose proof (filter_list_configured bk filter true b0) as Hc.
    destruct (configure_filter bk filter true b0) as [b1 [e|]];
      [discriminate|].
    injection H as <-.
    destruct (Hc eq_refl) as [Hlen Hb1]. simpl in Hb1, Hlen. subst b1.
    fold fl in Hlen |- *.
    unfold configured, clear, padded. simpl.
    rewrite map2_add_double, map2_map_border. fold ext.
    repeat split; auto. }
  destruct Hb as [Hf [Hlen [Hd [Ho [Hbs [Hbo Hp]]]]]].
  destruct (init_ok bk size ch filter wn wi normalize b H Hs)
    as [H1 [H2 [H3 [H4 [H5 H6]]]]]; auto.
  - intros fl' Hf'. rewrite Hf in Hf'. injection Hf' as <-. exact Hfl.
  - rewrite Hp. exact Hsmall.
  - split; [exact H1|]. split; [exact H2|]. split; [exact Hf|].
    split; [exact Hlen|]. split; [exact Hd|]. split; [exact Ho|].
    split; [exact Hbs|]. split; [exact Hbo|]. auto.
Qed.

(** X3.  A call of [put_] that returns changes the contents of the
    buffer and the weight table only: dimensions, channel count, filters,
    borders, origin shift, the shape and the length of the buffer are
    kept, and with them the invariants of a configured block. *)
Theorem put_keeps_configuration bk b batch b' :
  put_ bk b batch = Ok b' ->
  (m_size b' = m_size b /\ m_channel_count b' = m_channel_count b /\
   m_filter b' = m_filter b /\ filter_radius b' = filter_radius b /\
   m_border_size b' = m_border_size b /\
   m_original_border_size b' = m_original_border_size b /\
   m_border_offset b' = m_border_offset b /\
   shape (m_data b') = shape (m_data b) /\
   length (array (m_data b')) = length (array (m_data b))) /\
  (geometry_ok b -> allocated b -> filters_ok b -> offsets_ok b ->
   geometry_ok b' /\ allocated b' /\ filters_ok b' /\ offsets_ok b').
Proof.
  intros H. split.
  - destruct (put_preserves bk b batch b' H)
      as [H1 [H2 [H3 [H4 [H5 [H6 [H7 [_ [H8 H9]]]]]]]]].
    repeat split; assumption.
  - apply (put_preserves_ok bk b batch b' H).
Qed.

Lemma tap_enabled_inactive bk b s idxs :
  s_active s = false -> tap_enabled bk b s idxs = false.
Proof.
  intros Ha. destruct (tap_enabled bk b s idxs) eqn:E; [|reflexivity].
  apply tap_enabled_spec in E. destruct E as [E _]. congruence.
Qed.

(** X4.  Inactive samples contribute nothing: when no sample of the
    batch is active, a call of [put_] that returns leaves the buffer as
    it was, in the fast path and in the general path. *)
Theorem put_inactive_noop bk b batch b' :
  filters_ok b ->
  (forall s, In s batch -> s_active s = false) ->
  put_ bk b batch = Ok b' ->
  m_data b' = m_data b.
Proof.
  intros Hfil Hin H. unfold put_ in H.
  destruct (put_scatters bk b batch) as [[W ops]|e] eqn:Hp; [|discriminate].
  cbn [bind snd fst] in H.
  assert (Hm : Forall (fun sc => sc_mask sc = false) ops).
  { apply Forall_forall. intros sc Hsc.
    destruct (general_path bk b) eqn:Hg.
    - destruct (general_scatters_In bk b batch W ops sc Hfil Hg Hp Hsc)
        as [v [s [k [_ [Hs [_ [_ Hmask]]]]]]].
      rewrite Hmask. apply tap_enabled_inactive, Hin, Hs.
    - unfold put_scatters in Hp. rewrite Hg in Hp.
      destruct (fast_scatters bk b batch) as [ops'|e] eqn:Hf; [|discriminate].
      cbn [bind] in Hp. injection Hp as _ <-.
      destruct (fast_scatters_In bk b batch ops' sc Hf Hsc)
        as [s [k [Hs [_ [_ Hmask]]]]].
      rewrite Hmask. unfold fast_enabled. rewrite (Hin s Hs). reflexivity. }
  rewrite (scatter_reduce_add_masked ops _ Hm) in H.
  cbn [bind] in H. injection H as <-.
  simpl. destruct (m_data b); reflexivity.
Qed.

(** * Further properties of [develop] and [clear] *)

Lemma map2_add_zero (size : list Z) : forall D,
  D = length size ->
  map2 Z.add size (map (Z.mul 2) (repeat 0 D)) = size.
Proof.
  induction size as [|d size IH]; intros D ->; simpl; auto.
  rewrite IH by reflexivity. f_equal. lia.
Qed.

Lemma develop_scalar_border bk b z shp ch gamma integer :
  m_original_border_size b = NdScalar z ->
  shape (m_data b) = shp ++ [ch] ->
  Forall (fun d => 0 < d) shp -> 5 <= ch ->
  Z.of_nat (length (array (m_data b))) = ch * zprod shp ->
  ch * zprod shp < 2 ^ 32 ->
  develop bk gamma integer false b = Raise TypeError.
Proof.
  intros Ho Hsh Hs Hch Hlen Hsmall. unfold develop. rewrite Ho.
  destruct (m_data b) as [shp' arr]. simpl in Hsh, Hlen. subst shp'.
  destruct (develop_values_total bk arr shp ch gamma Hs Hch Hlen Hsmall)
    as [vals [Hv _]].
  rewrite Hv. reflexivity.
Qed.

(** X5.  A block built with [border=False] stores its border as a 0-d
    array, over which [develop] cannot iterate: [develop] with
    [raw=False] raises [TypeError] on the new block and after every call
    of [put_]. *)
Theorem develop_without_border_raises
        bk size ch filter wn wi normalize b gamma integer :
  init bk size ch filter wn wi false normalize = Ok b ->
  Forall (fun d => 0 < d) size -> 5 <= ch -> ch * zprod size < 2 ^ 32 ->
  develop bk gamma integer false b = Raise TypeError /\
  forall batch b',
    put_ bk b batch = Ok b' ->
    develop bk gamma integer false b' = Raise TypeError.
Proof.
  intros H Hs Hch Hsmall.
  assert (Hb : m_original_border_size b = NdScalar 0 /\
               shape (m_data b) = size ++ [ch] /\
               Z.of_nat (length (array (m_data b))) = ch * zprod size).
  { unfold init in H.
    destruct (forallb (Z.eqb 0) size); [destruct filter; discriminate|].
    set (b0 := mkBlock (repeat 0 (length size)) size ch wn wi normalize None
                       (NdScalar 0) (NdScalar 0) (NdScalar 0) [] []
                       (mkTensor [] [])) in *.
    pose proof (filter_list_configured bk filter false b0) as Hc.
    destruct (configure_filter bk filter false b0) as [b1 [e|]];
      [discriminate|].
    injection H as <-.
    destruct (Hc eq_refl) as [_ Hb1]. simpl in Hb1. subst b1.
    unfold configured, clear. simpl.
    rewrite map2_add_zero by reflexivity.
    split; [reflexivity|]. split; [reflexivity|].
    rewrite repeat_length, Z2Nat.id; [reflexivity|].
    pose proof (zprod_pos size Hs). nia. }
  destruct Hb as [Ho [Hsh Hlen]].
  split.
  - apply (develop_scalar_border bk b 0 size ch); auto.
  - intros batch b' Hput.
    destruct (put_preserves bk b batch b' Hput)
      as [_ [_ [_ [_ [_ [Ho' [_ [_ [Hsh' Hlen']]]]]]]]].
    apply (develop_scalar_border bk b' 0 size ch); auto; congruence.
Qed.

(** X6.  Configuring again with filters whose borders are the original
    ones leaves the origin shift as it is: after a shrink, going back to
    the original filters restores [m_border_size] but keeps the shift of
    the shrink, so that border plus shift exceeds the original border by
    the width the shrink removed. *)
Theorem shrink_then_restore_keeps_shift bk b obs fl0 fl1 :
  m_filter b <> None ->
  m_original_border_size b = NdArr obs ->
  length fl0 = length (m_size b) -> length fl1 = length (m_size b) ->
  map f_border_size fl0 = obs ->
  Forall2 (fun f o => 0 <= f_border_size f <= o /\ o < 2 ^ 32) fl1 obs ->
  map f_border_size fl1 <> obs ->
  let b1 := fst (configure_filter bk (FilterSeq fl1) true b) in
  let b2 := fst (configure_filter bk (FilterSeq fl0) true b1) in
  snd (configure_filter bk (FilterSeq fl0) true b1) = None /\
  m_border_size b2 = NdArr obs /\
  m_original_border_size b2 = NdArr obs /\
  m_border_offset b2 = NdArr (map2 Z.sub obs (map f_border_size fl1)) /\
  m_border_offset b2 <> NdArr (repeat 0 (length (m_size b))) /\
  forall j, border_size_at b2 j + border_offset_at b2 j
            = nth j obs 0 + (nth j obs 0 - nth j (map f_border_size fl1) 0).
Proof.
  intros Hf Ho Hl0 Hl1 Hb0 Hb1 Hne b1 b2.
  assert (Hlo : length obs = length (m_size b)).
  { rewrite <- Hb0, length_map. exact Hl0. }
  assert (E1 : b1 = configured bk fl1 true b).
  { pose proof (filter_list_configured bk (FilterSeq fl1) true b) as Hc.
    destruct Hc as [_ Hc]; [apply configure_filter_seq; exact Hl1|].
    exact Hc. }
  assert (Hb1f : m_filter b1 = Some fl1 /\ m_size b1 = m_size b /\
                 m_original_border_size b1 = NdArr obs /\
                 m_border_offset b1
                 = NdArr (map2 Z.sub obs (map f_border_size fl1))).
  { rewrite E1. unfold configured.
    destruct (m_filter b) as [fl|] eqn:Ef; [|congruence].
    simpl. rewrite Ho. split; [reflexivity|]. split; [reflexivity|].
    split; [reflexivity|].
    unfold nd_any_ne. simpl.
    rewrite any_ne_lists; [|rewrite length_map; lia|exact Hne].
    simpl. rewrite shrink_offsets by exact Hb1. reflexivity. }
  destruct Hb1f as [Hf1 [Hs1 [Ho1 Hbo1]]].
  assert (Hok : snd (configure_filter bk (FilterSeq fl0) true b1) = None).
  { apply configure_filter_seq. rewrite Hs1. exact Hl0. }
  assert (E2 : b2 = configured bk fl0 true b1).
  { pose proof (filter_list_configured bk (FilterSeq fl0) true b1 Hok)
      as [_ Hc]. exact Hc. }
  assert (Hsame : nd_any_ne (NdArr (map f_border_size fl0)) (NdArr obs)
                  = false).
  { rewrite Hb0. unfold nd_any_ne. simpl.
    clear. induction obs as [|o obs IH]; simpl; auto.
    rewrite Z.eqb_refl. simpl. exact IH. }
  assert (Hb2 : m_border_size b2 = NdArr obs /\
                m_original_border_size b2 = NdArr obs /\
                m_border_offset b2
                = NdArr (map2 Z.sub obs (map f_border_size fl1)) /\
                m_size b2 = m_size b).
  { rewrite E2. unfold configured. rewrite Hf1. simpl.
    rewrite Ho1, Hsame, Hb0, Hbo1, Hs1. auto. }
  destruct Hb2 as [Hbs2 [Ho2 [Hbo2 Hs2]]].
  split; [exact Hok|]. split; [exact Hbs2|]. split; [exact Ho2|].
  split; [exact Hbo2|]. split.
  - rewrite Hbo2. intros E. injection E as E. apply Hne.
    clear - E Hb1 Hlo.
    rewrite <- Hlo in E. clear Hlo.
    induction Hb1 as [|f o fl obs Hfo Hrest IH]; simpl in *; auto.
    injection E as E0 E'. f_equal; [lia | apply IH, E'].
  - intros j. unfold border_size_at, border_offset_at, dims.
    rewrite Hbs2, Hbo2. simpl.
    assert (Hl : length obs = length (map f_border_size fl1)).
    { rewrite length_map. lia. }
    destruct (Nat.lt_ge_cases j (length obs)) as [Hj|Hj].
    + rewrite (nth_map2 Z.sub obs (map f_border_size fl1) j 0 0 0 Hl Hj).
      reflexivity.
    + rewrite !(nth_overflow obs) by lia.
      rewrite (nth_overflow (map f_border_size fl1)) by lia.
      rewrite nth_overflow; [lia|].
      rewrite map2_length by exact Hl. lia.
Qed.

(** The entries of a cropped tensor are entries of the tensor. *)
Lemma tensor_getitem_In {A} (t t' : Tensor A) sl y :
  tensor_getitem t sl = Ok t' -> In y (array t') -> In y (array t).
Proof.
  unfold tensor_getitem.
  destruct (length (shape t) <? length sl)%nat; [discriminate|].
  destruct (mapM _ (enumerate (slice_shape (shape t) sl))) as [vals|e] eqn:Hm;
    [|discriminate].
  cbn [bind]. intros H Hy. injection H as <-. simpl in Hy.
  apply mapM_Forall2 in Hm.
  destruct (Forall2_In_r _ _ _ _ Hm Hy) as [idx [_ Hg]].
  apply gather_nth_error in Hg. destruct Hg as [_ Hg].
  eapply nth_error_In; eauto.
Qed.

(** The value [develop] computes for a cell of the logical window. *)
Lemma develop_cell bk b gamma integer t obs x c :
  geometry_ok b -> allocated b ->
  m_original_border_size b = NdArr obs ->
  5 <= m_channel_count b ->
  develop bk gamma integer false b = Ok t ->
  in_shape (m_size b) x -> 0 <= c < m_channel_count b - 2 ->
  exists v w,
    tensor_get (m_data b) (map2 Z.add x obs ++ [c]) = Some v /\
    tensor_get (m_data b) (map2 Z.add x obs ++ [4]) = Some w /\
    tensor_get t (x ++ [c])
    = Some (developed bk gamma (xmask (xdiv v w) (Qltb 0 w))).
Proof.
  intros Hg [Hshape Hlen] Ho Hch5 Hdev Hx Hc.
  destruct (geometry_padded b Hg) as [obs' [Ho' [Hl [Hobs [Hp Hpos]]]]].
  rewrite Ho in Ho'. injection Ho' as <-.
  destruct Hg as [Hs [_ Hsmall]].
  unfold develop in Hdev. rewrite Ho in Hdev.
  unfold tensor_get.
  destruct (m_data b) as [shp arr]. simpl in Hshape, Hlen, Hdev.
  simpl shape. simpl array. subst shp.
  destruct (develop_values bk (mkTensor (padded b ++ [m_channel_count b]) arr)
                           gamma) as [vals|e] eqn:Hv; [|discriminate].
  cbn [bind] in Hdev. rewrite removelast_snoc, last_snoc in Hdev.
  unfold develop_values in Hv. simpl shape in Hv. simpl array in Hv.
  rewrite removelast_snoc, last_snoc in Hv.
  set (ch := m_channel_count b) in *. set (tc := ch - 2) in *.
  pose proof (zprod_pos _ Hpos) as HP.
  assert (Hvl : Z.of_nat (length vals) = zprod (padded b) * tc).
  { rewrite (mapM_length _ _ _ Hv), arange_length. nia. }
  rewrite Hp in *.
  set (big := map2 (fun d o => d + 2 * o) (m_size b) obs) in *.
  destruct (tensor_getitem_crop vals (m_size b) obs tc)
    as [out [Hout [_ Hnth]]]; auto; try lia.
  fold big in Hout, Hnth.
  rewrite Hout in Hdev. injection Hdev as <-.
  simpl shape. simpl array.
  rewrite (Hnth x c Hx Hc).
  pose proof (in_shape_shift _ obs x Hx Hobs Hl) as Hsh. fold big in Hsh.
  pose proof (flat_index_bounds _ _ Hsh) as Hcell.
  rewrite !flat_index_snoc by (apply in_shape_length, Hsh).
  set (cell := flat_index big (map2 Z.add x obs)) in *.
  destruct (mapM_nth_error _ _ _ (Z.to_nat (cell * tc + c)) (cell * tc + c)
              Hv) as [y [Hy Hbody]].
  { rewrite arange_nth_error by nia. f_equal. nia. }
  rewrite Hy.
  assert (Hdiv : (cell * tc + c) / tc = cell).
  { rewrite Z.add_comm, Z.div_add by lia. rewrite Z.div_small by lia. lia. }
  assert (Hmod : (cell * tc + c) mod tc = c).
  { rewrite Z.add_comm, Z.mod_add by lia. apply Z.mod_small; lia. }
  rewrite Hdiv, Hmod in Hbody.
  rewrite (wrap32_small (cell * ch)) in Hbody by nia.
  rewrite (wrap32_small (cell * ch + 4)) in Hbody by nia.
  rewrite (wrap32_small (cell * ch + c)) in Hbody by nia.
  destruct (gather arr (cell * ch + 4)) as [w|e] eqn:Hgw; [|discriminate].
  cbn [bind] in Hbody.
  destruct (gather arr (cell * ch + c)) as [v|e] eqn:Hgv; [|discriminate].
  cbn [bind] in Hbody. injection Hbody as <-.
  apply gather_nth_error in Hgw. apply gather_nth_error in Hgv.
  exists v, w. split; [apply Hgv|]. split; [apply Hgw|]. reflexivity.
Qed.

Lemma Qltb_true x y : Qltb x y = true <-> (x < y)%Q.
Proof.
  unfold Qltb. rewrite negb_true_iff.
  split.
  - intros H. apply Qnot_le_lt. intros Hle.
    apply Qle_bool_iff in Hle. congruence.
  - intros H. destruct (Qle_bool y x) eqn:E; [|reflexivity].
    apply Qle_bool_iff in E. exfalso. apply (Qlt_not_le _ _ H E).
Qed.

Lemma xdiv_positive v w : (0 < w)%Q -> xdiv v w = XNum (v / w).
Proof.
  intros H. unfold xdiv.
  destruct (Qeq_bool w 0) eqn:E; [|reflexivity].
  apply Qeq_bool_iff in E. rewrite E in H. exfalso.
  apply (Qlt_irrefl 0 H).
Qed.

(** X7.  [develop] with [raw=False] divides by the weight: a channel
    [c] of the first [channel_count - 2] of a cell of the logical window
    holds the accumulated value of that channel divided by the
    accumulated weight (channel 4) when the weight is positive, and 0
    when the weight is zero or negative; the transfer curve is applied to
    that value when [gamma] is set. *)
Theorem develop_divides_by_weight bk b gamma integer t obs x c :
  geometry_ok b -> allocated b ->
  m_original_border_size b = NdArr obs ->
  5 <= m_channel_count b ->
  develop bk gamma integer false b = Ok t ->
  in_shape (m_size b) x -> 0 <= c < m_channel_count b - 2 ->
  exists v w,
    tensor_get (m_data b) (map2 Z.add x obs ++ [c]) = Some v /\
    tensor_get (m_data b) (map2 Z.add x obs ++ [4]) = Some w /\
    ((0 < w)%Q ->
     tensor_get t (x ++ [c]) = Some (developed bk gamma (XNum (v / w)))) /\
    ((w <= 0)%Q ->
     tensor_get t (x ++ [c]) = Some (developed bk gamma (XNum 0))).
Proof.
  intros Hg Ha Ho Hch Hdev Hx Hc.
  destruct (develop_cell bk b gamma integer t obs x c Hg Ha Ho Hch Hdev Hx Hc)
    as [v [w [Hv [Hw Ht]]]].
  exists v, w. split; [exact Hv|]. split; [exact Hw|]. split.
  - intros Hpos. rewrite Ht.
    rewrite (proj2 (Qltb_true 0 w) Hpos), xdiv_positive by exact Hpos.
    reflexivity.
  - intros Hle. rewrite Ht.
    destruct (Qltb 0 w) eqn:E; [|reflexivity].
    apply Qltb_true in E. exfalso. apply (Qlt_not_le _ _ E Hle).
Qed.

Lemma develop_zero_buffer bk b gamma integer sz obs ch n :
  m_original_border_size b = NdArr obs ->
  m_data b = mkTensor (map2 (fun d o => d + 2 * o) sz obs ++ [ch])
                      (repeat (0#1)%Q n) ->
  Z.of_nat n = ch * zprod (map2 (fun d o => d + 2 * o) sz obs) ->
  Forall (fun d => 0 < d) sz -> Forall (fun o => 0 <= o) obs ->
  length obs = length sz -> 5 <= ch ->
  ch * zprod (map2 (fun d o => d + 2 * o) sz obs) < 2 ^ 32 ->
  exists out,
    develop bk gamma integer false b = Ok (mkTensor (sz ++ [ch - 2]) out) /\
    Z.of_nat (length out) = zprod (sz ++ [ch - 2]) /\
    Forall (eq (developed bk gamma (XNum 0))) out.
Proof.
  intros Ho Hd Hn Hs Hobs Hl Hch Hsmall.
  set (big := map2 (fun d o => d + 2 * o) sz obs) in *.
  assert (Hpos : Forall (fun d => 0 < d) big) by (apply padded_pos; auto).
  unfold develop. rewrite Ho, Hd. cbn [shape array].
  destruct (develop_values_total bk (repeat (0#1)%Q n) big ch gamma Hpos Hch)
    as [vals [Hv Hvl]]; [rewrite repeat_length; exact Hn | exact Hsmall |].
  rewrite Hv. cbn [bind]. rewrite removelast_snoc, last_snoc.
  assert (Hz : Forall (eq (developed bk gamma (XNum 0))) vals).
  { apply Forall_forall. intros y Hy.
    unfold develop_values in Hv. apply mapM_Forall2 in Hv.
    destruct (Forall2_In_r _ _ _ _ Hv Hy) as [i [_ Hb]].
    cbn [shape array] in Hb.
    match type of Hb with
    | bind (gather ?a ?j) _ = _ =>
        destruct (gather a j) as [w|e] eqn:Hw; [|discriminate]
    end.
    cbn [bind] in Hb.
    match type of Hb with
    | bind (gather ?a ?j) _ = _ =>
        destruct (gather a j) as [v|e] eqn:Hgv; [|discriminate]
    end.
    cbn [bind] in Hb. injection Hb as <-.
    apply gather_nth_error in Hw. apply gather_nth_error in Hgv.
    destruct Hw as [_ Hw]. destruct Hgv as [_ Hgv].
    apply nth_error_In, repeat_spec in Hw.
    apply nth_error_In, repeat_spec in Hgv. subst v w.
    reflexivity. }
  destruct (tensor_getitem_crop vals sz obs (ch - 2))
    as [out [Hout [Hol _]]]; auto; try lia.
  fold big in Hout. rewrite Hout.
  exists out. split; [reflexivity|]. split; [exact Hol|].
  apply Forall_forall. intros y Hy.
  apply (proj1 (Forall_forall _ _) Hz).
  apply (tensor_getitem_In _ _ _ y Hout). exact Hy.
Qed.

(** X8.  A cleared block develops to zeros: after [clear()], [develop]
    with [raw=False] returns a tensor of shape [dimensions] with
    [channel_count - 2] channels in which every entry is 0 (the value of
    the transfer curve at 0 when [gamma] is set), although every division
    is 0/0. *)
Theorem develop_after_clear bk b gamma integer :
  geometry_ok b -> 5 <= m_channel_count b ->
  exists t,
    develop bk gamma integer false (clear false b) = Ok t /\
    shape t = m_size b ++ [m_channel_count b - 2] /\
    Z.of_nat (length (array t)) = zprod (shape t) /\
    Forall (eq (developed bk gamma (XNum 0))) (array t).
Proof.
  intros Hg Hch.
  destruct (geometry_padded b Hg) as [obs [Ho [Hl [Hobs [Hp Hpos]]]]].
  destruct Hg as [Hs [_ Hsmall]].
  pose proof (zprod_pos _ Hpos) as HP.
  destruct (develop_zero_buffer bk (clear false b) gamma integer (m_size b) obs
              (m_channel_count b)
              (Z.to_nat (m_channel_count b * zprod (padded b))))
    as [out [Hdev [Hol Hz]]]; auto.
  - unfold clear. simpl. rewrite Ho. simpl.
    rewrite map2_add_double, <- Hp. reflexivity.
  - rewrite <- Hp, Z2Nat.id by nia. reflexivity.
  - rewrite <- Hp. exact Hsmall.
  - exists (mkTensor (m_size b ++ [m_channel_count b - 2]) out). auto.
Qed.

Lemma map2_sub_add (ext obs : list Z) :
  length obs = length ext ->
  map2 (fun d o => d + 2 * o) (map2 (fun e o => e - 2 * o) ext obs) obs = ext.
Proof.
  revert obs; induction ext as [|e ext IH]; intros [|o obs] H; simpl in *;
    try discriminate; auto.
  rewrite IH by lia. f_equal. lia.
Qed.

(** X9.  [clear(force=True)] allocates the buffer for the current
    border, while [develop] goes on cropping by the original border: on a
    block whose border was shrunk, [develop] after [clear(force=True)]
    returns a window that is [2 * (original - current)] cells short of
    [dimensions] on every axis. *)
Theorem develop_after_forced_clear bk b bs obs gamma integer :
  m_border_size b = NdArr bs ->
  m_original_border_size b = NdArr obs ->
  length bs = length (m_size b) -> length obs = length (m_size b) ->
  Forall (fun o => 0 <= o) obs ->
  let ext := map2 (fun d o => d + 2 * o) (m_size b) bs in
  let win := map2 (fun e o => e - 2 * o) ext obs in
  Forall (fun d => 0 < d) win ->
  5 <= m_channel_count b ->
  m_channel_count b * zprod ext < 2 ^ 32 ->
  shape (m_data (clear true b)) = ext ++ [m_channel_count b] /\
  (forall j, (j < length (m_size b))%nat ->
     nth j win 0
     = nth j (m_size b) 0 - 2 * (nth j obs 0 - nth j bs 0)) /\
  exists t,
    develop bk gamma integer false (clear true b) = Ok t /\
    shape t = win ++ [m_channel_count b - 2] /\
    Forall (eq (developed bk gamma (XNum 0))) (array t).
Proof.
  intros Hb Ho Hlb Hlo Hobs ext win Hwin Hch Hsmall.
  assert (Hle : length ext = length (m_size b)).
  { unfold ext. rewrite map2_length; lia. }
  assert (Hext : map2 (fun d o => d + 2 * o) win obs = ext).
  { unfold win. apply map2_sub_add. lia. }
  assert (Hshape : shape (m_data (clear true b)) = ext ++ [m_channel_count b]).
  { unfold clear. simpl. rewrite Hb. simpl. rewrite map2_add_double.
    reflexivity. }
  split; [exact Hshape|]. split.
  - intros j Hj. unfold win, ext.
    rewrite (nth_map2 _ _ _ j 0 0 0) by (rewrite ?map2_length; lia).
    rewrite (nth_map2 _ _ _ j 0 0 0) by lia. lia.
  - assert (Hpos : Forall (fun d => 0 < d) ext).
    { rewrite <- Hext. apply padded_pos; auto. }
    pose proof (zprod_pos _ Hpos) as HP.
    destruct (develop_zero_buffer bk (clear true b) gamma integer win obs
                (m_channel_count b)
                (Z.to_nat (m_channel_count b * zprod ext)))
      as [out [Hdev [Hol Hz]]]; auto.
    + unfold clear. simpl. rewrite Hb. simpl.
      rewrite map2_add_double, Hext. reflexivity.
    + rewrite Hext, Z2Nat.id by nia. reflexivity.
    + unfold win. rewrite map2_length; lia.
    + rewrite Hext. exact Hsmall.
    + exists (mkTensor (win ++ [m_channel_count b - 2]) out). auto.
Qed.

Lemma mapM_raise {A B} (f : A -> result B) l e :
  (forall a, In a l -> (exists y, f a = Ok y) \/ f a = Raise e) ->
  (exists a, In a l /\ f a = Raise e) ->
  mapM f l = Raise e.
Proof.
  induction l as [|a l IH]; intros Hall [x [Hx Hf]]; [destruct Hx|].
  simpl. destruct (Hall a (or_introl eq_refl)) as [[y Hy]|Hr].
  - rewrite Hy. cbn [bind].
    rewrite IH; [reflexivity | intros; apply Hall; right; assumption |].
    destruct Hx as [<-|Hx]; [congruence|]. eauto.
  - rewrite Hr. reflexivity.
Qed.

Lemma mapM_In_ok {A B} (f : A -> result B) l ys a :
  mapM f l = Ok ys -> In a l -> exists y, f a = Ok y.
Proof.
  intros H Ha. apply In_nth_error in Ha. destruct Ha as [i Hi].
  destruct (mapM_nth_error f l ys i a H Hi) as [y [_ Hy]]. eauto.
Qed.

Lemma gather_cases {A} (l : list A) i :
  (exists a, gather l i = Ok a) \/ gather l i = Raise OutOfBounds.
Proof.
  unfold gather. destruct (i <? 0); [auto|].
  destruct (nth_error l (Z.to_nat i)); eauto.
Qed.

Lemma gather_beyond {A} (l : list A) i :
  Z.of_nat (length l) <= i -> gather l i = Raise OutOfBounds.
Proof.
  intros H. unfold gather. destruct (Z.ltb_spec i 0); [reflexivity|].
  assert (E : nth_error l (Z.to_nat i) = None)
    by (apply nth_error_None; lia).
  rewrite E. reflexivity.
Qed.

(** X10.  The weight is read at channel 4 whatever the channel count: on
    an allocated block with 3 or 4 channels (and fewer than [2^32 - 1]
    buffer entries) the gather of [develop] for the last cell falls
    outside the buffer. *)
Theorem develop_few_channels_out_of_bounds bk b gamma integer :
  geometry_ok b -> allocated b ->
  3 <= m_channel_count b <= 4 ->
  m_channel_count b * zprod (padded b) + 1 < 2 ^ 32 ->
  develop bk gamma integer false b = Raise OutOfBounds.
Proof.
  intros Hg [Hshape Hlen] Hch Hsmall.
  destruct (geometry_padded b Hg) as [obs [Ho [Hl [Hobs [Hp Hpos]]]]].
  pose proof (zprod_pos _ Hpos) as HP.
  unfold develop.
  destruct (m_data b) as [shp arr]. simpl in Hshape, Hlen. subst shp.
  cbn [shape array].
  set (ch := m_channel_count b) in *. set (P := zprod (padded b)) in *.
  assert (Hv : develop_values bk (mkTensor (padded b ++ [ch]) arr) gamma
               = Raise OutOfBounds).
  { unfold develop_values. cbn [shape array].
    rewrite removelast_snoc, last_snoc. fold P.
    apply mapM_raise.
    - intros i _.
      destruct (gather_cases arr (wrap32 (wrap32 (i / (ch - 2) * ch) + 4)))
        as [[w ->] | ->]; [|right; reflexivity].
      cbn [bind].
      destruct (gather_cases arr
                  (wrap32 (wrap32 (i / (ch - 2) * ch) + i mod (ch - 2))))
        as [[v ->] | ->]; [|right; reflexivity].
      cbn [bind]. left. eauto.
    - exists (P * (ch - 2) - 1). split; [apply In_arange; nia|].
      assert (Hdiv : (P * (ch - 2) - 1) / (ch - 2) = P - 1).
      { replace (P * (ch - 2) - 1) with ((ch - 3) + (P - 1) * (ch - 2))
          by nia.
        rewrite Z.div_add by lia. rewrite Z.div_small by lia. lia. }
      rewrite Hdiv.
      rewrite (wrap32_small ((P - 1) * ch)) by nia.
      rewrite (wrap32_small ((P - 1) * ch + 4)) by nia.
      rewrite gather_beyond by nia. reflexivity. }
  rewrite Hv. reflexivity.
Qed.

Lemma put_values_length bk p : length (s_value (put_values bk p)) = 5%nat.
Proof.
  destruct (put_values_fields bk p) as [_ [_ [r [g [bl [_ ->]]]]]].
  reflexivity.
Qed.

Lemma list_get_cases {A} (l : list A) i :
  (exists a, list_get l i = Ok a) \/ list_get l i = Raise IndexError.
Proof. unfold list_get. destruct (nth_error l (Z.to_nat i)); eauto. Qed.

Lemma values_beyond bk (batch : list PutSample) k :
  batch <> [] -> 5 <= k ->
  mapM (fun s => list_get (s_value s) k) (map (put_values bk) batch)
  = Raise IndexError.
Proof.
  intros Hb Hk. apply mapM_raise.
  - intros s _. apply list_get_cases.
  - destruct batch as [|p batch]; [congruence|].
    exists (put_values bk p). split; [left; reflexivity|].
    unfold list_get.
    assert (E : nth_error (s_value (put_values bk p)) (Z.to_nat k) = None).
    { apply nth_error_None. rewrite put_values_length. lia. }
    rewrite E. reflexivity.
Qed.

Lemma values_cases (batch : list Sample) k :
  (exists y, mapM (fun s => list_get (s_value s) k) batch = Ok y) \/
  mapM (fun s => list_get (s_value s) k) batch = Raise IndexError.
Proof.
  induction batch as [|s batch IH]; simpl; [eauto|].
  destruct (list_get_cases (s_value s) k) as [[a ->] | ->]; [|auto].
  cbn [bind]. destruct IH as [[y ->] | ->]; cbn [bind]; eauto.
Qed.

(** X11.  [put] passes five values per sample (red, green, blue, alpha
    and the weight 1.0): on a block with more than five channels a call
    with at least one sample never returns, because the loop over the
    channels reads [value[5]]; in the fast path the exception is
    [IndexError]. *)
Theorem put_needs_five_values bk b batch :
  5 < m_channel_count b -> batch <> [] ->
  (forall b', put bk b batch <> Ok b') /\
  (general_path bk b = false -> put bk b batch = Raise IndexError).
Proof.
  intros Hch Hb.
  assert (Hfast : fast_scatters bk b (map (put_values bk) batch)
                  = Raise IndexError).
  { unfold fast_scatters.
    rewrite (mapM_raise _ (arange (m_channel_count b)) IndexError);
      [reflexivity| |].
    - intros k _.
      destruct (values_cases (map (put_values bk) batch) k) as [[y ->] | ->];
        cbn [bind]; eauto.
    - exists 5. split; [apply In_arange; lia|].
      rewrite values_beyond by (auto; lia). reflexivity. }
  assert (Htap : forall w idxs ops,
             tap_scatters bk b (map (put_values bk) batch) w idxs <> Ok ops).
  { intros w idxs ops H. unfold tap_scatters in H.
    destruct (mapM _ (arange (m_channel_count b))) as [calls|e] eqn:Hm;
      [|discriminate].
    destruct (mapM_In_ok _ _ _ 5 Hm) as [y Hy]; [apply In_arange; lia|].
    rewrite values_beyond in Hy by (auto; lia). discriminate. }
  split.
  - intros b' H. unfold put, put_, put_scatters in H.
    destruct (general_path bk b).
    + destruct (m_filter b) as [fl|]; [|discriminate].
      destruct (fill_weights _ _ _ _ _ _ _ _) as [W1|e]; [|discriminate].
      cbn [bind] in H.
      destruct (if m_normalize b then _ else _) as [W2|e]; [|discriminate].
      cbn [bind] in H.
      pose proof (tap_total_pos (taps bk b)) as Hpos.
      destruct (Z.to_nat (tap_total (taps bk b))) as [|fuel] eqn:Ef; [lia|].
      cbn [tap_loop] in H.
      destruct (gather_weight _ _ _ _ _) as [w|e]; [|discriminate].
      cbn [bind] in H.
      destruct (tap_scatters _ _ _ _ _) as [ops|e] eqn:Ht;
        [|discriminate].
      exact (Htap _ _ _ Ht).
    + rewrite Hfast in H. discriminate.
  - intros Hg. unfold put, put_, put_scatters. rewrite Hg, Hfast. reflexivity.
Qed.

(** * Scatter-adds, entry by entry *)

Lemma nth_list_update {A} (l : list A) j x d : forall i,
  nth i (list_update l j x) d
  = if ((i =? j) && (j <? length l))%nat then x else nth i l d.
Proof.
  revert j; induction l as [|a l IH]; intros j i.
  - simpl. rewrite andb_false_r. reflexivity.
  - destruct j as [|j]; destruct i as [|i]; simpl; auto.
Qed.

Lemma scatter_add_cell target sc t i :
  scatter_add target sc = Ok t ->
  (nth i t (0#1) == nth i target (0#1) + cell_gain i sc)%Q.
Proof.
  unfold scatter_add, cell_gain. destruct (sc_mask sc); simpl.
  - destruct (Z.ltb_spec (sc_index sc) 0); [discriminate|].
    destruct (nth_error target (Z.to_nat (sc_index sc))) as [old|] eqn:E;
      [|discriminate].
    intros Ht. injection Ht as <-.
    assert (Hlt : (Z.to_nat (sc_index sc) < length target)%nat).
    { apply nth_error_Some. congruence. }
    rewrite nth_list_update.
    destruct (Z.eqb_spec (sc_index sc) (Z.of_nat i)) as [Ei|Ei].
    + assert (Ej : Z.to_nat (sc_index sc) = i) by lia. subst i.
      rewrite Nat.eqb_refl. simpl.
      apply Nat.ltb_lt in Hlt. rewrite Hlt.
      rewrite (nth_error_nth _ _ _ E). reflexivity.
    + destruct (Nat.eqb_spec i (Z.to_nat (sc_index sc))) as [Ej|Ej];
        [lia|]. simpl. ring.
  - intros Ht. injection Ht as <-. ring.
Qed.

Lemma scatter_reduce_add_cell ops : forall target t i,
  scatter_reduce_add target ops = Ok t ->
  (nth i t (0#1) == nth i target (0#1) + qsum (map (cell_gain i) ops))%Q.
Proof.
  induction ops as [|sc ops IH]; intros target t i H; simpl in *.
  - injection H as <-. ring.
  - destruct (scatter_add target sc) as [t1|e] eqn:E; [|discriminate].
    cbn [bind] in H.
    rewrite (IH t1 t i H), (scatter_add_cell target sc t1 i E). ring.
Qed.

Lemma scatter_reduce_add_in_bounds ops : forall target t,
  scatter_reduce_add target ops = Ok t ->
  forall sc, In sc ops -> sc_mask sc = true ->
             0 <= sc_index sc < Z.of_nat (length target).
Proof.
  induction ops as [|sc0 ops IH]; intros target t H sc Hin Hm;
    [destruct Hin|].
  simpl in H.
  destruct (scatter_add target sc0) as [t1|e] eqn:E; [|discriminate].
  cbn [bind] in H. destruct Hin as [<-|Hin].
  - unfold scatter_add in E. rewrite Hm in E.
    destruct (Z.ltb_spec (sc_index sc0) 0); [discriminate|].
    destruct (nth_error target (Z.to_nat (sc_index sc0))) eqn:En;
      [|discriminate].
    assert (Hlt : (Z.to_nat (sc_index sc0) < length target)%nat).
    { apply nth_error_Some. congruence. }
    lia.
  - rewrite <- (scatter_add_length target sc0 t1 E).
    eapply IH; eauto.
Qed.

Lemma same_values_nth (l1 l2 : list Q) :
  length l1 = length l2 ->
  (forall i, (nth i l1 (0#1) == nth i l2 (0#1))%Q) ->
  same_values l1 l2.
Proof.
  revert l2; induction l1 as [|a l1 IH]; intros [|c l2] Hl Hn;
    simpl in Hl; try discriminate; constructor.
  - exact (Hn 0%nat).
  - apply IH; [lia|]. intros i. exact (Hn (S i)).
Qed.

(** * Sums *)

Lemma qsum_plus {A} (f g : A -> Q) l :
  (qsum (map (fun a => f a + g a) l) == qsum (map f l) + qsum (map g l))%Q.
Proof.
  induction l as [|a l IH]; simpl; [ring|]. rewrite IH. ring.
Qed.

Lemma qsum_const_zero {A} (l : list A) :
  (qsum (map (fun _ => (0#1)%Q) l) == 0)%Q.
Proof. induction l as [|a l IH]; simpl; [reflexivity|]. rewrite IH. ring. Qed.

Lemma qsum_swap {A B} (f : A -> B -> Q) (la : list A) (lb : list B) :
  (qsum (map (fun a => qsum (map (fun b => f a b) lb)) la)
   == qsum (map (fun b => qsum (map (fun a => f a b) la)) lb))%Q.
Proof.
  induction la as [|a la IH]; simpl.
  - symmetry. apply qsum_const_zero.
  - rewrite IH. symmetry. apply qsum_plus.
Qed.

Lemma qsum_Permutation {A} (f : A -> Q) l l' :
  Permutation l l' -> (qsum (map f l) == qsum (map f l'))%Q.
Proof.
  induction 1; simpl.
  - reflexivity.
  - rewrite IHPermutation. reflexivity.
  - ring.
  - rewrite IHPermutation1. exact IHPermutation2.
Qed.

(** * Lane-wise scatter-adds *)

Lemma lane_ops_In {C} (g : C -> Sample -> scatter) cs batch sc :
  In sc (lane_ops g cs batch) <->
  exists c s, In c cs /\ In s batch /\ sc = g c s.
Proof.
  unfold lane_ops. rewrite in_concat. split.
  - intros [l [Hl Hsc]]. apply in_map_iff in Hl.
    destruct Hl as [c [<- Hc]]. apply in_map_iff in Hsc.
    destruct Hsc as [s [<- Hs]]. eauto.
  - intros [c [s [Hc [Hs ->]]]].
    exists (map (g c) batch). split; apply in_map_iff; eauto.
Qed.

Lemma lane_ops_gain {C} (g : C -> Sample -> scatter) cs batch i :
  (qsum (map (cell_gain i) (lane_ops g cs batch))
   == qsum (map (sample_gain g cs i) batch))%Q.
Proof.
  unfold lane_ops, sample_gain.
  rewrite concat_map, map_map.
  rewrite (qsum_concat_map (fun c => map (cell_gain i) (map (g c) batch)) cs).
  rewrite <- (qsum_swap (fun c s => cell_gain i (g c s)) cs batch).
  apply qsum_ext. intros c _. rewrite map_map. reflexivity.
Qed.

Lemma lane_ops_nested {V K} (g : V -> K -> Sample -> scatter) vs ks batch :
  concat (map (fun v => lane_ops (g v) ks batch) vs)
  = lane_ops (fun c => g (fst c) (snd c)) (list_prod vs ks) batch.
Proof.
  unfold lane_ops. induction vs as [|v vs IH]; simpl; [reflexivity|].
  rewrite IH, map_app, concat_app, map_map. reflexivity.
Qed.

(** The buffer after lane-wise scatter-adds: every entry has grown by
    the sum over the samples of what the sample brings to it. *)
Lemma lane_ops_result {C} (g : C -> Sample -> scatter) cs batch target t i :
  scatter_reduce_add target (lane_ops g cs batch) = Ok t ->
  (nth i t (0#1)
   == nth i target (0#1) + qsum (map (sample_gain g cs i) batch))%Q.
Proof.
  intros H. rewrite (scatter_reduce_add_cell _ _ _ i H), lane_ops_gain.
  reflexivity.
Qed.

Lemma lane_ops_exists {C} (g : C -> Sample -> scatter) cs batch batch'
      target target' t :
  scatter_reduce_add target (lane_ops g cs batch) = Ok t ->
  length target' = length target ->
  (forall s, In s batch' -> In s batch) ->
  exists t', scatter_reduce_add target' (lane_ops g cs batch') = Ok t'.
Proof.
  intros H Hl Hsub. apply scatter_reduce_add_total.
  intros sc Hsc Hm. rewrite Hl.
  apply (scatter_reduce_add_in_bounds _ _ _ H sc); [|exact Hm].
  apply lane_ops_In in Hsc. destruct Hsc as [c [s [Hc [Hs ->]]]].
  apply lane_ops_In. exists c, s. auto.
Qed.

(** Permuting the batch does not change the result. *)
Lemma lane_ops_permutation {C} (g : C -> Sample -> scatter) cs batch batch'
      target t :
  Permutation batch batch' ->
  scatter_reduce_add target (lane_ops g cs batch) = Ok t ->
  exists t',
    scatter_reduce_add target (lane_ops g cs batch') = Ok t' /\
    same_values t t'.
Proof.
  intros Hp H.
  destruct (lane_ops_exists g cs batch batch' target target t H eq_refl)
    as [t' Ht'].
  { intros s Hs. apply (Permutation_in _ (Permutation_sym Hp) Hs). }
  exists t'. split; [exact Ht'|].
  apply same_values_nth.
  - rewrite (scatter_reduce_add_length _ _ _ H),
            (scatter_reduce_add_length _ _ _ Ht'). reflexivity.
  - intros i. rewrite (lane_ops_result _ _ _ _ _ i H),
                      (lane_ops_result _ _ _ _ _ i Ht').
    rewrite (qsum_Permutation _ _ _ Hp). reflexivity.
Qed.

(** One batch or two batches one after the other. *)
Lemma lane_ops_split {C} (g : C -> Sample -> scatter) cs l1 l2 target t :
  scatter_reduce_add target (lane_ops g cs (l1 ++ l2)) = Ok t ->
  exists t1 t2,
    scatter_reduce_add target (lane_ops g cs l1) = Ok t1 /\
    scatter_reduce_add t1 (lane_ops g cs l2) = Ok t2 /\
    same_values t t2.
Proof.
  intros H.
  destruct (lane_ops_exists g cs (l1 ++ l2) l1 target target t H eq_refl)
    as [t1 Ht1].
  { intros s Hs. apply in_or_app. auto. }
  destruct (lane_ops_exists g cs (l1 ++ l2) l2 target t1 t H) as [t2 Ht2].
  { apply (scatter_reduce_add_length _ _ _ Ht1). }
  { intros s Hs. apply in_or_app. auto. }
  exists t1, t2. split; [exact Ht1|]. split; [exact Ht2|].
  apply same_values_nth.
  - rewrite (scatter_reduce_add_length _ _ _ H),
            (scatter_reduce_add_length _ _ _ Ht2),
            (scatter_reduce_add_length _ _ _ Ht1). reflexivity.
  - intros i. rewrite (lane_ops_result _ _ _ _ _ i H),
                      (lane_ops_result _ _ _ _ _ i Ht2),
                      (lane_ops_result _ _ _ _ _ i Ht1).
    rewrite qsum_map_app. ring.
Qed.

Lemma lane_ops_join {C} (g : C -> Sample -> scatter) cs l1 l2 target t1 t2 :
  scatter_reduce_add target (lane_ops g cs l1) = Ok t1 ->
  scatter_reduce_add t1 (lane_ops g cs l2) = Ok t2 ->
  exists t,
    scatter_reduce_add target (lane_ops g cs (l1 ++ l2)) = Ok t /\
    same_values t t2.
Proof.
  intros H1 H2.
  pose proof (scatter_reduce_add_length _ _ _ H1) as Hl1.
  pose proof (scatter_reduce_add_length _ _ _ H2) as Hl2.
  destruct (scatter_reduce_add_total (lane_ops g cs (l1 ++ l2)) target)
    as [t Ht].
  { intros sc Hsc Hm. apply lane_ops_In in Hsc.
    destruct Hsc as [c [s [Hc [Hs ->]]]]. apply in_app_or in Hs.
    destruct Hs as [Hs|Hs].
    - apply (scatter_reduce_add_in_bounds _ _ _ H1 (g c s)); [|exact Hm].
      apply lane_ops_In. eauto.
    - rewrite <- Hl1.
      apply (scatter_reduce_add_in_bounds _ _ _ H2 (g c s)); [|exact Hm].
      apply lane_ops_In. eauto. }
  exists t. split; [exact Ht|].
  apply same_values_nth.
  - rewrite (scatter_reduce_add_length _ _ _ Ht). lia.
  - intros i. rewrite (lane_ops_result _ _ _ _ _ i Ht),
                      (lane_ops_result _ _ _ _ _ i H2),
                      (lane_ops_result _ _ _ _ _ i H1).
    rewrite qsum_map_app. ring.
Qed.

(** * The scatter-adds of [put_] are lane-wise *)

Lemma Forall2_map_eq {A B} (F : A -> B) l ys :
  Forall2 (fun a y => y = F a) l ys -> ys = map F l.
Proof. induction 1; simpl; congruence. Qed.

Lemma values_map (batch : list Sample) k value_k :
  mapM (fun s => list_get (s_value s) k) batch = Ok value_k ->
  value_k = map (fun s => nth (Z.to_nat k) (s_value s) (0#1)%Q) batch /\
  forall s, In s batch -> (Z.to_nat k < length (s_value s))%nat.
Proof.
  intros H. split.
  - apply Forall2_map_eq. apply mapM_Forall2 in H.
    eapply Forall2_impl; [|exact H]. intros s x Hx.
    apply list_get_Ok in Hx. symmetry. apply nth_error_nth. exact Hx.
  - intros s Hs. destruct (mapM_In_ok _ _ _ s H Hs) as [x Hx].
    apply list_get_Ok in Hx. apply nth_error_Some. congruence.
Qed.

Lemma values_exist (batch : list Sample) k :
  (forall s, In s batch -> (Z.to_nat k < length (s_value s))%nat) ->
  mapM (fun s => list_get (s_value s) k) batch
  = Ok (map (fun s => nth (Z.to_nat k) (s_value s) (0#1)%Q) batch).
Proof.
  intros H. apply mapM_map. intros s Hs. unfold list_get.
  destruct (nth_error (s_value s) (Z.to_nat k)) as [x|] eqn:E.
  - rewrite (nth_error_nth _ _ _ E). reflexivity.
  - apply nth_error_None in E. specialize (H s Hs). lia.
Qed.

(** The calls of one pass over the channels. *)
Lemma calls_lanewise (I : Sample -> Z -> Z) (M : Sample -> bool)
      (G : list Q -> list Q) (h : Sample -> Q -> Q) ch batch calls :
  (forall vf : Sample -> Q,
     G (map vf batch) = map (fun s => h s (vf s)) batch) ->
  mapM (fun k =>
          value_k <- mapM (fun s => list_get (s_value s) k) batch ;;
          Ok (map2 (fun s x => mkScatter (I s k) x (M s)) batch (G value_k)))
       (arange ch) = Ok calls ->
  concat calls
  = lane_ops (fun k s => mkScatter (I s k)
                           (h s (nth (Z.to_nat k) (s_value s) (0#1)%Q))
                           (M s))
             (arange ch) batch /\
  values_ok ch batch.
Proof.
  intros HG H. split.
  - unfold lane_ops. f_equal. apply Forall2_map_eq.
    apply mapM_Forall2 in H. eapply Forall2_impl; [|exact H].
    intros k call Hk. cbv beta in Hk.
    destruct (mapM (fun s => list_get (s_value s) k) batch) as [vk|e] eqn:Hv;
      [|discriminate].
    cbn [bind] in Hk. injection Hk as <-.
    destruct (values_map batch k vk Hv) as [-> _].
    rewrite HG. apply map2_map_r.
  - intros s k Hs Hk.
    destruct (mapM_In_ok _ _ _ k H) as [call Hc]; [apply In_arange; lia|].
    cbv beta in Hc.
    destruct (mapM (fun s => list_get (s_value s) k) batch) as [vk|e] eqn:Hv;
      [|discriminate].
    apply (values_map batch k vk Hv). exact Hs.
Qed.

Lemma calls_exist (I : Sample -> Z -> Z) (M : Sample -> bool)
      (G : list Q -> list Q) ch batch :
  values_ok ch batch ->
  exists calls,
    mapM (fun k =>
            value_k <- mapM (fun s => list_get (s_value s) k) batch ;;
            Ok (map2 (fun s x => mkScatter (I s k) x (M s)) batch
                     (G value_k)))
         (arange ch) = Ok calls.
Proof.
  intros H. apply mapM_total. intros k Hk. apply In_arange in Hk.
  rewrite values_exist by (intros s Hs; apply H; auto).
  cbn [bind]. eauto.
Qed.

Lemma fast_scatters_lanewise bk b batch ops :
  fast_scatters bk b batch = Ok ops ->
  ops = lane_ops (fast_op bk b) (arange (m_channel_count b)) batch /\
  values_ok (m_channel_count b) batch.
Proof.
  unfold fast_scatters. intros H.
  destruct (mapM _ (arange (m_channel_count b))) as [calls|e] eqn:Hm;
    [|discriminate].
  cbn [bind] in H. injection H as <-.
  apply (calls_lanewise (fun s k => wrap32 (fast_offset bk b s + wrap32 k))
                        (fast_enabled b) (fun l => l) (fun _ x => x)
                        _ _ _ (fun vf => eq_refl) Hm).
Qed.

Lemma fast_scatters_exist bk b batch :
  values_ok (m_channel_count b) batch ->
  exists ops, fast_scatters bk b batch = Ok ops.
Proof.
  intros H. unfold fast_scatters.
  destruct (calls_exist (fun s k => wrap32 (fast_offset bk b s + wrap32 k))
                        (fast_enabled b) (fun l => l)
                        (m_channel_count b) batch H) as [calls Hc].
  rewrite Hc. cbn [bind]. eauto.
Qed.

(** * The weight table of the general path *)

Lemma fill_fold (row : Z -> list Q) base : forall m s W Wf,
  0 <= base -> base + Z.of_nat (s + m) <= 2 ^ 32 ->
  fold_left (fun acc i => W' <- acc ;;
                          list_set W' (wrap32 (base + i)) (row i))
            (map Z.of_nat (seq s m)) (Ok W) = Ok Wf ->
  length Wf = length W /\
  forall i, nth_error Wf i
            = if ((Z.to_nat base + s <=? i)
                  && (i <? Z.to_nat base + s + m))%nat
              then Some (row (Z.of_nat i - base)) else nth_error W i.
Proof.
  induction m as [|m IH]; intros s W Wf Hb Hs H.
  - simpl in H. injection H as <-. split; [reflexivity|].
    intros i.
    destruct (Nat.leb_spec (Z.to_nat base + s) i);
      destruct (Nat.ltb_spec i (Z.to_nat base + s + 0)); simpl; auto; lia.
  - simpl in H. cbn [bind] in H.
    destruct (list_set W (wrap32 (base + Z.of_nat s)) (row (Z.of_nat s)))
      as [W1|e] eqn:E.
    2:{ rewrite fold_bind_raise in H. discriminate. }
    apply list_set_Ok in E. destruct E as [Hlt ->].
    rewrite wrap32_small in Hlt by lia.
    rewrite wrap32_small in H by lia.
    destruct (IH (S s) _ Wf Hb ltac:(lia) H) as [Hlen Hrows].
    rewrite list_update_length in Hlen. split; [exact Hlen|].
    intros i. rewrite Hrows, nth_error_list_update.
    replace (Z.to_nat (base + Z.of_nat s)) with (Z.to_nat base + s)%nat
      in * by lia.
    destruct (Nat.leb_spec (Z.to_nat base + S s) i);
      destruct (Nat.ltb_spec i (Z.to_nat base + S s + m));
      destruct (Nat.leb_spec (Z.to_nat base + s) i);
      destruct (Nat.ltb_spec i (Z.to_nat base + s + S m));
      destruct (Nat.eqb_spec i (Z.to_nat base + s)%nat);
      simpl; auto; try lia.
    subst i.
    destruct (nth_error W (Z.to_nat base + s)) eqn:En.
    + simpl. do 2 f_equal. lia.
    + apply nth_error_None in En. lia.
Qed.

Lemma fill_fold_exists (row row' : Z -> list Q) base l : forall W W' Wf,
  fold_left (fun acc i => W0 <- acc ;;
                          list_set W0 (wrap32 (base + i)) (row i))
            l (Ok W) = Ok Wf ->
  length W' = length W ->
  exists Wf',
    fold_left (fun acc i => W0 <- acc ;;
                            list_set W0 (wrap32 (base + i)) (row' i))
              l (Ok W') = Ok Wf' /\
    length Wf' = length Wf.
Proof.
  induction l as [|a l IH]; intros W W' Wf H Hl.
  - simpl in *. injection H as <-. eauto.
  - simpl in H |- *. cbn [bind] in H |- *.
    destruct (list_set W (wrap32 (base + a)) (row a)) as [W1|e] eqn:E.
    2:{ rewrite fold_bind_raise in H. discriminate. }
    apply list_set_Ok in E. destruct E as [Hlt ->].
    unfold list_set at 2. rewrite Hl.
    apply Nat.ltb_lt in Hlt. rewrite Hlt.
    apply (IH _ _ Wf H). rewrite !list_update_length. exact Hl.
Qed.

Lemma fill_axis_rows bk b batch j f nj base W W' :
  0 <= base -> 0 <= nj -> base + nj <= 2 ^ 32 ->
  fill_axis bk b batch j f nj base W = Ok W' ->
  length W' = length W /\
  (forall t, 0 <= t < nj ->
     nth_error W' (Z.to_nat (base + t))
     = Some (map (fun s => tap_eval bk b s j f t) batch)) /\
  (forall i, (i < Z.to_nat base)%nat -> nth_error W' i = nth_error W i).
Proof.
  intros Hb Hn Hs H. unfold fill_axis, arange in H.
  assert (Hr : base + Z.of_nat (0 + Z.to_nat nj) <= 2 ^ 32) by lia.
  destruct (fill_fold
              (fun i => map (fun s => tap_eval bk b s j f i) batch)
              base (Z.to_nat nj) 0 W W' Hb Hr H) as [Hlen Hrows].
  split; [exact Hlen|]. split.
  - intros t Ht. rewrite Hrows.
    destruct (Nat.leb_spec (Z.to_nat base + 0) (Z.to_nat (base + t)));
      destruct (Nat.ltb_spec (Z.to_nat (base + t))
                             (Z.to_nat base + 0 + Z.to_nat nj));
      simpl; try lia.
    replace (Z.of_nat (Z.to_nat (base + t)) - base) with t by lia.
    reflexivity.
  - intros i Hi. rewrite Hrows.
    destruct (Nat.leb_spec (Z.to_nat base + 0) i); simpl; [lia|reflexivity].
Qed.

Lemma fill_weights_rows bk b batch : forall fl n j base W W1,
  0 <= base -> Forall (fun nj => 0 <= nj) n -> base + zsum n <= 2 ^ 32 ->
  fill_weights bk b batch j fl n base W = Ok W1 ->
  rows_ok (fun j f t => map (fun s => tap_eval bk b s j f t) batch)
          W1 fl n j base /\
  length W1 = length W /\
  (forall i, (i < Z.to_nat base)%nat -> nth_error W1 i = nth_error W i).
Proof.
  induction fl as [|f fl IH]; intros n j base W W1 Hb Hn Hs H.
  - simpl in H. injection H as <-. simpl. auto.
  - destruct n as [|nj n].
    + simpl in H. injection H as <-. simpl. auto.
    + inversion Hn as [|? ? Hnj Hn']; subst.
      pose proof (zsum_nonneg n Hn') as Hz.
      unfold zsum in Hs, Hz. cbn [fold_right] in Hs. fold (zsum n) in Hs, Hz.
      cbn [fill_weights] in H.
      destruct (fill_axis bk b batch j f nj base W) as [W'|e] eqn:Ea;
        [|discriminate].
      cbn [bind] in H.
      assert (Hs1 : base + nj <= 2 ^ 32) by lia.
      assert (Hb' : 0 <= base + nj) by lia.
      assert (Hs2 : base + nj + zsum n <= 2 ^ 32) by lia.
      destruct (fill_axis_rows bk b batch j f nj base W W' Hb Hnj Hs1 Ea)
        as [Hl1 [Hr1 Hb1]].
      destruct (IH n (S j) (base + nj) W' W1 Hb' Hn' Hs2 H)
        as [Hrows [Hl2 Hb2]].
      split; [|split].
      * cbn [rows_ok]. split; [|exact Hrows].
        intros t Ht. rewrite Hb2 by lia. apply Hr1, Ht.
      * lia.
      * intros i Hi. rewrite Hb2 by lia. apply Hb1, Hi.
Qed.

Lemma fill_weights_exists bk b batch batch' : forall fl n j base W W' W1,
  fill_weights bk b batch j fl n base W = Ok W1 ->
  length W' = length W ->
  exists W1',
    fill_weights bk b batch' j fl n base W' = Ok W1' /\
    length W1' = length W1.
Proof.
  induction fl as [|f fl IH]; intros n j base W W' W1 H Hl.
  - simpl in *. injection H as <-. eauto.
  - destruct n as [|nj n].
    + simpl in *. injection H as <-. eauto.
    + cbn [fill_weights] in H |- *.
      destruct (fill_axis bk b batch j f nj base W) as [Wa|e] eqn:Ea;
        [|discriminate].
      cbn [bind] in H. unfold fill_axis in Ea |- *.
      destruct (fill_fold_exists _
                  (fun i => map (fun s => f_eval f
                     (inject_Z (wrap32 (dr_u32 bk (base_at bk b s j) + i)))
                     (s_active s)) batch')
                  base (arange nj) W W' Wa Ea Hl) as [Wa' [Ea' Hla]].
      rewrite Ea'. cbn [bind]. apply (IH n (S j) (base + nj) Wa Wa' W1 H Hla).
Qed.

(** * The tap loop, lane by lane *)

Lemma map2_maps {A B C D} (f : B -> C -> D) (g1 : A -> B) (g2 : A -> C) l :
  map2 f (map g1 l) (map g2 l) = map (fun a => f (g1 a) (g2 a)) l.
Proof. induction l as [|a l IH]; simpl; congruence. Qed.

Lemma lane_op_map {A} (f : Q -> Q -> Q) (g1 g2 : A -> Q) l :
  lane_op f (map g1 l) (map g2 l) = map (fun a => f (g1 a) (g2 a)) l.
Proof.
  destruct l as [|a [|a' l]]; try reflexivity.
  simpl. rewrite map2_maps. reflexivity.
Qed.

Lemma gather_weight_rows (ev : Sample -> nat -> Filter -> Z -> Q) batch W :
  forall fl n idxs j base (acc : Sample -> Q),
    rows_ok (fun j f t => map (fun s => ev s j f t) batch) W fl n j base ->
    length fl = length n -> 0 <= base ->
    Forall2 (fun ij nj => 0 <= ij < nj) idxs n ->
    gather_weight W n idxs base (map acc batch)
    = Ok (map (fun s => lane_weight (ev s) fl idxs j (acc s)) batch).
Proof.
  induction fl as [|f fl IH]; intros n idxs j base acc Hr Hl Hb Hi.
  - destruct n; [|discriminate]. inversion Hi; subst. reflexivity.
  - destruct n as [|nj n]; [discriminate|].
    inversion Hi as [|ij ? idxs' ? Hij Hi']; subst.
    cbn [rows_ok] in Hr. destruct Hr as [Hrow Hr].
    cbn [gather_weight lane_weight].
    unfold list_get. rewrite (Hrow ij Hij). cbn [bind].
    rewrite lane_op_map.
    apply (IH n idxs' (S j) (base + nj)
              (fun s => (acc s * ev s j f ij)%Q) Hr); auto; lia.
Qed.

Lemma gather_weight_first (ev : Sample -> nat -> Filter -> Z -> Q) batch W
      fl n idxs :
  rows_ok (fun j f t => map (fun s => ev s j f t) batch) W fl n 0 0 ->
  length fl = length n -> n <> [] ->
  Forall2 (fun ij nj => 0 <= ij < nj) idxs n ->
  gather_weight W n idxs 0 [(1#1)%Q]
  = Ok (map (fun s => lane_weight (ev s) fl idxs 0 (1#1)%Q) batch).
Proof.
  intros Hr Hl Hne Hi.
  destruct n as [|nj n]; [congruence|].
  destruct fl as [|f fl]; [discriminate|].
  inversion Hi as [|ij ? idxs' ? Hij Hi']; subst.
  cbn [rows_ok] in Hr. destruct Hr as [Hrow Hr].
  cbn [gather_weight lane_weight].
  unfold list_get. rewrite (Hrow ij Hij). cbn [bind].
  change (lane_op Qmult [(1#1)%Q] (map (fun s => ev s 0%nat f ij) batch))
    with (map (Qmult (1#1)) (map (fun s => ev s 0%nat f ij) batch)).
  rewrite map_map.
  apply (gather_weight_rows ev batch W fl n idxs' 1 (0 + nj)
           (fun s => ((1#1) * ev s 0%nat f ij)%Q) Hr); auto; lia.
Qed.

Lemma tap_digits_range n : forall v,
  Forall (fun nj => 1 <= nj < 2 ^ 31) n -> 0 <= v ->
  Forall2 (fun ij nj => 0 <= ij < nj) (tap_digits n v) n.
Proof.
  induction n as [|nj n IH]; intros v Hn Hv; simpl; [constructor|].
  inversion Hn as [|? ? Hnj Hn']; subst.
  assert (E : tap_radix nj = nj).
  { unfold tap_radix, to_int32. rewrite wrap32_small by lia.
    destruct (Z.ltb_spec nj (2 ^ 31)); lia. }
  rewrite E. constructor.
  - apply Z.mod_pos_bound. lia.
  - apply IH; [exact Hn'|]. apply Z.div_pos; lia.
Qed.

Lemma tap_scatters_lanewise bk b batch (wt : Sample -> Q) idxs ops :
  tap_scatters bk b batch (map wt batch) idxs = Ok ops ->
  ops = lane_ops (fun k s =>
                    mkScatter (wrap32 (tap_offset bk b s idxs + wrap32 k))
                              (nth (Z.to_nat k) (s_value s) (0#1) * wt s)%Q
                              (tap_enabled bk b s idxs))
                 (arange (m_channel_count b)) batch /\
  values_ok (m_channel_count b) batch.
Proof.
  unfold tap_scatters. intros H.
  destruct (mapM _ (arange (m_channel_count b))) as [calls|e] eqn:Hm;
    [|discriminate].
  cbn [bind] in H. injection H as <-.
  apply (calls_lanewise
           (fun s k => wrap32 (tap_offset bk b s idxs + wrap32 k))
           (fun s => tap_enabled bk b s idxs)
           (fun vk => lane_op Qmult vk (map wt batch))
           (fun s x => (x * wt s)%Q) _ _ _
           (fun vf => lane_op_map Qmult vf wt batch) Hm).
Qed.

Lemma tap_scatters_exist bk b batch (wt : Sample -> Q) idxs :
  values_ok (m_channel_count b) batch ->
  exists ops, tap_scatters bk b batch (map wt batch) idxs = Ok ops.
Proof.
  intros H. unfold tap_scatters.
  destruct (calls_exist
              (fun s k => wrap32 (tap_offset bk b s idxs + wrap32 k))
              (fun s => tap_enabled bk b s idxs)
              (fun vk => lane_op Qmult vk (map wt batch))
              (m_channel_count b) batch H) as [calls Hc].
  rewrite Hc. cbn [bind]. eauto.
Qed.

Lemma general_tap_body bk b fl batch W1 v :
  m_filter b = Some fl -> length fl = length (taps bk b) ->
  taps bk b <> [] ->
  Forall (fun nj => 1 <= nj < 2 ^ 31) (taps bk b) ->
  rows_ok (fun j f t => map (fun s => tap_eval bk b s j f t) batch)
          W1 fl (taps bk b) 0 0 ->
  0 <= v ->
  tap_body bk b batch W1 (taps bk b) (tap_digits (taps bk b) v)
  = tap_scatters bk b batch
      (map (fun s => lane_weight (tap_eval bk b s) fl
                                 (tap_digits (taps bk b) v) 0 (1#1)%Q) batch)
      (tap_digits (taps bk b) v).
Proof.
  intros Hfl Hl Hne Hn Hr Hv. unfold tap_body.
  rewrite (gather_weight_first (tap_eval bk b) batch W1 fl (taps bk b)
             (tap_digits (taps bk b) v) Hr Hl Hne
             (tap_digits_range _ v Hn Hv)).
  reflexivity.
Qed.

Lemma taps_nonempty bk b : general_path bk b = true -> taps bk b <> [].
Proof.
  unfold general_path, taps. destruct (filter_radius b); [discriminate|].
  discriminate.
Qed.

Lemma general_scatters_lanewise bk b fl W0 batch W ops :
  lanewise_general bk b -> general_path bk b = true ->
  m_filter b = Some fl ->
  put_scatters_from bk b W0 batch = Ok (W, ops) ->
  ops = lane_ops (tap_op bk b fl (taps bk b)) (tap_calls bk b) batch /\
  values_ok (m_channel_count b) batch /\
  length W = length W0.
Proof.
  intros [Hfil [Hnorm [Hn Hsum]]] Hgen Hfl Hput.
  destruct Hfil as [fl' [Hfl' [Hrad [Hlen _]]]].
  rewrite Hfl in Hfl'. injection Hfl' as <-.
  unfold put_scatters_from in Hput. rewrite Hgen, Hfl, Hnorm in Hput.
  set (n := taps bk b) in *.
  assert (Hnl : length fl = length n).
  { unfold n. rewrite taps_length, Hrad, length_map. reflexivity. }
  destruct (fill_weights bk b batch 0 fl n 0 W0) as [W1|e] eqn:Hfill;
    [|discriminate].
  cbn [bind] in Hput.
  rewrite Hnl, tap_loop_all in Hput.
  destruct (mapM _ (arange (tap_total n))) as [opss|e] eqn:Hm; [|discriminate].
  cbn [bind] in Hput. injection Hput as <- <-.
  destruct (fill_weights_rows bk b batch fl n 0 0 W0 W1)
    as [Hrows [Hl1 _]]; auto; try lia.
  { apply taps_nonneg, Hn. }
  pose proof (taps_nonempty bk b Hgen) as Hne. fold n in Hne.
  pose proof (tap_total_pos n) as Hpos.
  assert (Hbody : forall v, 0 <= v ->
            tap_body bk b batch W1 n (tap_digits n v)
            = tap_scatters bk b batch
                (map (fun s => lane_weight (tap_eval bk b s) fl
                                           (tap_digits n v) 0 (1#1)%Q) batch)
                (tap_digits n v)).
  { intros v Hv. apply general_tap_body; auto. }
  split; [|split].
  - unfold tap_calls. fold n.
    rewrite <- (lane_ops_nested
                  (fun v k s =>
                     mkScatter
                       (wrap32 (tap_offset bk b s (tap_digits n v) + wrap32 k))
                       (nth (Z.to_nat k) (s_value s) (0#1)
                        * lane_weight (tap_eval bk b s) fl (tap_digits n v) 0
                                      (1#1))%Q
                       (tap_enabled bk b s (tap_digits n v)))).
    f_equal. apply Forall2_map_eq. apply mapM_Forall2 in Hm.
    assert (Hm' : Forall2 (fun v y => 0 <= v /\
                     tap_body bk b batch W1 n (tap_digits n v) = Ok y)
                    (arange (tap_total n)) opss).
    { clear - Hm. set (l := arange (tap_total n)) in *.
      assert (Hl : forall v, In v l -> 0 <= v)
        by (intros v Hv; apply In_arange in Hv; lia).
      clearbody l. induction Hm; constructor; auto.
      - split; [apply Hl; left; reflexivity | assumption].
      - apply IHHm. intros v Hv. apply Hl. right. exact Hv. }
    eapply Forall2_impl; [|exact Hm']. intros v y [Hv Hy].
    rewrite (Hbody v Hv) in Hy.
    apply tap_scatters_lanewise in Hy. apply Hy.
  - destruct (mapM_In_ok _ _ _ 0 Hm) as [y Hy]; [apply In_arange; lia|].
    rewrite (Hbody 0 ltac:(lia)) in Hy.
    apply tap_scatters_lanewise in Hy. apply Hy.
  - exact Hl1.
Qed.

Lemma general_scatters_exist bk b fl Wp batch r batch' W0 :
  lanewise_general bk b -> general_path bk b = true ->
  m_filter b = Some fl ->
  put_scatters_from bk b Wp batch = Ok r ->
  length W0 = length Wp ->
  values_ok (m_channel_count b) batch' ->
  exists W1,
    put_scatters_from bk b W0 batch'
    = Ok (W1, lane_ops (tap_op bk b fl (taps bk b)) (tap_calls bk b) batch') /\
    length W1 = length W0.
Proof.
  intros [Hfil [Hnorm [Hn Hsum]]] Hgen Hfl Hput Hl0 Hval.
  destruct Hfil as [fl' [Hfl' [Hrad [Hlen _]]]].
  rewrite Hfl in Hfl'. injection Hfl' as <-.
  unfold put_scatters_from in Hput |- *.
  rewrite Hgen, Hfl, Hnorm in Hput |- *.
  set (n := taps bk b) in *.
  assert (Hnl : length fl = length n).
  { unfold n. rewrite taps_length, Hrad, length_map. reflexivity. }
  destruct (fill_weights bk b batch 0 fl n 0 Wp) as [Wa|e] eqn:Hfill;
    [|discriminate].
  clear Hput.
  destruct (fill_weights_exists bk b batch batch' fl n 0 0 Wp W0 Wa
              Hfill Hl0) as [W1 [Hfill' Hl1]].
  destruct (fill_weights_rows bk b batch' fl n 0 0 W0 W1)
    as [Hrows [Hl1' _]]; auto; try lia.
  { apply taps_nonneg, Hn. }
  pose proof (taps_nonempty bk b Hgen) as Hne. fold n in Hne.
  assert (Hbody : forall v, 0 <= v ->
            tap_body bk b batch' W1 n (tap_digits n v)
            = tap_scatters bk b batch'
                (map (fun s => lane_weight (tap_eval bk b s) fl
                                           (tap_digits n v) 0 (1#1)%Q) batch')
                (tap_digits n v)).
  { intros v Hv. apply general_tap_body; auto. }
  destruct (mapM_total
              (fun v => tap_body bk b batch' W1 n (tap_digits n v))
              (arange (tap_total n))) as [opss Hm].
  { intros v Hv. apply In_arange in Hv. rewrite Hbody by lia.
    apply tap_scatters_exist, Hval. }
  exists W1. split; [|exact Hl1'].
  rewrite Hfill'. cbn [bind]. rewrite Hnl, tap_loop_all, Hm. cbn [bind].
  do 2 f_equal.
  unfold tap_calls. fold n.
  rewrite <- (lane_ops_nested
                (fun v k s =>
                   mkScatter
                     (wrap32 (tap_offset bk b s (tap_digits n v) + wrap32 k))
                     (nth (Z.to_nat k) (s_value s) (0#1)
                      * lane_weight (tap_eval bk b s) fl (tap_digits n v) 0
                                    (1#1))%Q
                     (tap_enabled bk b s (tap_digits n v)))).
  f_equal. apply Forall2_map_eq. apply mapM_Forall2 in Hm.
  assert (Hm' : Forall2 (fun v y => 0 <= v /\
                   tap_body bk b batch' W1 n (tap_digits n v) = Ok y)
                  (arange (tap_total n)) opss).
  { clear - Hm. set (l := arange (tap_total n)) in *.
    assert (Hl : forall v, In v l -> 0 <= v)
      by (intros v Hv; apply In_arange in Hv; lia).
    clearbody l. induction Hm; constructor; auto.
    - split; [apply Hl; left; reflexivity | assumption].
    - apply IHHm. intros v Hv. apply Hl. right. exact Hv. }
  eapply Forall2_impl; [|exact Hm']. intros v y [Hv Hy].
  rewrite (Hbody v Hv) in Hy.
  apply tap_scatters_lanewise in Hy. apply Hy.
Qed.

(** * Both paths at once *)

Lemma fill_weights_static bk b T W0 batch : forall fl n j base W,
  fill_weights bk (set_m_weights (set_m_data b T) W0) batch j fl n base W
  = fill_weights bk b batch j fl n base W.
Proof.
  induction fl as [|f fl IH]; intros n j base W; [reflexivity|].
  destruct n as [|nj n]; [reflexivity|].
  cbn [fill_weights].
  change (fill_axis bk (set_m_weights (set_m_data b T) W0) batch j f nj base W)
    with (fill_axis bk b batch j f nj base W).
  destruct (fill_axis bk b batch j f nj base W); [|reflexivity].
  cbn [bind]. apply IH.
Qed.

Lemma tap_loop_static bk b T W0 batch W n : forall fuel idxs acc,
  tap_loop bk fuel (set_m_weights (set_m_data b T) W0) batch W n idxs acc
  = tap_loop bk fuel b batch W n idxs acc.
Proof.
  induction fuel as [|fuel IH]; intros idxs acc; [reflexivity|].
  cbn [tap_loop].
  destruct (gather_weight W n idxs 0 [(1#1)%Q]) as [w|e]; [|reflexivity].
  cbn [bind].
  change (tap_scatters bk (set_m_weights (set_m_data b T) W0) batch w idxs)
    with (tap_scatters bk b batch w idxs).
  destruct (tap_scatters bk b batch w idxs) as [ops|e]; [|reflexivity].
  cbn [bind]. destruct (advance n idxs) as [idxs' fin].
  destruct fin; [reflexivity | apply IH].
Qed.

Lemma put_scatters_from_self bk b batch :
  put_scatters bk b batch = put_scatters_from bk b (m_weights b) batch.
Proof. reflexivity. Qed.

Lemma put_scatters_from_static bk b T W0 batch :
  put_scatters bk (set_m_weights (set_m_data b T) W0) batch
  = put_scatters_from bk b W0 batch.
Proof.
  unfold put_scatters, put_scatters_from.
  change (general_path bk (set_m_weights (set_m_data b T) W0))
    with (general_path bk b).
  destruct (general_path bk b).
  - change (m_filter (set_m_weights (set_m_data b T) W0)) with (m_filter b).
    destruct (m_filter b) as [fl|]; [|reflexivity].
    change (taps bk (set_m_weights (set_m_data b T) W0)) with (taps bk b).
    change (m_weights (set_m_weights (set_m_data b T) W0)) with W0.
    change (m_normalize (set_m_weights (set_m_data b T) W0))
      with (m_normalize b).
    cbv zeta. rewrite fill_weights_static.
    destruct (fill_weights bk b batch 0 fl (taps bk b) 0 W0); [|reflexivity].
    cbn [bind].
    destruct (if m_normalize b then _ else _); [|reflexivity].
    cbn [bind]. rewrite tap_loop_static. reflexivity.
  - reflexivity.
Qed.

Lemma put_from_lanewise bk b W0 batch W ops :
  lanewise bk b ->
  put_scatters_from bk b W0 batch = Ok (W, ops) ->
  ops = put_lane_ops bk b batch /\
  values_ok (m_channel_count b) batch /\
  length W = length W0.
Proof.
  intros Hl H. unfold put_lane_ops.
  destruct (general_path bk b) eqn:Hg.
  - pose proof (Hl Hg) as Hlg.
    destruct Hlg as [[fl [Hfl Hrest]] Hmore].
    unfold filters_of. rewrite Hfl.
    apply (general_scatters_lanewise bk b fl W0 batch W ops (Hl Hg) Hg
                                     Hfl H).
  - unfold put_scatters_from in H. rewrite Hg in H.
    destruct (fast_scatters bk b batch) as [ops'|e] eqn:Hf; [|discriminate].
    cbn [bind] in H. injection H as <- <-.
    destruct (fast_scatters_lanewise bk b batch ops' Hf) as [-> Hv].
    auto.
Qed.

Lemma put_from_exists bk b Wp batch0 r W0 batch :
  lanewise bk b ->
  put_scatters_from bk b Wp batch0 = Ok r ->
  length W0 = length Wp ->
  values_ok (m_channel_count b) batch ->
  exists W1,
    put_scatters_from bk b W0 batch = Ok (W1, put_lane_ops bk b batch) /\
    length W1 = length W0.
Proof.
  intros Hl H Hlen Hv. unfold put_lane_ops.
  destruct (general_path bk b) eqn:Hg.
  - pose proof (Hl Hg) as Hlg.
    destruct Hlg as [[fl [Hfl Hrest]] Hmore].
    unfold filters_of. rewrite Hfl.
    apply (general_scatters_exist bk b fl Wp batch0 r batch W0 (Hl Hg)
                                  Hg Hfl H Hlen Hv).
  - unfold put_scatters_from. rewrite Hg.
    destruct (fast_scatters_exist bk b batch Hv) as [ops Hf].
    destruct (fast_scatters_lanewise bk b batch ops Hf) as [-> _].
    rewrite Hf. cbn [bind]. eauto.
Qed.

Lemma put_lane_result bk b batch target t i :
  scatter_reduce_add target (put_lane_ops bk b batch) = Ok t ->
  (nth i t (0#1)
   == nth i target (0#1) + qsum (map (put_gain bk b i) batch))%Q.
Proof.
  unfold put_lane_ops, put_gain. destruct (general_path bk b);
    apply lane_ops_result.
Qed.

Lemma put_lane_permutation bk b batch batch' target t :
  Permutation batch batch' ->
  scatter_reduce_add target (put_lane_ops bk b batch) = Ok t ->
  exists t',
    scatter_reduce_add target (put_lane_ops bk b batch') = Ok t' /\
    same_values t t'.
Proof.
  unfold put_lane_ops. destruct (general_path bk b);
    apply lane_ops_permutation.
Qed.

Lemma put_lane_split bk b l1 l2 target t :
  scatter_reduce_add target (put_lane_ops bk b (l1 ++ l2)) = Ok t ->
  exists t1 t2,
    scatter_reduce_add target (put_lane_ops bk b l1) = Ok t1 /\
    scatter_reduce_add t1 (put_lane_ops bk b l2) = Ok t2 /\
    same_values t t2.
Proof.
  unfold put_lane_ops. destruct (general_path bk b); apply lane_ops_split.
Qed.

Lemma put_lane_join bk b l1 l2 target t1 t2 :
  scatter_reduce_add target (put_lane_ops bk b l1) = Ok t1 ->
  scatter_reduce_add t1 (put_lane_ops bk b l2) = Ok t2 ->
  exists t,
    scatter_reduce_add target (put_lane_ops bk b (l1 ++ l2)) = Ok t /\
    same_values t t2.
Proof.
  unfold put_lane_ops. destruct (general_path bk b); apply lane_ops_join.
Qed.

Lemma put_unfold bk b batch b1 :
  put_ bk b batch = Ok b1 ->
  exists W ops t,
    put_scatters_from bk b (m_weights b) batch = Ok (W, ops) /\
    scatter_reduce_add (array (m_data b)) ops = Ok t /\
    b1 = set_m_weights (set_m_data b (mkTensor (shape (m_data b)) t)) W.
Proof.
  unfold put_. rewrite put_scatters_from_self.
  destruct (put_scatters_from bk b (m_weights b) batch) as [[W ops]|e];
    [|discriminate].
  cbn [bind snd fst].
  destruct (scatter_reduce_add (array (m_data b)) ops) as [t|e] eqn:Hr;
    [|discriminate].
  cbn [bind]. intros H. injection H as <-.
  exists W, ops, t. split; [reflexivity|]. split; [exact Hr | reflexivity].
Qed.

Lemma put_fold bk b batch W ops t :
  put_scatters bk b batch = Ok (W, ops) ->
  scatter_reduce_add (array (m_data b)) ops = Ok t ->
  put_ bk b batch
  = Ok (set_m_weights (set_m_data b (mkTensor (shape (m_data b)) t)) W).
Proof.
  intros H1 H2. unfold put_. rewrite H1. cbn [bind snd fst].
  rewrite H2. reflexivity.
Qed.

Lemma values_ok_sub ch (batch batch' : list Sample) :
  (forall s, In s batch' -> In s batch) ->
  values_ok ch batch -> values_ok ch batch'.
Proof. intros Hs H s k Hin Hk. apply H; auto. Qed.

(** * Order and batching *)

(** X12.  In the fast path, and in the general path without
    normalisation, the order of the samples in a batch does not matter:
    when [put_] returns for a batch, it returns for every permutation of
    the batch, and the two buffers hold the same values. *)
Theorem put_order_independent bk b batch batch' b1 :
  lanewise bk b ->
  Permutation batch batch' ->
  put_ bk b batch = Ok b1 ->
  exists b2,
    put_ bk b batch' = Ok b2 /\
    shape (m_data b2) = shape (m_data b1) /\
    same_values (array (m_data b1)) (array (m_data b2)).
Proof.
  intros Hl Hp H.
  destruct (put_unfold bk b batch b1 H) as [W [ops [t [Hs [Hr ->]]]]].
  destruct (put_from_lanewise bk b _ batch W ops Hl Hs) as [-> [Hv HlW]].
  assert (Hv' : values_ok (m_channel_count b) batch').
  { apply (values_ok_sub _ batch); [|exact Hv].
    intros s Hs'. apply (Permutation_in _ (Permutation_sym Hp) Hs'). }
  destruct (put_from_exists bk b _ batch _ (m_weights b) batch' Hl Hs eq_refl
                            Hv') as [W' [Hs' _]].
  destruct (put_lane_permutation bk b batch batch' _ t Hp Hr) as [t' [Hr' Hsv]].
  rewrite <- put_scatters_from_self in Hs'.
  exists (set_m_weights (set_m_data b (mkTensor (shape (m_data b)) t')) W').
  split; [apply (put_fold bk b batch' W' _ t' Hs' Hr')|].
  split; [reflexivity | exact Hsv].
Qed.

(** X13.  In the fast path, and in the general path without
    normalisation, a batch can be split: one call of [put_] with the
    batch [l1 ++ l2] returns if and only if the call with [l1] followed
    by the call with [l2] returns, and the buffers hold the same
    values. *)
Theorem put_batches_compose bk b l1 l2 :
  lanewise bk b ->
  (forall b12,
     put_ bk b (l1 ++ l2) = Ok b12 ->
     exists b1 b2,
       put_ bk b l1 = Ok b1 /\ put_ bk b1 l2 = Ok b2 /\
       same_values (array (m_data b12)) (array (m_data b2))) /\
  (forall b1 b2,
     put_ bk b l1 = Ok b1 -> put_ bk b1 l2 = Ok b2 ->
     exists b12,
       put_ bk b (l1 ++ l2) = Ok b12 /\
       same_values (array (m_data b12)) (array (m_data b2))).
Proof.
  intros Hl. split.
  - intros b12 H.
    destruct (put_unfold bk b _ b12 H) as [W [ops [t [Hs [Hr ->]]]]].
    destruct (put_from_lanewise bk b _ _ W ops Hl Hs) as [-> [Hv HlW]].
    destruct (put_lane_split bk b l1 l2 _ t Hr) as [t1 [t2 [Hr1 [Hr2 Hsv]]]].
    destruct (put_from_exists bk b _ _ _ (m_weights b) l1 Hl Hs eq_refl)
      as [W1 [Hs1 HlW1]].
    { apply (values_ok_sub _ (l1 ++ l2)); [|exact Hv].
      intros s Hs'. apply in_or_app. auto. }
    destruct (put_from_exists bk b _ _ _ W1 l2 Hl Hs HlW1)
      as [W2 [Hs2 _]].
    { apply (values_ok_sub _ (l1 ++ l2)); [|exact Hv].
      intros s Hs'. apply in_or_app. auto. }
    rewrite <- put_scatters_from_self in Hs1.
    set (b1 := set_m_weights (set_m_data b (mkTensor (shape (m_data b)) t1))
                             W1).
    exists b1,
      (set_m_weights (set_m_data b1 (mkTensor (shape (m_data b1)) t2)) W2).
    split; [apply (put_fold bk b l1 W1 _ t1 Hs1 Hr1)|]. split.
    + apply (put_fold bk b1 l2 W2 (put_lane_ops bk b l2) t2); [|exact Hr2].
      unfold b1. rewrite put_scatters_from_static. exact Hs2.
    + exact Hsv.
  - intros b1 b2 H1 H2.
    destruct (put_unfold bk b _ b1 H1) as [W1 [ops1 [t1 [Hs1 [Hr1 ->]]]]].
    destruct (put_from_lanewise bk b _ _ W1 ops1 Hl Hs1) as [-> [Hv1 HlW1]].
    apply put_unfold in H2.
    destruct H2 as [W2 [ops2 [t2 [Hs2 [Hr2 ->]]]]].
    rewrite <- put_scatters_from_self, put_scatters_from_static in Hs2.
    destruct (put_from_lanewise bk b _ _ W2 ops2 Hl Hs2) as [-> [Hv2 HlW2]].
    cbn [array m_data set_m_weights set_m_data] in Hr2.
    destruct (put_lane_join bk b l1 l2 _ t1 t2 Hr1 Hr2) as [t [Hr Hsv]].
    destruct (put_from_exists bk b _ _ _ (m_weights b) (l1 ++ l2) Hl Hs1
                              eq_refl) as [W [Hs _]].
    { intros s k Hin Hk. apply in_app_or in Hin.
      destruct Hin; [apply Hv1 | apply Hv2]; auto. }
    rewrite <- put_scatters_from_self in Hs.
    exists (set_m_weights (set_m_data b (mkTensor (shape (m_data b)) t)) W).
    split; [apply (put_fold bk b _ W _ t Hs Hr) | exact Hsv].
Qed.

(** * What a call of [put_] adds to a cell *)

Lemma cells_eqb_true p q : cells_eqb p q = true <-> p = q.
Proof.
  unfold cells_eqb. destruct (list_eq_dec Z.eq_dec p q); split;
    auto; discriminate.
Qed.

Lemma flat_index_inj shp p q :
  in_shape shp p -> in_shape shp q ->
  flat_index shp p = flat_index shp q -> p = q.
Proof.
  intros Hp Hq E.
  pose proof (enumerate_nth_error shp p Hp) as H1.
  pose proof (enumerate_nth_error shp q Hq) as H2.
  rewrite E in H1. congruence.
Qed.

Lemma flat_eqb_cells shp p q :
  in_shape shp p -> in_shape shp q ->
  (flat_index shp p =? flat_index shp q) = cells_eqb p q.
Proof.
  intros Hp Hq.
  destruct (cells_eqb p q) eqn:E.
  - apply cells_eqb_true in E. subst. apply Z.eqb_refl.
  - apply Z.eqb_neq. intros H.
    apply (flat_index_inj shp p q Hp Hq) in H.
    apply cells_eqb_true in H. congruence.
Qed.

Lemma qsum_list_prod {A B} (f : A * B -> Q) (la : list A) (lb : list B) :
  (qsum (map f (list_prod la lb))
   == qsum (map (fun a => qsum (map (fun x => f (a, x)) lb)) la))%Q.
Proof.
  induction la as [|a la IH]; simpl; [reflexivity|].
  rewrite map_app, qsum_app, map_map, IH. reflexivity.
Qed.

Lemma qsum_all_zero {A} (f : A -> Q) l :
  (forall a, In a l -> (f a == 0)%Q) -> (qsum (map f l) == 0)%Q.
Proof.
  intros H. rewrite (qsum_ext f (fun _ => (0#1)%Q) l H).
  apply qsum_const_zero.
Qed.

Lemma channel_select (f : Z -> Q) P X ch k :
  0 <= k < ch ->
  (qsum (map (fun k' => if P * ch + k' =? X * ch + k then f k' else (0#1)%Q)
             (arange ch))
   == if P =? X then f k else 0)%Q.
Proof.
  intros Hk.
  rewrite (qsum_ext _ (fun k' => if (P =? X) && (k' =? k) then f k
                                 else (0#1)%Q)).
  - destruct (P =? X); simpl.
    + unfold arange. rewrite map_map. rewrite qsum_indicator.
      destruct (Z.leb_spec (Z.of_nat 0) k);
        destruct (Z.ltb_spec k (Z.of_nat (0 + Z.to_nat ch)));
        simpl; try reflexivity; lia.
    + apply qsum_const_zero.
  - intros k' Hk'. apply In_arange in Hk'.
    destruct (Z.eqb_spec P X) as [->|Hne]; simpl.
    + destruct (Z.eqb_spec k' k) as [->|Hne].
      * rewrite Z.eqb_refl. reflexivity.
      * destruct (Z.eqb_spec (X * ch + k') (X * ch + k)); [lia|reflexivity].
    + destruct (Z.eqb_spec (P * ch + k') (X * ch + k)); [nia|reflexivity].
Qed.

Lemma fast_gain bk b s X k :
  backend_ok bk -> geometry_ok b ->
  in_shape (padded b) X -> 0 <= k < m_channel_count b ->
  general_path bk b = false ->
  (put_gain bk b (Z.to_nat (flat_index (padded b) X * m_channel_count b + k)) s
   == cell_weight bk b X s * nth (Z.to_nat k) (s_value s) (0#1))%Q.
Proof.
  intros Hbk Hgeo HX Hk Hg. unfold put_gain, cell_weight. rewrite Hg.
  unfold sample_gain.
  pose proof (flat_index_bounds _ _ HX) as HfX.
  set (ch := m_channel_count b) in *.
  destruct (fast_enabled b s) eqn:He.
  - pose proof (proj1 (fast_enabled_spec b s) He) as [_ Hen].
    assert (Hidx : forall k', 0 <= k' < ch ->
              wrap32 (fast_offset bk b s + wrap32 k')
              = flat_index (padded b) (fast_cell b s) * ch + k').
    { intros k' Hk'. apply (fast_index bk b Hbk Hgeo s k' Hen Hk'). }
    destruct (fast_index bk b Hbk Hgeo s k Hen Hk) as [Hshape _].
    rewrite (qsum_ext _
               (fun k' => if flat_index (padded b) (fast_cell b s) * ch + k'
                             =? flat_index (padded b) X * ch + k
                          then nth (Z.to_nat k') (s_value s) (0#1)%Q
                          else (0#1)%Q)).
    + rewrite channel_select by exact Hk.
      rewrite (flat_eqb_cells _ _ _ Hshape HX). simpl.
      destruct (cells_eqb (fast_cell b s) X); ring.
    + intros k' Hk'. apply In_arange in Hk'.
      unfold cell_gain, fast_op. cbn [sc_mask sc_index sc_value].
      rewrite He, (Hidx k' Hk'), Z2Nat.id by nia. reflexivity.
  - simpl. rewrite qsum_all_zero; [ring|].
    intros k' _. unfold cell_gain, fast_op. cbn [sc_mask]. rewrite He.
    reflexivity.
Qed.

Lemma tap_index bk b s idxs k :
  backend_ok bk -> geometry_ok b -> filters_ok b -> offsets_ok b ->
  (forall j, (j < length (m_size b))%nat ->
             to_int32 (nth j (taps bk b) 0) <= size_at b j) ->
  (forall j, (j < length (m_size b))%nat ->
             0 <= nth j idxs 0 < tap_radix (nth j (taps bk b) 0)) ->
  0 <= k < m_channel_count b ->
  tap_enabled bk b s idxs = true ->
  in_shape (padded b) (tap_cells bk b s idxs) /\
  wrap32 (tap_offset bk b s idxs + wrap32 k)
  = flat_index (padded b) (tap_cells bk b s idxs) * m_channel_count b + k.
Proof.
  intros Hbk Hgeo Hfil Hoff Hn Hd Hk Hm.
  apply tap_enabled_spec in Hm. destruct Hm as [_ Hen].
  assert (Hch : 1 <= m_channel_count b) by lia.
  destruct (cell_offset b Hgeo Hch (tap_cell bk b s idxs)) as [Hshape Hfold].
  { intros j Hj. rewrite <- size_at_padded by auto.
    apply (enabled_cell_in_bounds bk b Hbk Hgeo Hfil Hoff s idxs j); auto. }
  destruct (channel_index b Hgeo Hch _ k Hshape Hk) as [Hw _].
  split; [exact Hshape|].
  unfold tap_offset, dims. rewrite Hfold. exact Hw.
Qed.

Lemma general_gain bk b s X k :
  backend_ok bk -> geometry_ok b -> filters_ok b -> offsets_ok b ->
  (forall j, (j < length (m_size b))%nat ->
             to_int32 (nth j (taps bk b) 0) <= size_at b j) ->
  in_shape (padded b) X -> 0 <= k < m_channel_count b ->
  general_path bk b = true ->
  (put_gain bk b (Z.to_nat (flat_index (padded b) X * m_channel_count b + k)) s
   == cell_weight bk b X s * nth (Z.to_nat k) (s_value s) (0#1))%Q.
Proof.
  intros Hbk Hgeo Hfil Hoff Hn HX Hk Hg. unfold put_gain, cell_weight.
  rewrite Hg. unfold sample_gain, tap_calls.
  pose proof (flat_index_bounds _ _ HX) as HfX.
  set (ch := m_channel_count b) in *.
  set (n := taps bk b) in *.
  assert (Hlen : length n = length (m_size b)).
  { destruct Hfil as [fl [_ [Hr [Hl _]]]].
    unfold n. rewrite taps_length, Hr, length_map. exact Hl. }
  rewrite qsum_list_prod.
  rewrite <- (qsum_scale _ (nth (Z.to_nat k) (s_value s) (0#1)%Q)).
  apply qsum_ext. intros v Hv. apply In_arange in Hv.
  cbv zeta. set (idxs := tap_digits n v).
  destruct (tap_enabled bk b s idxs) eqn:He.
  - assert (Hd : forall j, (j < length (m_size b))%nat ->
               0 <= nth j idxs 0 < tap_radix (nth j n 0)).
    { intros j Hj. apply tap_digits_nth; [lia | rewrite Hlen; exact Hj]. }
    destruct (tap_index bk b s idxs k Hbk Hgeo Hfil Hoff Hn Hd Hk He)
      as [Hshape _].
    rewrite (qsum_ext _
               (fun k' => if flat_index (padded b) (tap_cells bk b s idxs) * ch
                             + k'
                             =? flat_index (padded b) X * ch + k
                          then (nth (Z.to_nat k') (s_value s) (0#1)
                                * lane_weight (tap_eval bk b s) (filters_of b)
                                              idxs 0 (1#1))%Q
                          else (0#1)%Q)).
    + rewrite channel_select by exact Hk.
      rewrite (flat_eqb_cells _ _ _ Hshape HX). simpl.
      destruct (cells_eqb (tap_cells bk b s idxs) X); ring.
    + intros k' Hk'. apply In_arange in Hk'.
      unfold cell_gain, tap_op. cbn [sc_mask sc_index sc_value fst snd].
      fold n. fold idxs. rewrite He.
      destruct (tap_index bk b s idxs k' Hbk Hgeo Hfil Hoff Hn Hd Hk' He)
        as [_ Hi].
      fold ch in Hi. rewrite Hi, Z2Nat.id by nia. reflexivity.
  - simpl. rewrite qsum_all_zero; [ring|].
    intros k' _. unfold cell_gain, tap_op. cbn [sc_mask fst snd].
    fold n. fold idxs. rewrite He. reflexivity.
Qed.

Lemma accumulating_lanewise bk b : accumulating bk b -> lanewise bk b.
Proof.
  intros [_ [_ [_ [Hfil [_ [Hnorm [Hn [Hs _]]]]]]]] _.
  repeat split; assumption.
Qed.

Lemma put_gain_cell bk b s X k :
  accumulating bk b ->
  in_shape (padded b) X -> 0 <= k < m_channel_count b ->
  (put_gain bk b (Z.to_nat (flat_index (padded b) X * m_channel_count b + k)) s
   == cell_weight bk b X s * nth (Z.to_nat k) (s_value s) (0#1))%Q.
Proof.
  intros [Hbk [Hgeo [_ [Hfil [Hoff [_ [_ [_ Hn]]]]]]]] HX Hk.
  destruct (general_path bk b) eqn:Hg.
  - apply general_gain; auto.
  - apply fast_gain; auto.
Qed.

Lemma allocated_entry b X k :
  geometry_ok b -> allocated b ->
  in_shape (padded b) X -> 0 <= k < m_channel_count b ->
  tensor_get (m_data b) (X ++ [k])
  = nth_error (array (m_data b))
              (Z.to_nat (flat_index (padded b) X * m_channel_count b + k)) /\
  (Z.to_nat (flat_index (padded b) X * m_channel_count b + k)
   < length (array (m_data b)))%nat.
Proof.
  intros Hgeo [Hsh Hlen] HX Hk.
  pose proof (flat_index_bounds _ _ HX) as Hb.
  unfold tensor_get. rewrite Hsh.
  rewrite flat_index_snoc by (apply in_shape_length, HX).
  split; [reflexivity | nia].
Qed.

Lemma put_accumulates_cell bk b batch b1 X k :
  accumulating bk b ->
  put_ bk b batch = Ok b1 ->
  in_shape (padded b) X -> 0 <= k < m_channel_count b ->
  exists old new,
    tensor_get (m_data b) (X ++ [k]) = Some old /\
    tensor_get (m_data b1) (X ++ [k]) = Some new /\
    (new == old
            + qsum (map (fun s => cell_weight bk b X s
                                  * nth (Z.to_nat k) (s_value s) (0#1))
                        batch))%Q.
Proof.
  intros Hacc Hput HX Hk.
  pose proof Hacc as [Hbk [Hgeo [Hal [Hfil [Hoff _]]]]].
  destruct (put_preserves_ok bk b batch b1 Hput Hgeo Hal Hfil Hoff)
    as [Hgeo1 [Hal1 _]].
  destruct (put_preserves bk b batch b1 Hput)
    as [Hs [Hc [_ [_ [_ [Ho _]]]]]].
  assert (Hp : padded b1 = padded b) by (apply padded_ext; auto).
  destruct (allocated_entry b X k Hgeo Hal HX Hk) as [E0 Hlt0].
  destruct (allocated_entry b1 X k Hgeo1 Hal1) as [E1 Hlt1];
    [rewrite Hp; exact HX | rewrite Hc; exact Hk |].
  rewrite Hp, Hc in E1, Hlt1.
  set (i := Z.to_nat (flat_index (padded b) X * m_channel_count b + k)) in *.
  destruct (nth_error (array (m_data b)) i) as [old|] eqn:Eo;
    [|apply nth_error_None in Eo; lia].
  destruct (nth_error (array (m_data b1)) i) as [new|] eqn:En;
    [|apply nth_error_None in En; lia].
  exists old, new. split; [exact E0|]. split; [exact E1|].
  destruct (put_unfold bk b batch b1 Hput) as [W [ops [t [Hsc [Hr Hb1]]]]].
  destruct (put_from_lanewise bk b _ batch W ops
              (accumulating_lanewise bk b Hacc) Hsc) as [-> _].
  pose proof (put_lane_result bk b batch _ t i Hr) as Hres.
  subst b1. cbn [array m_data set_m_weights set_m_data] in En.
  rewrite (nth_error_nth _ _ (0#1)%Q En) in Hres.
  rewrite (nth_error_nth _ _ (0#1)%Q Eo) in Hres.
  rewrite Hres. apply Qplus_comp; [reflexivity|].
  apply qsum_ext. intros s _. apply put_gain_cell; auto.
Qed.

(** X14.  What [put_] accumulates: in the fast path, and in the general
    path without normalisation, a call of [put_] that returns adds to
    the channel [k] of every cell [X] of the padded buffer the sum, over
    the samples of the batch, of the value of the sample for the channel
    times the weight with which the sample enters the cell. *)
Theorem put_accumulates_weighted_values bk b batch b1 X k :
  accumulating bk b ->
  put_ bk b batch = Ok b1 ->
  in_shape (padded b) X -> 0 <= k < m_channel_count b ->
  exists old new,
    tensor_get (m_data b) (X ++ [k]) = Some old /\
    tensor_get (m_data b1) (X ++ [k]) = Some new /\
    (new == old
            + qsum (map (fun s => cell_weight bk b X s
                                  * nth (Z.to_nat k) (s_value s) (0#1))
                        batch))%Q.
Proof. exact (put_accumulates_cell bk b batch b1 X k). Qed.



(** * The number of iterations of the tap loop *)

Lemma tap_loop_extra bk b batch W n extra : forall fuel v acc,
  0 <= v -> v + Z.of_nat fuel = tap_total n -> (0 < fuel)%nat ->
  tap_loop bk (fuel + extra) b batch W n (tap_digits n v) acc
  = tap_loop bk fuel b batch W n (tap_digits n v) acc.
Proof.
  induction fuel as [|fuel IH]; intros v acc Hv Hf Hpos; [lia|].
  cbn [Nat.add tap_loop].
  destruct (gather_weight W n (tap_digits n v) 0 [(1#1)%Q]) as [w|e];
    [|reflexivity].
  cbn [bind].
  destruct (tap_scatters bk b batch w (tap_digits n v)) as [ops|e];
    [|reflexivity].
  cbn [bind].
  rewrite advance_digits by lia.
  destruct (Z.ltb_spec (v + 1) (tap_total n)) as [Hlt|Hge];
    [apply IH; lia | reflexivity].
Qed.

Lemma tap_loop_short bk b batch W n : forall fuel v acc,
  0 <= v -> v + Z.of_nat fuel < tap_total n ->
  (forall v', 0 <= v' < tap_total n ->
     exists ops, tap_body bk b batch W n (tap_digits n v') = Ok ops) ->
  tap_loop bk fuel b batch W n (tap_digits n v) acc = Raise Diverged.
Proof.
  induction fuel as [|fuel IH]; intros v acc Hv Hf Hok; [reflexivity|].
  cbn [tap_loop].
  destruct (Hok v ltac:(lia)) as [ops Hops]. unfold tap_body in Hops.
  destruct (gather_weight W n (tap_digits n v) 0 [(1#1)%Q]) as [w|e];
    [|discriminate].
  cbn [bind] in Hops |- *. rewrite Hops. cbn [bind].
  rewrite advance_digits by lia.
  destruct (Z.ltb_spec (v + 1) (tap_total n)) as [Hlt|Hge]; [|lia].
  apply IH; auto; lia.
Qed.

(** X16.  The loop over the taps terminates: its body runs once for
    each of the [prod_j max(1, n[j])] combinations of tap indices, in
    the order of a mixed-radix counter whose first axis runs fastest,
    and then the loop is left.  In terms of the fuel of the model: every
    fuel of at least that number gives the scatter-adds of these
    combinations in that order, and with less fuel the loop is cut while
    it is still running. *)
Theorem tap_loop_iterations bk b batch W n :
  (forall fuel,
     (Z.to_nat (tap_total n) <= fuel)%nat ->
     tap_loop bk fuel b batch W n (repeat 0 (length n)) []
     = (opss <- mapM (fun v => tap_body bk b batch W n (tap_digits n v))
                     (arange (tap_total n)) ;;
        Ok (concat opss))) /\
  (forall fuel,
     (fuel < Z.to_nat (tap_total n))%nat ->
     (forall v, 0 <= v < tap_total n ->
        exists ops, tap_body bk b batch W n (tap_digits n v) = Ok ops) ->
     tap_loop bk fuel b batch W n (repeat 0 (length n)) []
     = Raise Diverged).
Proof.
  pose proof (tap_total_pos n) as HT. split.
  - intros fuel Hf. rewrite <- tap_loop_all.
    replace fuel with (Z.to_nat (tap_total n)
                       + (fuel - Z.to_nat (tap_total n)))%nat by lia.
    rewrite <- tap_digits_zero. apply tap_loop_extra; lia.
  - intros fuel Hf Hok. rewrite <- tap_digits_zero.
    apply tap_loop_short; auto; lia.
Qed.

(** * [put_] returns *)

Lemma fill_fold_total (row : Z -> list Q) base l : forall W,
  (forall i, In i l -> (Z.to_nat (wrap32 (base + i)) < length W)%nat) ->
  exists Wf,
    fold_left (fun acc i => W0 <- acc ;;
                            list_set W0 (wrap32 (base + i)) (row i))
              l (Ok W) = Ok Wf.
Proof.
  induction l as [|a l IH]; intros W H; simpl; [eauto|].
  cbn [bind]. unfold list_set at 2.
  pose proof (H a (or_introl eq_refl)) as Ha.
  apply Nat.ltb_lt in Ha. rewrite Ha.
  apply IH. intros i Hi. rewrite list_update_length. apply H. right. exact Hi.
Qed.

Lemma fill_weights_total bk b batch : forall fl n j base W,
  0 <= base -> Forall (fun nj => 0 <= nj) n ->
  base + zsum n <= Z.of_nat (length W) -> Z.of_nat (length W) <= 2 ^ 32 ->
  exists W1, fill_weights bk b batch j fl n base W = Ok W1.
Proof.
  induction fl as [|f fl IH]; intros n j base W Hb Hn Hs Hw;
    [simpl; eauto|].
  destruct n as [|nj n]; [simpl; eauto|].
  inversion Hn as [|? ? Hnj Hn']; subst.
  pose proof (zsum_nonneg n Hn') as Hz.
  unfold zsum in Hs, Hz. cbn [fold_right] in Hs. fold (zsum n) in Hs, Hz.
  cbn [fill_weights].
  destruct (fill_fold_total
              (fun i => map (fun s => f_eval f
                  (inject_Z (wrap32 (dr_u32 bk (base_at bk b s j) + i)))
                  (s_active s)) batch)
              base (arange nj) W) as [Wa Ha].
  { intros i Hi. apply In_arange in Hi. rewrite wrap32_small by lia. lia. }
  unfold fill_axis. rewrite Ha. cbn [bind].
  assert (Hla : length Wa = length W).
  { assert (Hs1 : base + nj <= 2 ^ 32) by lia.
    apply (fill_axis_rows bk b batch j f nj base W Wa Hb Hnj Hs1 Ha). }
  apply IH; auto; rewrite ?Hla; lia.
Qed.

Lemma put_lane_ops_in_bounds bk b batch sc :
  accumulating bk b ->
  In sc (put_lane_ops bk b batch) -> sc_mask sc = true ->
  0 <= sc_index sc < Z.of_nat (length (array (m_data b))).
Proof.
  intros [Hbk [Hgeo [[_ Hlen] [Hfil [Hoff [_ [_ [_ Hn]]]]]]]] Hin Hm.
  rewrite Hlen. unfold put_lane_ops in Hin.
  destruct (general_path bk b) eqn:Hg.
  - apply lane_ops_In in Hin. destruct Hin as [[v k] [s [Hc [_ ->]]]].
    unfold tap_calls in Hc. apply in_prod_iff in Hc. destruct Hc as [Hv Hk].
    apply In_arange in Hv. apply In_arange in Hk.
    unfold tap_op in Hm |- *. cbn [sc_mask sc_index fst snd] in Hm |- *.
    assert (Hl : length (taps bk b) = length (m_size b)).
    { destruct Hfil as [fl [_ [Hr [Hl _]]]].
      rewrite taps_length, Hr, length_map. exact Hl. }
    destruct (tap_index bk b s (tap_digits (taps bk b) v) k Hbk Hgeo Hfil Hoff
                        Hn) as [Hshape Hi]; auto.
    { intros j Hj. apply tap_digits_nth; [lia | rewrite Hl; exact Hj]. }
    rewrite Hi.
    apply (channel_index b Hgeo ltac:(lia) _ k Hshape Hk).
  - apply lane_ops_In in Hin. destruct Hin as [k [s [Hk [_ ->]]]].
    apply In_arange in Hk.
    unfold fast_op in Hm |- *. cbn [sc_mask sc_index] in Hm |- *.
    apply fast_enabled_spec in Hm. destruct Hm as [_ Hen].
    destruct (fast_index bk b Hbk Hgeo s k Hen Hk) as [_ [E Hb]].
    rewrite E. exact Hb.
Qed.

Lemma put_scatters_total bk b batch :
  accumulating bk b ->
  zsum (taps bk b) <= Z.of_nat (length (m_weights b)) <= 2 ^ 32 ->
  values_ok (m_channel_count b) batch ->
  exists W, put_scatters bk b batch = Ok (W, put_lane_ops bk b batch).
Proof.
  intros Hacc Hw Hv.
  pose proof (accumulating_lanewise bk b Hacc) as Hl.
  assert (Hnil : exists r, put_scatters_from bk b (m_weights b) [] = Ok r).
  { unfold put_scatters_from.
    destruct (general_path bk b) eqn:Hg.
    - destruct (Hl Hg) as [[fl [Hfl [Hrad [Hlen _]]]] [Hnorm [Hn _]]].
      rewrite Hfl, Hnorm. cbv zeta.
      set (n := taps bk b) in *.
      assert (Hnl : length fl = length n).
      { unfold n. rewrite taps_length, Hrad, length_map. reflexivity. }
      destruct (fill_weights_total bk b [] fl n 0 0 (m_weights b))
        as [W1 Hfill]; try lia.
      { apply taps_nonneg, Hn. }
      rewrite Hfill. cbn [bind].
      destruct (fill_weights_rows bk b [] fl n 0 0 (m_weights b) W1)
        as [Hrows _]; auto; try lia.
      { apply taps_nonneg, Hn. }
      rewrite Hnl, tap_loop_all.
      destruct (mapM_total
                  (fun v => tap_body bk b [] W1 n (tap_digits n v))
                  (arange (tap_total n))) as [opss Hm].
      { intros v Hv'. apply In_arange in Hv'.
        unfold n.
        rewrite (general_tap_body bk b fl [] W1 v Hfl Hnl
                   (taps_nonempty bk b Hg) Hn Hrows) by lia.
        apply tap_scatters_exist. intros s k []. }
      rewrite Hm. cbn [bind]. eauto.
    - destruct (fast_scatters_exist bk b []) as [ops Hf].
      { intros s k []. }
      rewrite Hf. cbn [bind]. eauto. }
  destruct Hnil as [r Hr].
  destruct (put_from_exists bk b _ [] r (m_weights b) batch Hl Hr eq_refl Hv)
    as [W [HW _]].
  exists W. rewrite put_scatters_from_self. exact HW.
Qed.

(** X17.  [put_] returns: on a configured block without normalisation
    whose weight table has a row for every tap, a batch in which every
    sample brings a value for every channel is accumulated without an
    exception and without a write outside the buffer, wherever the
    samples lie. *)
Theorem put_returns bk b batch :
  accumulating bk b ->
  zsum (taps bk b) <= Z.of_nat (length (m_weights b)) <= 2 ^ 32 ->
  values_ok (m_channel_count b) batch ->
  exists b1, put_ bk b batch = Ok b1.
Proof.
  intros Hacc Hw Hv.
  destruct (put_scatters_total bk b batch Hacc Hw Hv) as [W HW].
  destruct (scatter_reduce_add_total (put_lane_ops bk b batch)
                                     (array (m_data b))) as [t Ht].
  { intros sc Hin Hm. apply (put_lane_ops_in_bounds bk b batch sc); auto. }
  eexists. apply (put_fold bk b batch W _ t HW Ht).
Qed.

(** * Resizing *)

Lemma map2_border_inj (obs : list Z) : forall s1 s2,
  length s1 = length obs -> length s2 = length obs ->
  map2 (fun d o => d + 2 * o) s1 obs = map2 (fun d o => d + 2 * o) s2 obs ->
  s1 = s2.
Proof.
  induction obs as [|o obs IH]; intros [|a s1] [|c s2] H1 H2 E;
    simpl in *; try discriminate; auto.
  injection E as E0 E'. f_equal; [lia | apply IH; auto].
Qed.

(** X18.  [set_size] changes the dimensions only: the buffer, the
    borders and the origin shift are kept, so that the block is no
    longer allocated for its dimensions and [develop] returns what it
    returned before; [clear()] then allocates the buffer for the new
    dimensions with the original border. *)
Theorem set_size_keeps_buffer bk b size :
  geometry_ok b -> allocated b ->
  length size = length (m_size b) -> size <> m_size b ->
  Forall (fun d => 0 < d) size ->
  let b' := set_size size b in
  m_channel_count b * zprod (padded b') < 2 ^ 32 ->
  m_size b' = size /\
  m_offset b' = repeat 0 (length size) /\
  m_data b' = m_data b /\
  m_original_border_size b' = m_original_border_size b /\
  m_border_offset b' = m_border_offset b /\
  ~ allocated b' /\
  (forall gamma integer raw,
     develop bk gamma integer raw b' = develop bk gamma integer raw b) /\
  geometry_ok (clear false b') /\ allocated (clear false b').
Proof.
  intros Hgeo Hal Hlen Hne Hpos b' Hsmall.
  assert (E : b' = mkBlock (repeat 0 (length size)) size (m_channel_count b)
               (m_warn_negative b) (m_warn_invalid b) (m_normalize b)
               (m_filter b) (m_border_size b) (m_original_border_size b)
               (m_border_offset b) (filter_radius b) (m_weights b)
               (m_data b)).
  { unfold b', set_size.
    destruct (list_eq_dec Z.eq_dec (m_size b) size); [congruence|reflexivity]. }
  clearbody b'. subst b'.
  destruct (geometry_padded b Hgeo) as [obs [Ho [Hl [Hobs [Hp Hpp]]]]].
  split; [reflexivity|]. split; [reflexivity|]. split; [reflexivity|].
  split; [reflexivity|]. split; [reflexivity|].
  assert (Hp' : padded (mkBlock (repeat 0 (length size)) size
                   (m_channel_count b) (m_warn_negative b) (m_warn_invalid b)
                   (m_normalize b) (m_filter b) (m_border_size b)
                   (m_original_border_size b) (m_border_offset b)
                   (filter_radius b) (m_weights b) (m_data b))
                = map2 (fun d o => d + 2 * o) size obs).
  { unfold padded. cbn [m_size m_original_border_size]. rewrite Ho.
    reflexivity. }
  split; [|split; [|split]].
  - intros [Hsh _]. cbn [m_data m_channel_count] in Hsh.
    rewrite Hp' in Hsh. destruct Hal as [Hsh0 _]. rewrite Hsh0, Hp in Hsh.
    apply app_inv_tail in Hsh. apply Hne.
    apply (map2_border_inj obs); [congruence | congruence |].
    symmetry. exact Hsh.
  - intros gamma integer raw. reflexivity.
  - split; [exact Hpos|]. split; [|exact Hsmall].
    exists obs. split; [exact Ho|]. split; [|exact Hobs].
    cbn [m_size clear set_m_data]. congruence.
  - apply clear_allocated.
    rewrite Hp'. cbn [m_channel_count].
    pose proof (zprod_pos _ (padded_pos size obs Hpos Hobs)).
    pose proof (zprod_pos _ Hpp).
    destruct Hal as [_ Hlen0].
    assert (0 <= m_channel_count b) by nia.
    nia.
Qed.

(** * Examples of the further properties *)

Lemma box_block_filters : filters_ok box_block.
Proof. concrete_filters. Qed.

Lemma shrunk_block_allocated : allocated shrunk_block.
Proof. concrete_allocated. Qed.

Lemma shrunk_block_taps : taps backend_sat shrunk_block = [3].
Proof. vm_compute; reflexivity. Qed.

Lemma shrunk_block_accumulating : accumulating backend_sat shrunk_block.
Proof.
  split; [exact backend_sat_ok|]. split; [exact shrunk_block_geometry|].
  split; [exact shrunk_block_allocated|].
  split; [exact shrunk_block_filters|].
  split; [exact shrunk_block_offsets|]. split; [reflexivity|].
  rewrite shrunk_block_taps.
  split; [repeat constructor; solve [discriminate | reflexivity]|].
  split; [vm_compute; discriminate|].
  intros j Hj. destruct j as [|j]; [vm_compute; discriminate|].
  vm_compute in Hj; lia.
Qed.

Lemma shrunk_block_lanewise : lanewise backend_sat shrunk_block.
Proof. apply accumulating_lanewise, shrunk_block_accumulating. Qed.

Lemma three_channel_block_geometry : geometry_ok three_channel_block.
Proof. concrete_geometry [0]. Qed.

Lemma three_channel_block_allocated : allocated three_channel_block.
Proof. concrete_allocated. Qed.

Lemma init_establishes_witness :
  m_size box_block = [4; 4; 3] /\ m_channel_count box_block = 5 /\
  geometry_ok box_block /\ allocated box_block /\
  filters_ok box_block /\ offsets_ok box_block.
Proof.
  destruct (init_establishes backend_sat [4; 4; 3] 5 (FilterOne box_filter)
              false false false box_block)
    as [H1 [H2 [_ [_ [_ [_ [_ [_ H3]]]]]]]].
  - vm_compute; reflexivity.
  - repeat constructor.
  - repeat constructor; vm_compute; discriminate.
  - lia.
  - vm_compute; reflexivity.
  - split; [exact H1|]. split; [exact H2 | exact H3].
Defined.

Lemma put_keeps_configuration_witness :
  m_size box_block_after = m_size box_block /\
  shape (m_data box_block_after) = shape (m_data box_block) /\
  length (array (m_data box_block_after))
  = length (array (m_data box_block)).
Proof.
  destruct (put_keeps_configuration backend_sat box_block [centre_sample]
              box_block_after)
    as [[H1 [_ [_ [_ [_ [_ [_ [H2 H3]]]]]]]] _].
  - vm_compute; reflexivity.
  - split; [exact H1|]. split; [exact H2 | exact H3].
Defined.

Lemma put_inactive_noop_witness :
  m_data (block_of (put_ backend_sat box_block [inactive_sample]))
  = m_data box_block.
Proof.
  apply (put_inactive_noop backend_sat box_block [inactive_sample]).
  - exact box_block_filters.
  - intros s [<-|[]]. reflexivity.
  - vm_compute; reflexivity.
Defined.

Lemma develop_without_border_raises_witness :
  develop backend_sat false false false flat_block = Raise TypeError.
Proof.
  apply (develop_without_border_raises backend_sat [4; 4; 3] 5
           (FilterOne box_filter) false false false flat_block false false).
  - vm_compute; reflexivity.
  - repeat constructor.
  - lia.
  - vm_compute; reflexivity.
Defined.

Lemma shrink_then_restore_keeps_shift_witness :
  let b2 := fst (configure_filter backend_sat
                   (FilterSeq [tent_filter (5#2) 2]) true shrunk_block) in
  m_border_size b2 = NdArr [2] /\ m_border_offset b2 = NdArr [1] /\
  border_size_at b2 0 + border_offset_at b2 0 = 3.
Proof.
  destruct (shrink_then_restore_keeps_shift backend_sat wide_block [2]
              [tent_filter (5#2) 2] [tent_filter (3#2) 1])
    as [_ [H1 [_ [H2 [_ H3]]]]].
  - vm_compute; discriminate.
  - reflexivity.
  - reflexivity.
  - reflexivity.
  - reflexivity.
  - repeat constructor; vm_compute; discriminate.
  - vm_compute; discriminate.
  - split; [exact H1|]. split; [exact H2 | exact (H3 0%nat)].
Defined.

Lemma develop_divides_by_weight_witness :
  exists v w,
    tensor_get (m_data box_block_after) ([1; 2; 1] ++ [0]) = Some v /\
    tensor_get (m_data box_block_after) ([1; 2; 1] ++ [4]) = Some w /\
    ((0 < w)%Q ->
     tensor_get (tensor_of (develop backend_sat false false false
                                    box_block_after))
                ([1; 2; 1] ++ [0])
     = Some (developed backend_sat false (XNum (v / w)))).
Proof.
  destruct (develop_divides_by_weight backend_sat box_block_after false false
              (tensor_of (develop backend_sat false false false
                                  box_block_after))
              [0; 0; 0] [1; 2; 1] 0)
    as [v [w [Hv [Hw [Hpos _]]]]].
  - exact box_block_after_geometry.
  - exact box_block_after_allocated.
  - reflexivity.
  - vm_compute; discriminate.
  - vm_compute; reflexivity.
  - vm_compute; repeat constructor; discriminate.
  - vm_compute; split; [discriminate | reflexivity].
  - exists v, w. split; [exact Hv|]. split; [exact Hw | exact Hpos].
Defined.

Lemma develop_after_clear_witness :
  exists t,
    develop backend_sat false false false (clear false box_block_after) = Ok t /\
    shape t = [4; 4; 3; 3] /\
    Forall (eq (XNum 0)) (array t).
Proof.
  destruct (develop_after_clear backend_sat box_block_after false false)
    as [t [H1 [H2 [_ H3]]]].
  - exact box_block_after_geometry.
  - vm_compute; discriminate.
  - exists t. split; [exact H1|]. split; [exact H2 | exact H3].
Defined.

Lemma develop_after_forced_clear_witness :
  exists t,
    develop backend_sat false false false (clear true shrunk_block) = Ok t /\
    shape t = [2; 3].
Proof.
  destruct (develop_after_forced_clear backend_sat shrunk_block [1] [2]
              false false) as [_ [_ [t [H1 [H2 _]]]]].
  - reflexivity.
  - reflexivity.
  - reflexivity.
  - reflexivity.
  - repeat constructor; lia.
  - vm_compute; repeat constructor.
  - vm_compute; discriminate.
  - vm_compute; reflexivity.
  - exists t. split; [exact H1 | exact H2].
Defined.

Lemma develop_few_channels_out_of_bounds_witness :
  m_channel_count three_channel_block = 3 /\
  develop backend_sat false false false three_channel_block
  = Raise OutOfBounds.
Proof.
  split; [reflexivity|].
  apply (develop_few_channels_out_of_bounds backend_sat three_channel_block).
  - exact three_channel_block_geometry.
  - exact three_channel_block_allocated.
  - vm_compute; split; discriminate.
  - vm_compute; reflexivity.
Defined.

Lemma put_needs_five_values_witness :
  m_channel_count six_channel_block = 6 /\
  put backend_sat six_channel_block [centre_put_sample] = Raise IndexError.
Proof.
  split; [reflexivity|].
  destruct (put_needs_five_values backend_sat six_channel_block
              [centre_put_sample]) as [_ H].
  - vm_compute; reflexivity.
  - discriminate.
  - apply H. vm_compute; reflexivity.
Defined.

Lemma put_order_independent_witness :
  exists b2,
    put_ backend_sat shrunk_block [low_sample; edge_sample] = Ok b2 /\
    shape (m_data b2) = shape (m_data shrunk_block_after) /\
    same_values (array (m_data shrunk_block_after)) (array (m_data b2)).
Proof.
  apply (put_order_independent backend_sat shrunk_block
           [edge_sample; low_sample] [low_sample; edge_sample]
           shrunk_block_after).
  - exact shrunk_block_lanewise.
  - apply perm_swap.
  - vm_compute; reflexivity.
Defined.

Lemma put_batches_compose_witness :
  exists b1 b2,
    put_ backend_sat shrunk_block [edge_sample] = Ok b1 /\
    put_ backend_sat b1 [low_sample] = Ok b2 /\
    same_values (array (m_data shrunk_block_after)) (array (m_data b2)).
Proof.
  destruct (put_batches_compose backend_sat shrunk_block [edge_sample]
              [low_sample] shrunk_block_lanewise) as [H _].
  apply (H shrunk_block_after). vm_compute; reflexivity.
Defined.

Lemma put_accumulates_weighted_values_witness :
  exists old new,
    tensor_get (m_data shrunk_block) ([6] ++ [4]) = Some old /\
    tensor_get (m_data shrunk_block_after) ([6] ++ [4]) = Some new /\
    (new == old
            + qsum (map (fun s => cell_weight backend_sat shrunk_block [6%Z] s
                                  * nth (Z.to_nat 4) (s_value s) (0#1))
                        [edge_sample; low_sample]))%Q.
Proof.
  apply (put_accumulates_weighted_values backend_sat shrunk_block
           [edge_sample; low_sample] shrunk_block_after [6] 4).
  - exact shrunk_block_accumulating.
  - vm_compute; reflexivity.
  - vm_compute; repeat constructor; discriminate.
  - vm_compute; split; [discriminate | reflexivity].
Defined.


Lemma put_returns_witness :
  exists b1, put_ backend_sat shrunk_block [edge_sample; low_sample] = Ok b1.
Proof.
  apply (put_returns backend_sat shrunk_block [edge_sample; low_sample]).
  - exact shrunk_block_accumulating.
  - vm_compute; split; discriminate.
  - intros s k [<-|[<-|[]]] Hk;
      change (m_channel_count shrunk_block) with 5 in Hk;
      change (length (s_value edge_sample)) with 5%nat;
      change (length (s_value low_sample)) with 5%nat; lia.
Defined.

Lemma set_size_keeps_buffer_witness :
  m_size (set_size [2; 2; 2] box_block) = [2; 2; 2] /\
  m_data (set_size [2; 2; 2] box_block) = m_data box_block /\
  ~ allocated (set_size [2; 2; 2] box_block) /\
  allocated (clear false (set_size [2; 2; 2] box_block)).
Proof.
  destruct (set_size_keeps_buffer backend_sat box_block [2; 2; 2])
    as [H1 [_ [H2 [_ [_ [H3 [_ [_ H4]]]]]]]].
  - exact box_block_geometry.
  - exact box_block_allocated.
  - reflexivity.
  - discriminate.
  - repeat constructor.
  - vm_compute; reflexivity.
  - split; [exact H1|]. split; [exact H2|]. split; [exact H3 | exact H4].
Defined.
